(** * Verification of the YouTube channel harvester

    A shallow embedding of [harvest_crypto_channels.py] and the properties
    of its credential rotation, quota classification, transport retries,
    registry persistence and per-keyword harvesting loop. *)

From Stdlib Require Import ZArith QArith String Ascii List Bool Lia.
From stdpp Require Import base gmap sets list strings sorting.

Set Warnings "-clear-no-such-hyp".

Local Open Scope string_scope.
Local Open Scope list_scope.
Local Open Scope Z_scope.

(** ** Python values and exceptions *)

(** The exceptions the modelled code can raise. *)
Inductive exn :=
  | AttributeError
  | TypeError
  | IndexError
  | RequestException (info : string).

(** A computation that returns a value or raises. *)
Inductive result (A : Type) :=
  | Ok (a : A)
  | Raise (e : exn).
Arguments Ok {A} a.
Arguments Raise {A} e.

#[global] Instance result_ret : MRet result := λ A a, Ok a.
#[global] Instance result_bind : MBind result := λ A B k r,
  match r with
  | Ok a => k a
  | Raise e => Raise e
  end.

(** Values produced by [json.load] / [response.json()]: [None], booleans,
    integers, floats, strings, lists and dictionaries with string keys.
    Strings are sequences of code points below 256. The order of the keys
    of a dictionary is not kept: the code never depends on it. *)
#[warnings="-register-all"]
Inductive json :=
  | JNull
  | JBool (b : bool)
  | JInt (n : Z)
  | JFloat (q : Q)
  | JStr (s : string)
  | JArr (items : list json)
  | JObj (fields : gmap string json).

(** Python truthiness, as used by [if x:] and [not x]. *)
Definition truthy (v : json) : bool :=
  match v with
  | JNull => false
  | JBool b => b
  | JInt n => negb (n =? 0)
  | JFloat q => negb (Qeq_bool q 0)
  | JStr s => negb (String.eqb s "")
  | JArr items => negb (bool_decide (items = []))
  | JObj fields => negb (bool_decide (fields = ∅))
  end.

(** [d.get(key, default)]: only dictionaries have a [get] method. *)
Definition py_get (d : json) (key : string) (default_value : json) : result json :=
  match d with
  | JObj fields => Ok (default default_value (fields !! key))
  | _ => Raise AttributeError
  end.

(** [for x in v]: lists yield their elements, dictionaries their keys,
    strings their characters; the other values are not iterable. *)
Definition py_iter (v : json) : result (list json) :=
  match v with
  | JArr items => Ok items
  | JObj fields => Ok (JStr <$> (map_to_list fields).*1)
  | JStr s => Ok ((λ c, JStr (String c "")) <$> list_ascii_of_string s)
  | _ => Raise TypeError
  end.

(** [len(v)]. *)
Definition py_len (v : json) : result Z :=
  match v with
  | JArr items => Ok (Z.of_nat (length items))
  | JObj fields => Ok (Z.of_nat (size fields))
  | JStr s => Ok (Z.of_nat (String.length s))
  | _ => Raise TypeError
  end.

(** Lists and dictionaries are unhashable: adding one to a [set] raises
    [TypeError]. *)
Definition hashable (v : json) : bool :=
  match v with
  | JArr _ | JObj _ => false
  | _ => true
  end.

(** [v is None]. *)
Definition is_none (v : json) : bool :=
  match v with
  | JNull => true
  | _ => false
  end.

(** [isinstance(v, dict)]. *)
Definition is_dict (v : json) : bool :=
  match v with
  | JObj _ => true
  | _ => false
  end.

(** [text in reasons] for a string [text]: only an equal string matches. *)
Definition is_str (text : string) (v : json) : bool :=
  match v with
  | JStr s => String.eqb text s
  | _ => false
  end.

(** [l[i]] on a Python list: negative indices count from the end, anything
    out of range raises [IndexError]. *)
Definition py_index {A} (l : list A) (i : Z) : result A :=
  let n := Z.of_nat (length l) in
  let j := if i <? 0 then n + i else i in
  if (0 <=? j) && (j <? n) then
    match l !! Z.to_nat j with
    | Some x => Ok x
    | None => Raise IndexError
    end
  else Raise IndexError.

(** [range(a, b)]. *)
Definition py_range (a b : Z) : list Z :=
  map (λ k, a + Z.of_nat k) (seq 0 (Z.to_nat (b - a))).

(** ** Credential rotator *)

(** The [for offset in range(1, total + 1)] loop of [get_next_api_key]. *)
Fixpoint scan_keys (keys : list string) (exhausted : gset Z)
    (current_index total : Z) (offsets : list Z) : result (option (Z * string)) :=
  match offsets with
  | [] => Ok None
  | offset :: rest =>
      let idx := (current_index + offset) `mod` total in
      if decide (idx ∉ exhausted) then
        key ← py_index keys idx; Ok (Some (idx, key))
      else scan_keys keys exhausted current_index total rest
  end.

Definition get_next_api_key (keys : list string) (exhausted : gset Z)
    (current_index : Z) : result (option (Z * string)) :=
  let total := Z.of_nat (length keys) in
  scan_keys keys exhausted current_index total (py_range 1 (total + 1)).

(** ** Quota classification *)

(** The set comprehension
    [{item.get("reason") for item in errors if isinstance(item, dict)}],
    kept as the list of the values added. *)
Fixpoint collect_reasons (errors : list json) : result (list json) :=
  match errors with
  | [] => Ok []
  | item :: rest =>
      if is_dict item then
        reason ← py_get item "reason" JNull;
        if hashable reason then
          reasons ← collect_reasons rest; Ok (reason :: reasons)
        else Raise TypeError
      else collect_reasons rest
  end.

Definition handle_quota_error (response_json : json) : result bool :=
  if negb (truthy response_json) then Ok false
  else
    error ← py_get response_json "error" (JObj ∅);
    errors ← py_get error "errors" (JArr []);
    items ← py_iter errors;
    reasons ← collect_reasons items;
    if existsb (is_str "quotaExceeded") reasons
       || existsb (is_str "dailyLimitExceeded") reasons
    then Ok true
    else Ok false.

(** The two reasons that signal an exhausted quota. *)
Definition quota_reason (r : string) : Prop :=
  r = "quotaExceeded" ∨ r = "dailyLimitExceeded".

(** The body carries a quota reason under [error.errors[*].reason]: it is
    a dictionary whose ["error"] is a dictionary whose ["errors"] is a list
    holding a dictionary whose ["reason"] is one of the two reasons. *)
Definition has_quota_reason (body : json) : Prop :=
  ∃ fields error errors entry r,
    body = JObj fields ∧ fields !! "error" = Some (JObj error) ∧
    error !! "errors" = Some (JArr errors) ∧ JObj entry ∈ errors ∧
    entry !! "reason" = Some (JStr r) ∧ quota_reason r.

(** Every dictionary of the list [error.errors] has a hashable reason (a
    scalar, as in the API's error payloads). *)
Definition scalar_reasons (body : json) : Prop :=
  ∀ fields error errors entry r,
    body = JObj fields → fields !! "error" = Some (JObj error) →
    error !! "errors" = Some (JArr errors) → JObj entry ∈ errors →
    entry !! "reason" = Some r → hashable r = true.

(** ** Transport retries *)

Record response := {
  status_code : Z;
  (** [response.json()]: [None] when the body is not parseable JSON. *)
  body : option json;
}.

(** Query parameters of one search request. *)
Record request := {
  part : string;
  type_ : string;
  q : string;
  maxResults : Z;
  key : string;
  pageToken : option json;
}.

(** What the network does to one [requests.get] call: it raises a
    [requests.RequestException] or returns a response. *)
Inductive net_event :=
  | NetError (info : string)
  | Reply (r : response).

(** Observable effects, in the order they happen: a [requests.get] call
    with what it met ([None] while it is still pending) and a
    [time.sleep]. *)
Inductive event :=
  | EvGet (params : request) (answer : option net_event)
  | EvSleep (seconds : Q).

(** How a call that talks to the network ends: it returns, raises, or is
    still waiting when the script of network events runs out. *)
Inductive call (A : Type) :=
  | Returns (a : A)
  | Raises (e : exn)
  | Waits.
Arguments Returns {A} a.
Arguments Raises {A} e.
Arguments Waits {A}.

(** The [while True] loop of [request_with_retries], entered with [attempt]
    attempts already made; [script] lists what each further [requests.get]
    call meets. *)
Fixpoint request_loop (params : request) (retries : Z) (delay : Q)
    (attempt : Z) (script : list net_event) : call response * list event :=
  match script with
  | [] => (Waits, [EvGet params None])
  | ev :: rest =>
      let attempt := attempt + 1 in
      match ev with
      | Reply resp => (Returns resp, [EvGet params (Some ev)])
      | NetError info =>
          if attempt >=? retries then
            (Raises (RequestException info), [EvGet params (Some ev)])
          else
            let '(r, evs) := request_loop params retries delay attempt rest in
            (r, EvGet params (Some ev) :: EvSleep delay :: evs)
      end
  end.

(** The defaults [retries=3] and [delay=1.5], with which the search client
    calls [request_with_retries]. *)
Definition default_retries : Z := 3.
Definition default_delay : Q := 3 # 2.

Definition request_with_retries (params : request) (script : list net_event)
    : call response * list event :=
  request_loop params default_retries default_delay 0 script.

(** The requests of a trace. *)
Definition gets (evs : list event) : list request :=
  omap (λ ev, match ev with EvGet params _ => Some params | _ => None end) evs.

(** The network answers a request with [r]: at most two transport errors,
    then the response [r]. *)
Definition answers (script : list net_event) (r : response) : Prop :=
  ∃ errs rest, script = (NetError <$> errs) ++ Reply r :: rest ∧ (length errs < 3)%nat.

(** What [search_videos_for_keyword] hands over as [data] for a response:
    the parsed body of a 200 response, [None] otherwise. *)
Definition response_data (r : response) : json :=
  if status_code r =? 200 then default JNull (body r) else JNull.

(** The [params] dictionary of [search_videos_for_keyword]: the page token
    goes in only when it is truthy. *)
Definition search_params (keyword api_key : string) (page_token : json) : request :=
  {| part := "snippet";
     type_ := "video";
     q := keyword;
     maxResults := 50;
     key := api_key;
     pageToken := if truthy page_token then Some page_token else None |}.

(** [search_videos_for_keyword]: the pair [(data, response)], where [data]
    is [JNull] (Python's [None]) unless the status is 200 and the body
    parses. *)
Definition search_videos_for_keyword (keyword api_key : string)
    (page_token : json) (script : list net_event)
    : call (json * response) * list event :=
  let params := search_params keyword api_key page_token in
  match request_with_retries params script with
  | (Returns response, evs) =>
      if negb (status_code response =? 200) then (Returns (JNull, response), evs)
      else
        match body response with
        | None => (Returns (JNull, response), evs)
        | Some data => (Returns (data, response), evs)
        end
  | (Raises e, evs) => (Raises e, evs)
  | (Waits, evs) => (Waits, evs)
  end.

(** The events of one answered fetch: every request carries the same
    parameters, transport errors are followed by the pause, and the last
    request is answered by the response. *)
Definition fetch_events (params : request) (r : response) (evs : list event) : Prop :=
  ∃ errs : list string,
    evs = concat ((λ info, [EvGet params (Some (NetError info)); EvSleep default_delay])
                    <$> errs)
          ++ [EvGet params (Some (Reply r))].

(** Lines 185-190 of [process_keyword]: a failed fetch is a quota
    exhaustion when the status is 403 and [handle_quota_error] accepts the
    parsed body, an unparseable body counting as [{}]. *)
Definition quota_exhausted (r : response) : result bool :=
  if status_code r =? 403 then
    handle_quota_error (default (JObj ∅) (body r))
  else Ok false.

(** ** Channel registry file *)

(** Characters removed by [str.strip()], among the code points below 256. *)
Definition is_space (c : ascii) : bool :=
  let n := N_of_ascii c in
  ((9 <=? n) && (n <=? 13) || (28 <=? n) && (n <=? 32)
   || (n =? 133) || (n =? 160))%N.

Fixpoint lstrip (s : string) : string :=
  match s with
  | EmptyString => EmptyString
  | String c rest => if is_space c then lstrip rest else s
  end.

Fixpoint rstrip (s : string) : string :=
  match s with
  | EmptyString => EmptyString
  | String c rest =>
      match rstrip rest with
      | EmptyString => if is_space c then EmptyString else String c EmptyString
      | kept => String c kept
      end
  end.

Definition strip (s : string) : string := rstrip (lstrip s).

Definition LF : ascii := ascii_of_N 10.
Definition CR : ascii := ascii_of_N 13.

(** Iterating over a file opened in text mode (universal newlines): the
    text is cut after each line end, written as a line feed, a carriage
    return, or a carriage return followed by a line feed; every line end is
    handed over as a single line feed. *)
Fixpoint read_lines (text : string) : list string :=
  match text with
  | EmptyString => []
  | String c rest =>
      if Ascii.eqb c LF then String LF EmptyString :: read_lines rest
      else if Ascii.eqb c CR then
        match rest with
        | String c' rest' =>
            if Ascii.eqb c' LF then String LF EmptyString :: read_lines rest'
            else String LF EmptyString :: read_lines rest
        | EmptyString => [String LF EmptyString]
        end
      else
        match read_lines rest with
        | [] => [String c EmptyString]
        | line :: lines => String c line :: lines
        end
  end.

(** The body of the [for line in f] loop of [load_known_channels]. *)
Fixpoint add_lines (lines : list string) (channels : gset string) : gset string :=
  match lines with
  | [] => channels
  | line :: rest =>
      let url := strip line in
      if negb (String.eqb url "") then add_lines rest ({[url]} ∪ channels)
      else add_lines rest channels
  end.

(** [load_known_channels]; the file is [None] when it does not exist. *)
Definition load_known_channels (output_file : option string) : gset string :=
  match output_file with
  | None => ∅
  | Some text => add_lines (read_lines text) ∅
  end.

(** The order of Python strings: lexicographic on code points. *)
Definition str_le (a b : string) : Prop := String.leb a b = true.

#[global] Instance str_le_dec : RelDecision str_le :=
  λ a b, decide (String.leb a b = true).

(** [sorted(channels)]. *)
Definition sorted (channels : gset string) : list string :=
  merge_sort str_le (elements channels).

(** [save_known_channels]: the text written to the output file (the write
    goes to a temporary file that then replaces the output file). *)
Fixpoint write_lines (urls : list string) : string :=
  match urls with
  | [] => EmptyString
  | url :: rest => (url +:+ String LF EmptyString) +:+ write_lines rest
  end.

Definition save_known_channels (channels : gset string) : string :=
  write_lines (sorted channels).

(** The characters of a string. *)
Definition chars (s : string) : list ascii := list_ascii_of_string s.

(** A URL that is not blank: stripping leaves something. *)
Definition non_blank (url : string) : Prop := strip url ≠ "".

(** A URL without a line feed. *)
Definition newline_free (url : string) : Prop := LF ∉ chars url.

(** A URL that survives a reload: not empty, no white space at either end,
    and no line end (line feed or carriage return) inside. *)
Definition clean_url (url : string) : Prop :=
  url ≠ "" ∧ strip url = url ∧ (LF ∉ chars url) ∧ (CR ∉ chars url).

(** ** Harvest state *)

(** One keyword's progress: the dictionary
    [{"last_page_token": ..., "fetched_count": ..., "completed": ...}]. *)
Record kw_state := {
  last_page_token : json;
  fetched_count : Z;
  completed : bool;
}.

Definition new_kw_state : kw_state :=
  {| last_page_token := JNull; fetched_count := 0; completed := false |}.

#[global] Instance kw_state_inhabited : Inhabited kw_state := populate new_kw_state.

(** The validated configuration ([state_file] and [output_file] name the two
    files of the [world] below). *)
Record config := {
  api_keys : list string;
  keywords : list string;
  max_results_per_keyword : Z;
}.

(** The objects the run works on: the [state] dictionary and the
    [known_channels] set shared by all calls, the two files and the effects
    so far. A file is [None] when it does not exist. The state file holds
    a JSON rendering of the state, kept here as the state it denotes (a
    state file that does not parse is read as an empty state, like a
    missing one). Both files are written to a temporary file that then
    replaces the target, so a write is one step. The two files are two
    slots here: this is the run as the memory, the trace and the two
    loads see it while the saves of one file do not touch the other
    ([independent]); where the files are and what the temporary files do
    to them is in [Disk] below. *)
Record world := {
  state : gmap string kw_state;
  known_channels : gset string;
  state_file : option (gmap string kw_state);
  output_file : option string;
  trace : list event;
}.

Definition set_state (s : gmap string kw_state) (w : world) : world :=
  {| state := s; known_channels := known_channels w;
     state_file := state_file w; output_file := output_file w; trace := trace w |}.

Definition set_known_channels (c : gset string) (w : world) : world :=
  {| state := state w; known_channels := c;
     state_file := state_file w; output_file := output_file w; trace := trace w |}.

Definition log (evs : list event) (w : world) : world :=
  {| state := state w; known_channels := known_channels w;
     state_file := state_file w; output_file := output_file w;
     trace := trace w ++ evs |}.

(** [load_state]: an empty dictionary when there is no state file. *)
Definition load_state (file : option (gmap string kw_state)) : gmap string kw_state :=
  default ∅ file.

(** [save_state(state, state_path)], as the slot of the state file sees
    it; [Disk.save_state] writes through the temporary file. *)
Definition save_state (w : world) : world :=
  {| state := state w; known_channels := known_channels w;
     state_file := Some (state w); output_file := output_file w; trace := trace w |}.

(** [save_known_channels(known_channels, output_path)], as the slot of the
    output file sees it; [Disk.save_channels] writes through the temporary
    file. *)
Definition save_channels (w : world) : world :=
  {| state := state w; known_channels := known_channels w;
     state_file := state_file w;
     output_file := Some (save_known_channels (known_channels w)); trace := trace w |}.

(** How [process_keyword] or [main] ends: it returns, the process exits
    through [sys.exit], an exception escapes, or the network script ran out
    while a request was pending. *)
Inductive outcome :=
  | Returned (w : world)
  | Exited (code : Z) (w : world)
  | Raised (e : exn) (w : world)
  | Blocked (w : world).

Definition final (o : outcome) : world :=
  match o with
  | Returned w | Exited _ w | Raised _ w | Blocked w => w
  end.

(** The local variables of the loop of [process_keyword]. *)
Record locals := {
  current_key_index : Z;
  api_key : string;
  exhausted_keys : gset Z;
}.

(** One pass through the loop body either goes round again or leaves. *)
Inductive step :=
  | Continue (l : locals) (w : world)
  | Stop (o : outcome).

(** The world a pass leaves behind. *)
Definition after (s : step) : world :=
  match s with
  | Continue _ w => w
  | Stop o => final o
  end.

(** [str(v)] for the values an f-string may have to render. *)
Class Formatter := py_str : json → string.

Section Harvest.
Context `{Formatter}.

(** [f"https://www.youtube.com/channel/{channel_id}"]. *)
Definition channel_url (channel_id : json) : string :=
  "https://www.youtube.com/channel/" +:+
  match channel_id with
  | JStr s => s
  | v => py_str v
  end.

(** The [for item in items] loop of [process_keyword]. *)
Fixpoint merge_items (items : list json) (known : gset string) : result (gset string) :=
  match items with
  | [] => Ok known
  | item :: rest =>
      snippet ← py_get item "snippet" (JObj ∅);
      channel_id ← py_get snippet "channelId" JNull;
      if truthy channel_id then merge_items rest ({[channel_url channel_id]} ∪ known)
      else merge_items rest known
  end.

(** Lines 207-218 of [process_keyword]: the registry after the page, the
    number of items and the next page token. *)
Definition read_page (data : json) (known : gset string)
    : result (gset string * Z * json) :=
  items ← py_get data "items" (JArr []);
  elems ← py_iter items;
  known' ← merge_items elems known;
  fetched ← py_len items;
  token ← py_get data "nextPageToken" JNull;
  Ok (known', fetched, token).

(** The failure exit of the loop: save both files and return. *)
Definition stop_keyword (w : world) : step :=
  Stop (Returned (save_channels (save_state w))).

(** Lines 216-221: count the page, move the cursor, save both files. The
    dictionary [kw_state] is the entry of [state] itself, so the update
    shows in [state]. *)
Definition record_page (keyword : string) (known' : gset string) (fetched : Z)
    (token : json) (w : world) : world :=
  let kw := state w !!! keyword in
  let kw1 := {| last_page_token := token;
                fetched_count := fetched_count kw + fetched;
                completed := completed kw |} in
  save_channels (save_state
    (set_known_channels known' (set_state (<[keyword := kw1]> (state w)) w))).

(** Lines 229-230: set the flag and save the state. *)
Definition mark_completed (keyword : string) (w : world) : world :=
  let kw := state w !!! keyword in
  let kw2 := {| last_page_token := last_page_token kw;
                fetched_count := fetched_count kw;
                completed := true |} in
  save_state (set_state (<[keyword := kw2]> (state w)) w).

(** The body of [while not kw_state.get("completed")]. *)
Definition loop_body (keyword : string) (max_results : Z) (keys : list string)
    (script : list net_event) (l : locals) (w : world) : step :=
  let kw := state w !!! keyword in
  match search_videos_for_keyword keyword (api_key l) (last_page_token kw) script with
  | (Waits, evs) => Stop (Blocked (log evs w))
  | (Raises e, evs) => Stop (Raised e (log evs w))
  | (Returns (data, response), evs) =>
      let w := log evs w in
      if is_none data then
        match quota_exhausted response with
        | Raise e => Stop (Raised e w)
        | Ok true =>
            let exhausted := {[current_key_index l]} ∪ exhausted_keys l in
            match get_next_api_key keys exhausted (current_key_index l) with
            | Raise e => Stop (Raised e w)
            | Ok None => Stop (Exited 0 (save_channels (save_state w)))
            | Ok (Some (idx, k)) =>
                Continue {| current_key_index := idx; api_key := k;
                            exhausted_keys := exhausted |} w
            end
        | Ok false => stop_keyword w
        end
      else
        match read_page data (known_channels w) with
        | Raise e =>
            (* the process dies here: only the files and the trace of the
               world it leaves behind are observable *)
            Stop (Raised e w)
        | Ok (known', fetched, token) =>
            let w1 := record_page keyword known' fetched token w in
            let kw1 := state w1 !!! keyword in
            if (fetched_count kw1 >=? max_results) || negb (truthy (last_page_token kw1))
            then Stop (Returned (mark_completed keyword w1))
            else Continue l (log [EvSleep (1 # 2)] w1)
        end
  end.

(** What the loop does with a response [r], in the world [w] that already
    logs the fetch. *)
Inductive handled (keyword : string) (max_results : Z) (keys : list string)
    (l : locals) (w : world) : response → step → Prop :=
  | H_classifier_raises r e :
      is_none (response_data r) = true → quota_exhausted r = Raise e →
      handled keyword max_results keys l w r (Stop (Raised e w))
  | H_failure r :
      is_none (response_data r) = true → quota_exhausted r = Ok false →
      handled keyword max_results keys l w r (stop_keyword w)
  | H_rotator_raises r e :
      is_none (response_data r) = true → quota_exhausted r = Ok true →
      get_next_api_key keys ({[current_key_index l]} ∪ exhausted_keys l)
        (current_key_index l) = Raise e →
      handled keyword max_results keys l w r (Stop (Raised e w))
  | H_halt r :
      is_none (response_data r) = true → quota_exhausted r = Ok true →
      get_next_api_key keys ({[current_key_index l]} ∪ exhausted_keys l)
        (current_key_index l) = Ok None →
      handled keyword max_results keys l w r
        (Stop (Exited 0 (save_channels (save_state w))))
  | H_rotate r idx k :
      is_none (response_data r) = true → quota_exhausted r = Ok true →
      get_next_api_key keys ({[current_key_index l]} ∪ exhausted_keys l)
        (current_key_index l) = Ok (Some (idx, k)) →
      handled keyword max_results keys l w r
        (Continue {| current_key_index := idx; api_key := k;
                     exhausted_keys := {[current_key_index l]} ∪ exhausted_keys l |} w)
  | H_page_raises r e :
      is_none (response_data r) = false →
      read_page (response_data r) (known_channels w) = Raise e →
      handled keyword max_results keys l w r (Stop (Raised e w))
  | H_last_page r known' fetched token :
      is_none (response_data r) = false →
      read_page (response_data r) (known_channels w) = Ok (known', fetched, token) →
      max_results ≤ fetched_count (state w !!! keyword) + fetched ∨ truthy token = false →
      handled keyword max_results keys l w r
        (Stop (Returned (mark_completed keyword
                           (record_page keyword known' fetched token w))))
  | H_next_page r known' fetched token :
      is_none (response_data r) = false →
      read_page (response_data r) (known_channels w) = Ok (known', fetched, token) →
      fetched_count (state w !!! keyword) + fetched < max_results →
      truthy token = true →
      handled keyword max_results keys l w r
        (Continue l (log [EvSleep (1 # 2)] (record_page keyword known' fetched token w))).

(** The transitions of the per-keyword state machine, by what the fetch
    brought: [evs] are the events of the fetch. *)
Inductive transition (keyword : string) (max_results : Z) (keys : list string)
    (script : list net_event) (l : locals) (w : world) : step → Prop :=
  | T_waits evs :
      search_videos_for_keyword keyword (api_key l)
        (last_page_token (state w !!! keyword)) script = (Waits, evs) →
      transition keyword max_results keys script l w (Stop (Blocked (log evs w)))
  | T_transport e evs :
      search_videos_for_keyword keyword (api_key l)
        (last_page_token (state w !!! keyword)) script = (Raises e, evs) →
      transition keyword max_results keys script l w (Stop (Raised e (log evs w)))
  | T_fetched r evs s :
      search_videos_for_keyword keyword (api_key l)
        (last_page_token (state w !!! keyword)) script
        = (Returns (response_data r, r), evs) →
      handled keyword max_results keys l (log evs w) r s →
      transition keyword max_results keys script l w s.

(** The loop of [process_keyword]: one script of network events per pass. *)
Fixpoint process_loop (keyword : string) (max_results : Z) (keys : list string)
    (scripts : list (list net_event)) (l : locals) (w : world)
    : outcome * list (list net_event) :=
  if completed (state w !!! keyword) then (Returned w, scripts)
  else
    match scripts with
    | [] => (Blocked w, [])
    | script :: rest =>
        match loop_body keyword max_results keys script l w with
        | Continue l' w' => process_loop keyword max_results keys rest l' w'
        | Stop o => (o, rest)
        end
    end.

(** The locals and the world with which the loop starts its next pass
    after going round once for each of the scripts; [None] when it left
    the loop before. *)
Fixpoint advance (keyword : string) (max_results : Z) (keys : list string)
    (scripts : list (list net_event)) (l : locals) (w : world) : option (locals * world) :=
  match scripts with
  | [] => Some (l, w)
  | script :: rest =>
      if completed (state w !!! keyword) then None
      else
        match loop_body keyword max_results keys script l w with
        | Continue l' w' => advance keyword max_results keys rest l' w'
        | Stop _ => None
        end
  end.

(** A successful page fetch: in the world [w] the script answers the
    request with a 200 response whose body parses to [data], and the page
    is merged and counted: [fetched] items, next page token [token],
    registry [known'] afterwards. *)
Definition page_fetched (script : list net_event) (w : world)
    (fetched : Z) (token : json) (known' : gset string) : Prop :=
  ∃ r data,
    answers script r ∧ status_code r = 200 ∧ body r = Some data ∧
    is_none data = false ∧
    read_page data (known_channels w) = Ok (known', fetched, token).

(** [state.setdefault(keyword, {...})]. *)
Definition setdefault (keyword : string) (s : gmap string kw_state) : gmap string kw_state :=
  match s !! keyword with
  | Some _ => s
  | None => <[keyword := new_kw_state]> s
  end.

Definition process_keyword (keyword : string) (cfg : config) (keys : list string)
    (scripts : list (list net_event)) (w : world) : outcome * list (list net_event) :=
  let w := set_state (setdefault keyword (state w)) w in
  if completed (state w !!! keyword) then (Returned w, scripts)
  else
    match py_index keys 0 with
    | Raise e => (Raised e w, scripts)
    | Ok first_key =>
        process_loop keyword (max_results_per_keyword cfg) keys scripts
          {| current_key_index := 0; api_key := first_key; exhausted_keys := ∅ |} w
    end.

(** The [for keyword in config["keywords"]] loop of [main]. *)
Fixpoint run_keywords (kws : list string) (cfg : config)
    (scripts : list (list net_event)) (w : world) : outcome :=
  match kws with
  | [] => Returned w
  | keyword :: rest =>
      match process_keyword keyword cfg (api_keys cfg) scripts w with
      | (Returned w', scripts') => run_keywords rest cfg scripts' w'
      | (o, _) => o
      end
  end.

(** The checks of [load_config] on the three values the harvest uses. *)
Definition valid_config (cfg : config) : bool :=
  negb (bool_decide (api_keys cfg = []))
  && negb (bool_decide (keywords cfg = []))
  && negb (max_results_per_keyword cfg <=? 0).

(** [main], started on the two files: a configuration error exits with
    status 1 before anything is loaded. *)
Definition main (cfg : config) (state_path : option (gmap string kw_state))
    (output_path : option string) (scripts : list (list net_event)) : outcome :=
  if negb (valid_config cfg) then
    Exited 1 {| state := ∅; known_channels := ∅; state_file := state_path;
                output_file := output_path; trace := [] |}
  else
    let w := {| state := load_state state_path;
                known_channels := load_known_channels output_path;
                state_file := state_path; output_file := output_path;
                trace := [] |} in
    run_keywords (keywords cfg) cfg scripts w.

End Harvest.

(** Successive invocations of [main], each on the files the one before
    left behind. *)
Fixpoint invocations `{Formatter} (runs : list (config * list (list net_event)))
    (state_path : option (gmap string kw_state)) (output_path : option string)
    : option (gmap string kw_state) * option string :=
  match runs with
  | [] => (state_path, output_path)
  | (cfg, scripts) :: rest =>
      let o := main cfg state_path output_path scripts in
      invocations rest (state_file (final o)) (output_file (final o))
  end.

(** The exit status of the process. *)
Definition exit_code (o : outcome) : option Z :=
  match o with
  | Returned _ => Some 0
  | Exited code _ => Some code
  | Raised _ _ => Some 1
  | Blocked _ => None
  end.

(** ** The two files on disk *)

(** The worlds above keep the two files in two slots. On disk they are
    two paths among others, and each save goes through a temporary file
    next to its target; the state file could be the temporary file of the
    output file. The definitions below keep the files by their paths;
    [view] reads the two slots off a disk, and when the saves do not touch
    each other's file ([independent]) the run on disk is the run on the
    slots ([view_loop_body] and the lemmas after it). *)

(** What a file holds: the text [json.dump] wrote for a state, kept as the
    state it denotes, or any other text. *)
Inductive file :=
  | StateFile (s : gmap string kw_state)
  | TextFile (text : string).

(** A file read as the other kind: [json_dump] is the text of a state
    file, and [json_load] is what [load_state] makes of a text, the empty
    state when it does not parse. *)
Class Codec := {
  json_dump : gmap string kw_state → string;
  json_load : string → gmap string kw_state;
}.

Definition read_state `{Codec} (f : file) : gmap string kw_state :=
  match f with
  | StateFile s => s
  | TextFile text => json_load text
  end.

Definition read_text `{Codec} (f : file) : string :=
  match f with
  | StateFile s => json_dump s
  | TextFile text => text
  end.

(** A list cut before the first occurrence of [c]. *)
Fixpoint break (c : ascii) (l : list ascii) : list ascii * list ascii :=
  match l with
  | [] => ([], [])
  | x :: rest =>
      if Ascii.eqb x c then ([], l)
      else let '(before, from) := break c rest in (x :: before, from)
  end.

(** [path.with_suffix(".tmp")] on a path in the form [pathlib] keeps it,
    with a final component that is not empty: the suffix of the final
    component, from its last dot on when that dot is neither its first
    nor its last character, is replaced by [".tmp"]; without a suffix
    [".tmp"] is appended. *)
Definition with_suffix_tmp (path : string) : string :=
  let '(name, parent) := break "/" (rev (list_ascii_of_string path)) in
  let '(suffix, stem) := break "." name in
  let kept :=
    match suffix, stem with
    | _ :: _, _ :: (_ :: _) as stem => stem
    | _, _ => name
    end in
  string_of_list_ascii (rev parent ++ rev kept ++ list_ascii_of_string ".tmp").

(** The two paths of the configuration, [Path(config["state_file"])] and
    [Path(config["output_file"])]. Two paths name the same file exactly
    when they are equal. *)
Record paths := {
  state_path : string;
  output_path : string;
}.

Module Disk.

(** The objects the run works on, the files by their paths. *)
Record world := {
  state : gmap string kw_state;
  known_channels : gset string;
  files : gmap string file;
  trace : list event;
}.

Definition set_state (s : gmap string kw_state) (w : world) : world :=
  {| state := s; known_channels := known_channels w; files := files w; trace := trace w |}.

Definition set_known_channels (c : gset string) (w : world) : world :=
  {| state := state w; known_channels := c; files := files w; trace := trace w |}.

Definition set_files (d : gmap string file) (w : world) : world :=
  {| state := state w; known_channels := known_channels w; files := d; trace := trace w |}.

Definition log (evs : list event) (w : world) : world :=
  {| state := state w; known_channels := known_channels w; files := files w;
     trace := trace w ++ evs |}.

(** [src.replace(dst)]: the file moves to [dst], over what was there. *)
Definition replace (src dst : string) (d : gmap string file) : gmap string file :=
  match d !! src with
  | Some f => <[dst := f]> (delete src d)
  | None => d
  end.

(** The discipline of both saves: write the temporary file next to the
    target, then move it over the target. *)
Definition write (path : string) (f : file) (d : gmap string file) : gmap string file :=
  let tmp_path := with_suffix_tmp path in
  replace tmp_path path (<[tmp_path := f]> d).

(** [load_state(state_path)]. *)
Definition load_state `{Codec} (state_path : string) (d : gmap string file)
    : gmap string kw_state :=
  match d !! state_path with
  | None => ∅
  | Some f => read_state f
  end.

(** [save_state(state, state_path)]. *)
Definition save_state (state_path : string) (w : world) : world :=
  set_files (write state_path (StateFile (state w)) (files w)) w.

(** [load_known_channels(output_path)]. *)
Definition load_known_channels `{Codec} (output_path : string) (d : gmap string file)
    : gset string :=
  load_known_channels (read_text <$> d !! output_path).

(** [save_known_channels(known_channels, output_path)]. *)
Definition save_channels (output_path : string) (w : world) : world :=
  set_files (write output_path (TextFile (save_known_channels (known_channels w))) (files w)) w.

Inductive outcome :=
  | Returned (w : world)
  | Exited (code : Z) (w : world)
  | Raised (e : exn) (w : world)
  | Blocked (w : world).

Definition final (o : outcome) : world :=
  match o with
  | Returned w | Exited _ w | Raised _ w | Blocked w => w
  end.

Inductive step :=
  | Continue (l : locals) (w : world)
  | Stop (o : outcome).

Definition after (s : step) : world :=
  match s with
  | Continue _ w => w
  | Stop o => final o
  end.

Definition exit_code (o : outcome) : option Z :=
  match o with
  | Returned _ => Some 0
  | Exited code _ => Some code
  | Raised _ _ => Some 1
  | Blocked _ => None
  end.

Section Run.
Context `{Formatter}.

(** Lines 203-205. *)
Definition stop_keyword (ps : paths) (w : world) : step :=
  Stop (Returned (save_channels (output_path ps) (save_state (state_path ps) w))).

(** Lines 216-221. *)
Definition record_page (ps : paths) (keyword : string) (known' : gset string)
    (fetched : Z) (token : json) (w : world) : world :=
  let kw := state w !!! keyword in
  let kw1 := {| last_page_token := token;
                fetched_count := fetched_count kw + fetched;
                completed := completed kw |} in
  save_channels (output_path ps) (save_state (state_path ps)
    (set_known_channels known' (set_state (<[keyword := kw1]> (state w)) w))).

(** Lines 229-230. *)
Definition mark_completed (ps : paths) (keyword : string) (w : world) : world :=
  let kw := state w !!! keyword in
  let kw2 := {| last_page_token := last_page_token kw;
                fetched_count := fetched_count kw;
                completed := true |} in
  save_state (state_path ps) (set_state (<[keyword := kw2]> (state w)) w).

(** The body of [while not kw_state.get("completed")]. *)
Definition loop_body (ps : paths) (keyword : string) (max_results : Z)
    (keys : list string) (script : list net_event) (l : locals) (w : world) : step :=
  let kw := state w !!! keyword in
  match search_videos_for_keyword keyword (api_key l) (last_page_token kw) script with
  | (Waits, evs) => Stop (Blocked (log evs w))
  | (Raises e, evs) => Stop (Raised e (log evs w))
  | (Returns (data, response), evs) =>
      let w := log evs w in
      if is_none data then
        match quota_exhausted response with
        | Raise e => Stop (Raised e w)
        | Ok true =>
            let exhausted := {[current_key_index l]} ∪ exhausted_keys l in
            match get_next_api_key keys exhausted (current_key_index l) with
            | Raise e => Stop (Raised e w)
            | Ok None =>
                Stop (Exited 0 (save_channels (output_path ps)
                                  (save_state (state_path ps) w)))
            | Ok (Some (idx, k)) =>
                Continue {| current_key_index := idx; api_key := k;
                            exhausted_keys := exhausted |} w
            end
        | Ok false => stop_keyword ps w
        end
      else
        match read_page data (known_channels w) with
        | Raise e => Stop (Raised e w)
        | Ok (known', fetched, token) =>
            let w1 := record_page ps keyword known' fetched token w in
            let kw1 := state w1 !!! keyword in
            if (fetched_count kw1 >=? max_results) || negb (truthy (last_page_token kw1))
            then Stop (Returned (mark_completed ps keyword w1))
            else Continue l (log [EvSleep (1 # 2)] w1)
        end
  end.

(** The loop of [process_keyword]: one script of network events per pass. *)
Fixpoint process_loop (ps : paths) (keyword : string) (max_results : Z)
    (keys : list string) (scripts : list (list net_event)) (l : locals) (w : world)
    : outcome * list (list net_event) :=
  if completed (state w !!! keyword) then (Returned w, scripts)
  else
    match scripts with
    | [] => (Blocked w, [])
    | script :: rest =>
        match loop_body ps keyword max_results keys script l w with
        | Continue l' w' => process_loop ps keyword max_results keys rest l' w'
        | Stop o => (o, rest)
        end
    end.

(** The locals and the world with which the loop starts its next pass
    after going round once for each of the scripts. *)
Fixpoint advance (ps : paths) (keyword : string) (max_results : Z)
    (keys : list string) (scripts : list (list net_event)) (l : locals) (w : world)
    : option (locals * world) :=
  match scripts with
  | [] => Some (l, w)
  | script :: rest =>
      if completed (state w !!! keyword) then None
      else
        match loop_body ps keyword max_results keys script l w with
        | Continue l' w' => advance ps keyword max_results keys rest l' w'
        | Stop _ => None
        end
  end.

(** [process_keyword]; the two paths are those of the configuration
    (lines 177-178). *)
Definition process_keyword (ps : paths) (keyword : string) (cfg : config)
    (keys : list string) (scripts : list (list net_event)) (w : world)
    : outcome * list (list net_event) :=
  let w := set_state (setdefault keyword (state w)) w in
  if completed (state w !!! keyword) then (Returned w, scripts)
  else
    match py_index keys 0 with
    | Raise e => (Raised e w, scripts)
    | Ok first_key =>
        process_loop ps keyword (max_results_per_keyword cfg) keys scripts
          {| current_key_index := 0; api_key := first_key; exhausted_keys := ∅ |} w
    end.

(** The [for keyword in config["keywords"]] loop of [main]. *)
Fixpoint run_keywords (ps : paths) (kws : list string) (cfg : config)
    (scripts : list (list net_event)) (w : world) : outcome :=
  match kws with
  | [] => Returned w
  | keyword :: rest =>
      match process_keyword ps keyword cfg (api_keys cfg) scripts w with
      | (Returned w', scripts') => run_keywords ps rest cfg scripts' w'
      | (o, _) => o
      end
  end.

Context `{Codec}.

(** [main], started on a disk. *)
Definition main (cfg : config) (ps : paths) (d : gmap string file)
    (scripts : list (list net_event)) : outcome :=
  if negb (valid_config cfg) then
    Exited 1 {| state := ∅; known_channels := ∅; files := d; trace := [] |}
  else
    let w := {| state := load_state (state_path ps) d;
                known_channels := load_known_channels (output_path ps) d;
                files := d; trace := [] |} in
    run_keywords ps (keywords cfg) cfg scripts w.

(** Successive invocations of [main] with the same two paths, each on the
    disk the one before left behind. *)
Fixpoint invocations (ps : paths) (runs : list (config * list (list net_event)))
    (d : gmap string file) : gmap string file :=
  match runs with
  | [] => d
  | (cfg, scripts) :: rest => invocations ps rest (files (final (main cfg ps d scripts)))
  end.

End Run.
End Disk.

(** ** Configuration file *)

(** The [ConfigError]s of [load_config], by their message. *)
Inductive config_error :=
  | ConfigNotFound
  | ConfigInvalidJSON
  | ConfigMissingKeys (missing : list string)
  | ConfigBadApiKeys
  | ConfigBadKeywords
  | ConfigBadMaxResults.

(** How [load_config] ends: it returns the parsed configuration, raises a
    [ConfigError], or another exception escapes. *)
Inductive loaded :=
  | Loaded (config : json)
  | Rejected (e : config_error)
  | Crashed (e : exn).

(** [needle in hay] on two strings: a substring test. *)
Fixpoint contains (needle hay : string) : bool :=
  String.prefix needle hay
  || match hay with
     | EmptyString => false
     | String _ rest => contains needle rest
     end.

(** [k in v] for a string [k]: a key of a dictionary, an element of a list,
    a substring of a string; the other values are not containers. *)
Definition py_in (k : string) (v : json) : result bool :=
  match v with
  | JObj fields => Ok (bool_decide (is_Some (fields !! k)))
  | JArr items => Ok (existsb (is_str k) items)
  | JStr s => Ok (contains k s)
  | _ => Raise TypeError
  end.

Definition required_keys : list string :=
  ["api_keys"; "keywords"; "max_results_per_keyword"; "state_file"; "output_file"].

(** [[k for k in required_keys if k not in config]]. *)
Fixpoint missing_keys (keys : list string) (config : json) : result (list string) :=
  match keys with
  | [] => Ok []
  | k :: rest =>
      present ← py_in k config;
      missing ← missing_keys rest config;
      Ok (if present : bool then missing else k :: missing)
  end.

(** [isinstance(v, list)]. *)
Definition is_list (v : json) : bool :=
  match v with
  | JArr _ => true
  | _ => false
  end.

(** [isinstance(v, int)]: booleans are integers too. *)
Definition is_int (v : json) : bool :=
  match v with
  | JInt _ | JBool _ => true
  | _ => false
  end.

(** [v <= 0] for a value that passed [isinstance(v, int)]. *)
Definition int_le_zero (v : json) : bool :=
  match v with
  | JInt n => n <=? 0
  | JBool b => negb b
  | _ => false
  end.

(** [load_config]: the file is [None] when it does not exist and
    [Some None] when it is not JSON. Once [isinstance(config.get(k), ...)]
    holds, [config[k]] is the value [get] returned. *)
Definition load_config (file : option (option json)) : loaded :=
  match file with
  | None => Rejected ConfigNotFound
  | Some None => Rejected ConfigInvalidJSON
  | Some (Some config) =>
      match missing_keys required_keys config with
      | Raise e => Crashed e
      | Ok (k :: missing) => Rejected (ConfigMissingKeys (k :: missing))
      | Ok [] =>
          match py_get config "api_keys" JNull with
          | Raise e => Crashed e
          | Ok api_keys =>
              if negb (is_list api_keys) || negb (truthy api_keys)
              then Rejected ConfigBadApiKeys
              else
                match py_get config "keywords" JNull with
                | Raise e => Crashed e
                | Ok kws =>
                    if negb (is_list kws) || negb (truthy kws)
                    then Rejected ConfigBadKeywords
                    else
                      match py_get config "max_results_per_keyword" JNull with
                      | Raise e => Crashed e
                      | Ok max_results =>
                          if negb (is_int max_results) || int_le_zero max_results
                          then Rejected ConfigBadMaxResults
                          else Loaded config
                      end
                end
          end
      end
  end.

(** ** Vocabulary of the properties *)

(** The files hold what the memory holds. *)
Definition synced (w : world) : Prop :=
  state_file w = Some (state w) ∧
  output_file w = Some (save_known_channels (known_channels w)).

(** The count and the cursor a state holds for a keyword, those of a new
    entry when it has none (what [setdefault] would put there). *)
Definition count_of (s : gmap string kw_state) (keyword : string) : Z :=
  fetched_count (s !!! keyword).

Definition cursor_of (s : gmap string kw_state) (keyword : string) : json :=
  last_page_token (s !!! keyword).

(** Both the memory and the state file of [w] hold counts at or above
    those of the baseline [b]. *)
Definition above (b : gmap string kw_state) (w : world) : Prop :=
  (∀ k, count_of b k ≤ count_of (state w) k) ∧
  (∀ k, count_of b k ≤ count_of (load_state (state_file w)) k).

(** Every entry of the memory is the one the state file holds, a missing
    entry counting as a new one. *)
Definition durable (w : world) : Prop :=
  ∀ k, load_state (state_file w) !!! k = state w !!! k.

(** The network answers the request with a quota exhaustion. *)
Definition quota_answer (script : list net_event) : Prop :=
  ∃ r, answers script r ∧ quota_exhausted r = Ok true.

(** A request of the trace, made with the key [k], met a quota
    exhaustion. *)
Definition quota_answered (ev : event) (k : string) : Prop :=
  ∃ params r,
    ev = EvGet params (Some (Reply r)) ∧ key params = k ∧ quota_exhausted r = Ok true.

(** The marks of exhausted keys outlive the keyword: a key other than
    the first one (with which every keyword starts) is picked by the
    rotation only, so once it has met a quota exhaustion no later request
    of the run is made with it. *)
Definition marks_outlive_keywords (first_key : string) (tr : list event) : Prop :=
  ∀ (i j : nat) ev params answer k,
    k ≠ first_key → tr !! i = Some ev → quota_answered ev k →
    (i < j)%nat → tr !! j = Some (EvGet params answer) → key params ≠ k.


(** A non-empty list, as [load_config] wants ["api_keys"] and
    ["keywords"]. *)
Definition nonempty_list (v : json) : Prop := ∃ x xs, v = JArr (x :: xs).

(** A positive integer. [True] is one: [isinstance(True, int)] holds and
    [True <= 0] does not. *)
Definition positive_int (v : json) : Prop := (∃ n, v = JInt n ∧ 0 < n) ∨ v = JBool true.

(** The required keys an object lacks, in the order of [required_keys]. *)
Definition absent_keys (fields : gmap string json) : list string :=
  filter (λ k, fields !! k = None) required_keys.

(** The JSON object [fields] holds the three values of [cfg]. *)
Definition config_json (fields : gmap string json) (cfg : config) : Prop :=
  fields !! "api_keys" = Some (JArr (JStr <$> api_keys cfg)) ∧
  fields !! "keywords" = Some (JArr (JStr <$> keywords cfg)) ∧
  fields !! "max_results_per_keyword" = Some (JInt (max_results_per_keyword cfg)).

(** The bodies [handle_quota_error] can classify: a falsy body, or a
    dictionary whose ["error"] (an empty dictionary when absent) is a
    dictionary whose ["errors"] (an empty list when absent) is a string, a
    dictionary, or a list in which every dictionary has a hashable
    reason. *)
Definition classifiable (body : json) : Prop :=
  truthy body = false ∨
  ∃ fields error,
    body = JObj fields ∧ default (JObj ∅) (fields !! "error") = JObj error ∧
    match default (JArr []) (error !! "errors") with
    | JArr errors =>
        ∀ entry, JObj entry ∈ errors → hashable (default JNull (entry !! "reason")) = true
    | JStr _ | JObj _ => True
    | _ => False
    end.

(** A search result the merge loop can read: a dictionary whose
    ["snippet"] (an empty dictionary when absent) is a dictionary. *)
Definition readable_item (item : json) : Prop :=
  ∃ fields snippet, item = JObj fields ∧ default (JObj ∅) (fields !! "snippet") = JObj snippet.

(** The URL an item contributes: that of its channel id, when it has a
    truthy one. *)
Definition item_url `{Formatter} (item : json) (url : string) : Prop :=
  ∃ fields snippet channel_id,
    item = JObj fields ∧ default (JObj ∅) (fields !! "snippet") = JObj snippet ∧
    snippet !! "channelId" = Some channel_id ∧ truthy channel_id = true ∧
    url = channel_url channel_id.

(** A line as the file hands it over: no line end inside, and at most a
    line feed at its end. *)
Definition line_of (line : string) : Prop :=
  ∃ body, (line = body ∨ line = body +:+ String LF "") ∧
    (LF ∉ chars body) ∧ (CR ∉ chars body).

(** Neither file has been written since the start, or both have and the
    output file is the saved registry, which holds what the file held at
    the start. *)
Definition written_together (state_path : option (gmap string kw_state))
    (output_path : option string) (w : world) : Prop :=
  (state_file w = state_path ∧ output_file w = output_path ∧
   known_channels w = load_known_channels output_path) ∨
  (is_Some (state_file w) ∧
   output_file w = Some (save_known_channels (known_channels w)) ∧
   load_known_channels output_path ⊆ known_channels w).

(** The requests of a trace that met a response. *)
Definition answered (evs : list event) : list request :=
  omap (λ ev, match ev with EvGet params (Some (Reply _)) => Some params | _ => None end) evs.

(** An effect of the loop of a keyword: a search request for it with one
    of the keys, or one of the two pauses. *)
Definition keyword_event (keyword : string) (keys : list string) (ev : event) : Prop :=
  match ev with
  | EvGet params _ => ∃ k token, params = search_params keyword k token ∧ k ∈ keys
  | EvSleep seconds => seconds = default_delay ∨ seconds = (1 # 2)%Q
  end.

(** An effect the configuration allows: a search request for one of its
    keywords with one of its keys, or one of the two pauses. *)
Definition configured_event (cfg : config) (ev : event) : Prop :=
  match ev with
  | EvGet params _ =>
      part params = "snippet" ∧ type_ params = "video" ∧ maxResults params = 50 ∧
      q params ∈ keywords cfg ∧ key params ∈ api_keys cfg
  | EvSleep seconds => seconds = default_delay ∨ seconds = (1 # 2)%Q
  end.

(** The two files of a disk world, as the loads read them. *)
Definition view `{Codec} (ps : paths) (w : Disk.world) : world :=
  {| state := Disk.state w; known_channels := Disk.known_channels w;
     state_file := read_state <$> Disk.files w !! state_path ps;
     output_file := read_text <$> Disk.files w !! output_path ps;
     trace := Disk.trace w |}.

Definition view_outcome `{Codec} (ps : paths) (o : Disk.outcome) : outcome :=
  match o with
  | Disk.Returned w => Returned (view ps w)
  | Disk.Exited code w => Exited code (view ps w)
  | Disk.Raised e w => Raised e (view ps w)
  | Disk.Blocked w => Blocked (view ps w)
  end.

Definition view_step `{Codec} (ps : paths) (s : Disk.step) : step :=
  match s with
  | Disk.Continue l w => Continue l (view ps w)
  | Disk.Stop o => Stop (view_outcome ps o)
  end.

(** The saves of the state file and of the output file do not touch the
    other file: the two paths differ, and the temporary file of neither
    is the other. *)
Definition independent (ps : paths) : Prop :=
  state_path ps ≠ output_path ps ∧
  with_suffix_tmp (state_path ps) ≠ output_path ps ∧
  with_suffix_tmp (output_path ps) ≠ state_path ps.

(** The disk holds the state [st] in the state file and the saved
    registry in the output file. *)
Definition persisted (ps : paths) (st : gmap string kw_state) (registry : gset string)
    (d : gmap string file) : Prop :=
  d !! state_path ps = Some (StateFile st) ∧
  d !! output_path ps = Some (TextFile (save_known_channels registry)).

(** The events of the attempts that met a transport error and were tried
    again, in the order they happen: each request is followed by the
    pause. *)
Fixpoint failed_attempts (params : request) (delay : Q) (errs : list string) : list event :=
  match errs with
  | [] => []
  | info :: rest =>
      EvGet params (Some (NetError info)) :: EvSleep delay :: failed_attempts params delay rest
  end.

(** ** Sample inputs *)

(** A formatter for the samples, none of which holds a channel id that is
    not a string. *)
Definition no_formatter : Formatter := λ _, "".

(** A search result item of a channel. *)
Definition sample_item (channel_id : string) : json :=
  JObj {[ "snippet" := JObj {[ "channelId" := JStr channel_id ]} ]}.

(** A page of results, with its next page token if it has one. *)
Definition sample_page (channel_ids : list string) (next : option string) : json :=
  JObj (<["items" := JArr (sample_item <$> channel_ids)]>
          (match next with
           | Some token => {[ "nextPageToken" := JStr token ]}
           | None => ∅
           end)).

(** A quota payload as the API sends it. *)
Definition quota_payload (reason : string) : json :=
  JObj {[ "error" := JObj {[ "errors" := JArr [JObj {[ "reason" := JStr reason ]}] ]} ]}.

Definition ok_reply (data : json) : net_event :=
  Reply {| status_code := 200; body := Some data |}.

Definition quota_reply : net_event :=
  Reply {| status_code := 403; body := Some (quota_payload "quotaExceeded") |}.

(** Three keys, two keywords: the first keyword exhausts the first two
    keys and completes with the third; the second keyword exhausts the
    first key and is served by the second. *)
Definition three_keys : config :=
  {| api_keys := ["k0"; "k1"; "k2"]; keywords := ["a"; "b"];
     max_results_per_keyword := 50 |}.

Definition three_keys_scripts : list (list net_event) :=
  [[quota_reply]; [quota_reply]; [ok_reply (sample_page ["UCa"] None)];
   [quota_reply]; [ok_reply (sample_page ["UCb"] None)]].

(** The world of a first run, after [setdefault] for the keyword. *)
Definition fresh_world (keyword : string) : world :=
  {| state := {[ keyword := new_kw_state ]}; known_channels := ∅;
     state_file := None; output_file := None; trace := [] |}.

Definition first_locals (first_key : string) : locals :=
  {| current_key_index := 0; api_key := first_key; exhausted_keys := ∅ |}.

(** One key, one keyword. *)
Definition one_key : config :=
  {| api_keys := ["k0"]; keywords := ["a"]; max_results_per_keyword := 50 |}.

(** The configuration file of [one_key]. *)
Definition one_key_json : gmap string json :=
  {[ "api_keys" := JArr [JStr "k0"]; "keywords" := JArr [JStr "a"];
     "max_results_per_keyword" := JInt 50;
     "state_file" := JStr "state.json"; "output_file" := JStr "channels.txt" ]}.

(** A state file in which the keyword of [one_key] is completed. *)
Definition done_state : gmap string kw_state :=
  {[ "a" := {| last_page_token := JNull; fetched_count := 7; completed := true |} ]}.

(** A quota payload in which a second entry has a list as its reason. *)
Definition mixed_reasons_payload : json :=
  JObj {[ "error" := JObj {[ "errors" :=
    JArr [JObj {[ "reason" := JStr "quotaExceeded" ]};
          JObj {[ "reason" := JArr [] ]}] ]} ]}.


(** A codec for the samples, none of which reads a file as the other
    kind. *)
Definition no_codec : Codec := {| json_dump := λ _, ""; json_load := λ _, ∅ |}.

(** Two paths whose saves do not touch each other. *)
Definition sample_paths : paths :=
  {| state_path := "state.json"; output_path := "channels.txt" |}.

(** Two paths that collide: the temporary file of the output file,
    ["h.tmp"], is the state file. *)
Definition colliding_paths : paths :=
  {| state_path := "h.tmp"; output_path := "h.txt" |}.

(** A state in which the keyword of [one_key] has counted seven items. *)
Definition seven_state : gmap string kw_state :=
  {[ "a" := {| last_page_token := JStr "T"; fetched_count := 7; completed := false |} ]}.

(** A world on disk at the start of a loop. *)
Definition disk_world (st : gmap string kw_state) (d : gmap string file) : Disk.world :=
  {| Disk.state := st; Disk.known_channels := ∅; Disk.files := d; Disk.trace := [] |}.

(** * Properties *)


(** ** Credential rotation *)

Section rotator.
Implicit Types (keys : list string) (exhausted : gset Z).

Lemma py_index_in_range {A} (l : list A) (i : Z) :
  0 ≤ i < Z.of_nat (length l) →
  ∃ x, l !! Z.to_nat i = Some x ∧ py_index l i = Ok x.
Proof.
  intros Hi. unfold py_index.
  destruct (Z.ltb_spec i 0); [lia|].
  destruct (Z.leb_spec 0 i); [|lia].
  destruct (Z.ltb_spec i (Z.of_nat (length l))); [|lia]. simpl.
  destruct (lookup_lt_is_Some_2 l (Z.to_nat i)) as [x Hx]; [lia|].
  exists x. by rewrite Hx.
Qed.

Lemma py_range_lookup (a b : Z) (k : nat) :
  (k < Z.to_nat (b - a))%nat → py_range a b !! k = Some (a + Z.of_nat k).
Proof.
  intros Hk. unfold py_range. rewrite list_lookup_fmap.
  rewrite lookup_seq_lt by done. done.
Qed.

Lemma py_range_length (a b : Z) : length (py_range a b) = Z.to_nat (b - a).
Proof. unfold py_range. by rewrite length_map, length_seq. Qed.

Lemma elem_of_py_range (a b x : Z) : x ∈ py_range a b ↔ a ≤ x < b.
Proof.
  unfold py_range. rewrite list_elem_of_fmap. split.
  - intros (k & -> & Hk). apply elem_of_seq in Hk. lia.
  - intros Hx. exists (Z.to_nat (x - a)). split; [lia|]. apply elem_of_seq. lia.
Qed.

(** The scan stops at the first offset whose index is not exhausted. *)
Lemma scan_keys_Some keys exhausted cur total offsets idx k :
  0 < total → Z.of_nat (length keys) = total →
  scan_keys keys exhausted cur total offsets = Ok (Some (idx, k)) ↔
  ∃ n offset, offsets !! n = Some offset ∧
    idx = ((cur + offset) `mod` total) ∧ (idx ∉ exhausted) ∧
    (∀ m o, (m < n)%nat → offsets !! m = Some o → (cur + o) `mod` total ∈ exhausted) ∧
    keys !! Z.to_nat idx = Some k.
Proof.
  intros Hpos Hlen. induction offsets as [|o os IH]; simpl.
  - split; [done|]. intros (n & offset & Hn & _). by destruct n.
  - destruct (decide _) as [Hfree|Hused].
    + destruct (py_index_in_range keys ((cur + o) `mod` total)) as (x & Hx & ->).
      { rewrite Hlen. by apply Z.mod_pos_bound. }
      simpl. split.
      * intros [= <- <-]. exists 0%nat, o. split_and!; try done. intros; lia.
      * intros (n & offset & Hn & -> & Hfree' & Hbefore & Hk).
        destruct n as [|n].
        -- simpl in Hn. injection Hn as <-. congruence.
        -- exfalso. apply Hfree. apply (Hbefore 0%nat o); [lia|done].
    + rewrite IH. split.
      * intros (n & offset & Hn & -> & Hfree' & Hbefore & Hk).
        exists (S n), offset. split_and!; try done.
        intros [|m] o' Hm Ho'; simpl in Ho'.
        -- injection Ho' as <-. by apply dec_stable.
        -- apply (Hbefore m); [lia|done].
      * intros (n & offset & Hn & -> & Hfree' & Hbefore & Hk).
        destruct n as [|n].
        -- simpl in Hn. injection Hn as <-. by apply dec_stable in Hused.
        -- exists n, offset. split_and!; try done.
           intros m o' Hm Ho'. apply (Hbefore (S m)); [lia|done].
Qed.

Lemma scan_keys_None keys exhausted cur total offsets :
  0 < total → Z.of_nat (length keys) = total →
  scan_keys keys exhausted cur total offsets = Ok None ↔
  ∀ o, o ∈ offsets → (cur + o) `mod` total ∈ exhausted.
Proof.
  intros Hpos Hlen. induction offsets as [|o os IH]; simpl.
  - split; [|done]. intros _ o Ho. by apply elem_of_nil in Ho.
  - destruct (decide _) as [Hfree|Hused].
    + destruct (py_index_in_range keys ((cur + o) `mod` total)) as (x & Hx & ->).
      { rewrite Hlen. by apply Z.mod_pos_bound. }
      simpl. split; [done|]. intros Hall. exfalso. apply Hfree, Hall. left.
    + rewrite IH. split.
      * intros Hall o' [->|Ho']%elem_of_cons; [by apply dec_stable|by apply Hall].
      * intros Hall o' Ho'. apply Hall. by right.
Qed.

Lemma scan_keys_total keys exhausted cur total offsets :
  0 < total → Z.of_nat (length keys) = total →
  ∃ r, scan_keys keys exhausted cur total offsets = Ok r.
Proof.
  intros Hpos Hlen. induction offsets as [|o os IH]; simpl; [by eexists|].
  destruct (decide _); [|done].
  destruct (py_index_in_range keys ((cur + o) `mod` total)) as (x & Hx & ->).
  { rewrite Hlen. by apply Z.mod_pos_bound. }
  by eexists.
Qed.

(** C2. For a non-empty key list of size N, any exhausted set and any
    current index, [get_next_api_key] returns the first index outside the
    exhausted set met by scanning the offsets 1..N from the current index,
    wrapping modulo N, paired with the key at that index; it returns [None]
    exactly when the exhausted set holds all N indices; it never raises. *)
Theorem get_next_api_key_round_robin keys exhausted current_index :
  keys ≠ [] →
  (∀ idx k,
     get_next_api_key keys exhausted current_index = Ok (Some (idx, k)) ↔
     ∃ offset, 1 ≤ offset ≤ Z.of_nat (length keys) ∧
       idx = ((current_index + offset) `mod` Z.of_nat (length keys)) ∧
       (idx ∉ exhausted) ∧
       (∀ o, 1 ≤ o < offset →
          (current_index + o) `mod` Z.of_nat (length keys) ∈ exhausted) ∧
       keys !! Z.to_nat idx = Some k) ∧
  (get_next_api_key keys exhausted current_index = Ok None ↔
     ∀ i, 0 ≤ i < Z.of_nat (length keys) → i ∈ exhausted) ∧
  (∃ r, get_next_api_key keys exhausted current_index = Ok r).
Proof.
  intros Hne. set (N := Z.of_nat (length keys)).
  assert (0 < N) as HN by (destruct keys; [done|simpl in *; lia]).
  unfold get_next_api_key. fold N. split_and!.
  - intros idx k. rewrite scan_keys_Some by done. split.
    + intros (n & offset & Hn & -> & Hfree & Hbefore & Hk).
      pose proof (lookup_lt_Some _ _ _ Hn) as Hlt. rewrite py_range_length in Hlt.
      rewrite py_range_lookup in Hn by done. injection Hn as <-.
      exists (1 + Z.of_nat n). split_and!; try done; try lia.
      intros o Ho. apply (Hbefore (Z.to_nat (o - 1)) o); [lia|].
      rewrite py_range_lookup by lia. f_equal. lia.
    + intros (offset & Hoff & -> & Hfree & Hbefore & Hk).
      exists (Z.to_nat (offset - 1)), offset. split_and!; try done.
      * rewrite py_range_lookup by lia. f_equal. lia.
      * intros m o Hm Ho. pose proof (lookup_lt_Some _ _ _ Ho) as Hlt.
        rewrite py_range_length in Hlt. rewrite py_range_lookup in Ho by done.
        injection Ho as <-. apply Hbefore. lia.
  - rewrite scan_keys_None by done. split.
    + intros Hall i Hi.
      specialize (Hall ((i - current_index - 1) `mod` N + 1)).
      replace ((current_index + ((i - current_index - 1) `mod` N + 1)) `mod` N)
        with i in Hall.
      * apply Hall. apply elem_of_py_range.
        pose proof (Z.mod_pos_bound (i - current_index - 1) N HN). lia.
      * rewrite Z.add_assoc, (Z.add_comm current_index), <- Z.add_assoc.
        rewrite Zplus_mod_idemp_l.
        replace (i - current_index - 1 + (current_index + 1)) with i by lia.
        by rewrite Z.mod_small.
    + intros Hall o _. apply Hall. by apply Z.mod_pos_bound.
  - by apply scan_keys_total.
Qed.
End rotator.

Lemma get_next_api_key_round_robin_witness :
  get_next_api_key ["k0"; "k1"; "k2"] {[0; 1; 2]} 1 = Ok None.
Proof.
  apply (get_next_api_key_round_robin ["k0"; "k1"; "k2"] {[0; 1; 2]} 1).
  - discriminate.
  - simpl. intros i Hi.
    assert (i = 0 ∨ i = 1 ∨ i = 2) as [->|[->| ->]] by lia; set_solver.
Defined.

(** ** Quota classification *)

Section quota.
Implicit Types (j v : json) (fields : gmap string json).

Lemma existsb_is_str (text : string) (reasons : list json) :
  existsb (is_str text) reasons = true ↔ JStr text ∈ reasons.
Proof.
  rewrite existsb_exists. split.
  - intros (v & Hin & Hv). apply list_elem_of_In in Hin.
    destruct v; try done. simpl in Hv. apply String.eqb_eq in Hv. by subst.
  - intros Hin. exists (JStr text). split; [by apply list_elem_of_In|].
    simpl. apply String.eqb_refl.
Qed.

(** The reasons collected are those of the dictionaries of the list. *)
Lemma collect_reasons_elem (errors reasons : list json) v :
  collect_reasons errors = Ok reasons →
  v ∈ reasons ↔ ∃ entry, JObj entry ∈ errors ∧ v = default JNull (entry !! "reason").
Proof.
  revert reasons. induction errors as [|item rest IH]; intros reasons; simpl.
  - intros [= <-]. split; [by intros ?%elem_of_nil|].
    by intros (? & ?%elem_of_nil & _).
  - destruct item as [| | | | |items|entry]; simpl;
      try (intros Hrest; rewrite (IH _ Hrest); split;
           [intros (e & He & ->); exists e; split; [by right|done]
           |intros (e & [?|He]%elem_of_cons & ->); [done|by exists e]]).
    destruct (hashable _) eqn:Hhash; [|done].
    destruct (collect_reasons rest) as [rs|] eqn:Hrest; [|done]; simpl.
    intros [= <-]. rewrite elem_of_cons, (IH rs) by done. split.
    + intros [->|(e & He & ->)]; [exists entry; split; [left|done]|].
      exists e. split; [by right|done].
    + intros (e & [[= ->]|He]%elem_of_cons & ->); [by left|].
      right. by exists e.
Qed.

Lemma collect_reasons_returns (errors : list json) :
  (∀ entry r, JObj entry ∈ errors → entry !! "reason" = Some r → hashable r = true) →
  ∃ reasons, collect_reasons errors = Ok reasons.
Proof.
  induction errors as [|item rest IH]; intros Hhash; simpl; [by eexists|].
  destruct IH as [rs Hrs].
  { intros entry r Hin. apply Hhash. by right. }
  destruct item as [| | | | |items|entry]; simpl; try by eexists.
  assert (hashable (default JNull (entry !! "reason")) = true) as ->.
  { destruct (entry !! "reason") as [r|] eqn:Hr; [|done]. apply (Hhash entry); [left|done]. }
  rewrite Hrs. by eexists.
Qed.

(** Keys and characters are strings: iterating over a dictionary or a
    string meets no dictionary. *)
Lemma collect_reasons_strings (texts : list string) :
  collect_reasons (JStr <$> texts) = Ok [].
Proof. induction texts as [|t ts IH]; [done|]. simpl. exact IH. Qed.

Lemma quota_reason_found (reasons : list json) :
  existsb (is_str "quotaExceeded") reasons
    || existsb (is_str "dailyLimitExceeded") reasons = true ↔
  ∃ r, JStr r ∈ reasons ∧ quota_reason r.
Proof.
  rewrite orb_true_iff, !existsb_is_str. unfold quota_reason. split.
  - intros [?|?]; eexists; eauto.
  - intros (r & Hr & [->| ->]); auto.
Qed.

Lemma handle_quota_error_returns j b :
  handle_quota_error j = Ok b → (b = true ↔ has_quota_reason j).
Proof.
  unfold handle_quota_error.
  destruct (truthy j) eqn:Htruthy; simpl.
  2:{ intros [= <-]. split; [done|].
      intros (fields & error & errors & entry & r & -> & Herr & _).
      simpl in Htruthy. apply negb_false_iff, bool_decide_eq_true in Htruthy.
      by rewrite Htruthy in Herr. }
  destruct j as [| | | | | |fields]; try done. simpl.
  destruct (default (JObj ∅) (fields !! "error")) as [| | | | | |error] eqn:Herror; try done.
  simpl.
  destruct (default (JArr []) (error !! "errors")) as [| | | |text|errors|keys] eqn:Herrors;
    try done; simpl.
  - (* a string: its characters *)
    replace ((λ c, JStr (String c "")) <$> list_ascii_of_string text)
      with (JStr <$> ((λ c, String c "") <$> list_ascii_of_string text))
      by (by rewrite <- list_fmap_compose).
    rewrite collect_reasons_strings. simpl. intros [= <-]. split; [done|].
    intros (fields' & error' & errors' & entry & r & [= <-] & Herr & Herrs & _).
    rewrite Herr in Herror. simpl in Herror. injection Herror as ->.
    rewrite Herrs in Herrors. done.
  - (* a list *)
    destruct (collect_reasons errors) as [reasons|] eqn:Hreasons; [|done]. simpl.
    intros Hb.
    assert (b = (existsb (is_str "quotaExceeded") reasons
                 || existsb (is_str "dailyLimitExceeded") reasons)) as ->.
    { by destruct (_ || _); injection Hb. }
    rewrite quota_reason_found. split.
    + intros (r & Hr & Hq).
      apply (collect_reasons_elem _ _ _ Hreasons) in Hr as (entry & Hentry & Hreason).
      destruct (fields !! "error") as [e|] eqn:He; simpl in Herror.
      2:{ injection Herror as <-. rewrite lookup_empty in Herrors. simpl in Herrors.
          injection Herrors as <-. by apply elem_of_nil in Hentry. }
      subst e.
      destruct (error !! "errors") as [es|] eqn:Hes; simpl in Herrors.
      2:{ injection Herrors as <-. by apply elem_of_nil in Hentry. }
      subst es.
      destruct (entry !! "reason") as [v|] eqn:Hv; simpl in Hreason; [|done]. subst v.
      by exists fields, error, errors, entry, r.
    + intros (fields' & error' & errors' & entry & r & [= <-] & Herr & Herrs & Hentry & Hr & Hq).
      rewrite Herr in Herror. simpl in Herror. injection Herror as ->.
      rewrite Herrs in Herrors. simpl in Herrors. injection Herrors as ->.
      exists r. split; [|done]. apply (collect_reasons_elem _ _ _ Hreasons).
      exists entry. by rewrite Hr.
  - (* a dictionary: its keys *)
    intros Hb. rewrite collect_reasons_strings in Hb. revert Hb. simpl. intros [= <-]. split; [done|].
    intros (fields' & error' & errors' & entry & r & [= <-] & Herr & Herrs & _).
    rewrite Herr in Herror. simpl in Herror. injection Herror as ->.
    rewrite Herrs in Herrors. done.
Qed.

Lemma handle_quota_error_scalar j :
  scalar_reasons j → has_quota_reason j → handle_quota_error j = Ok true.
Proof.
  intros Hscalar Hq.
  assert (∃ b, handle_quota_error j = Ok b) as [b Hb].
  { destruct Hq as (fields & error & errors & entry & r & -> & Herr & Herrs & Hentry & Hr & _).
    unfold handle_quota_error.
    assert (truthy (JObj fields) = true) as ->.
    { simpl. apply negb_true_iff, bool_decide_eq_false. intros ->. done. }
    simpl. rewrite Herr. simpl. rewrite Herrs. simpl.
    destruct (collect_reasons_returns errors) as [rs ->].
    { intros e v He Hv. by apply (Hscalar fields error errors e v). }
    simpl. destruct (_ || _); by eexists. }
  rewrite Hb. f_equal. by apply (handle_quota_error_returns j b).
Qed.
End quota.

Lemma quota_exhausted_returns (r : response) (b : bool) :
  quota_exhausted r = Ok b →
  (b = true ↔ status_code r = 403 ∧ ∃ j, body r = Some j ∧ has_quota_reason j).
Proof.
  unfold quota_exhausted. destruct (Z.eqb_spec (status_code r) 403) as [Hs|Hs].
  - intros Hb. rewrite (handle_quota_error_returns _ _ Hb).
    destruct (body r) as [j|]; simpl.
    + split; [by eauto|]. by intros (_ & j' & [= <-] & Hq).
    + split; [|by intros (_ & j' & [=] & _)].
      intros (fields & ? & ? & ? & ? & [= <-] & Herr & _). done.
  - intros [= <-]. split; [done|]. by intros [? _].
Qed.

(** Outside the shape of the API's payloads the call raises: an ["error"]
    that is not a dictionary has no [get], and a list as reason cannot go
    into the set. *)
Example handle_quota_error_error_not_object :
  handle_quota_error (JObj {[ "error" := JStr "forbidden" ]}) = Raise AttributeError.
Proof. reflexivity. Qed.

Example handle_quota_error_unhashable_reason :
  handle_quota_error
    (JObj {[ "error" := JObj {[ "errors" :=
       JArr [JObj {[ "reason" := JStr "quotaExceeded" ]};
             JObj {[ "reason" := JArr [] ]}] ]} ]})
  = Raise TypeError.
Proof. reflexivity. Qed.

Lemma handle_quota_error_iff (j : json) :
  scalar_reasons j → (handle_quota_error j = Ok true ↔ has_quota_reason j).
Proof.
  intros Hscalar. split.
  - intros Hb. by apply (handle_quota_error_returns j true).
  - by apply handle_quota_error_scalar.
Qed.

Lemma quota_exhausted_iff (r : response) :
  (∀ j, body r = Some j → scalar_reasons j) →
  (quota_exhausted r = Ok true ↔
   status_code r = 403 ∧ ∃ j, body r = Some j ∧ has_quota_reason j).
Proof.
  intros Hscalar. split.
  - intros Hb. by apply (quota_exhausted_returns r true).
  - intros (Hstatus & j & Hbody & Hq). unfold quota_exhausted.
    rewrite Hstatus, Hbody. simpl. apply handle_quota_error_scalar; [|done].
    by apply Hscalar.
Qed.

(** C3 (amended). On a body whose reasons are scalars, as the API sends
    them, a failed fetch is classified as a quota exhaustion exactly when
    its status is 403 and its parsed body carries, under
    [error.errors[*].reason], the reason "quotaExceeded" or
    "dailyLimitExceeded", and [handle_quota_error] returns true exactly
    when such a reason is present among the dictionaries of that list. On
    any body, whenever the test returns, it returns true exactly in that
    case. *)
Theorem quota_classification :
  (∀ r, (∀ j, body r = Some j → scalar_reasons j) →
     (quota_exhausted r = Ok true ↔
      status_code r = 403 ∧ ∃ j, body r = Some j ∧ has_quota_reason j)) ∧
  (∀ j, scalar_reasons j → (handle_quota_error j = Ok true ↔ has_quota_reason j)) ∧
  (∀ r b, quota_exhausted r = Ok b →
     (b = true ↔ status_code r = 403 ∧ ∃ j, body r = Some j ∧ has_quota_reason j)) ∧
  (∀ j b, handle_quota_error j = Ok b → (b = true ↔ has_quota_reason j)).
Proof.
  split_and!.
  - apply quota_exhausted_iff.
  - apply handle_quota_error_iff.
  - apply quota_exhausted_returns.
  - apply handle_quota_error_returns.
Qed.

Lemma quota_classification_witness :
  quota_exhausted {| status_code := 403;
                     body := Some (quota_payload "dailyLimitExceeded") |} = Ok true
  ∧ has_quota_reason (quota_payload "dailyLimitExceeded").
Proof.
  split; [reflexivity|].
  apply (proj2 (proj2 (proj2 quota_classification))
           (quota_payload "dailyLimitExceeded") true);
    reflexivity.
Defined.

(** C3 as stated fails: beside an entry with the reason "quotaExceeded"
    the list holds an entry whose reason is a list, which cannot go into
    the set of reasons, so the test raises [TypeError] and the response is
    not classified, although its status is 403 and its body carries the
    reason. *)
Lemma quota_classification_counterexample :
  has_quota_reason mixed_reasons_payload ∧
  handle_quota_error mixed_reasons_payload = Raise TypeError ∧
  quota_exhausted {| status_code := 403; body := Some mixed_reasons_payload |}
  = Raise TypeError ∧
  ¬ (handle_quota_error mixed_reasons_payload = Ok true ↔
     has_quota_reason mixed_reasons_payload) ∧
  ¬ (quota_exhausted {| status_code := 403; body := Some mixed_reasons_payload |} = Ok true ↔
     status_code {| status_code := 403; body := Some mixed_reasons_payload |} = 403 ∧
     ∃ j, body {| status_code := 403; body := Some mixed_reasons_payload |} = Some j ∧
          has_quota_reason j).
Proof.
  assert (has_quota_reason mixed_reasons_payload) as Hreason.
  { exists {[ "error" := JObj {[ "errors" :=
               JArr [JObj {[ "reason" := JStr "quotaExceeded" ]};
                     JObj {[ "reason" := JArr [] ]}] ]} ]},
      {[ "errors" := JArr [JObj {[ "reason" := JStr "quotaExceeded" ]};
                           JObj {[ "reason" := JArr [] ]}] ]},
      [JObj {[ "reason" := JStr "quotaExceeded" ]}; JObj {[ "reason" := JArr [] ]}],
      {[ "reason" := JStr "quotaExceeded" ]}, "quotaExceeded".
    split_and!; [reflexivity|by vm_compute|by vm_compute|left|by vm_compute|by left]. }
  assert (handle_quota_error mixed_reasons_payload = Raise TypeError) as Hraise
    by (by vm_compute).
  assert (quota_exhausted {| status_code := 403; body := Some mixed_reasons_payload |}
          = Raise TypeError) as Hraise' by (by vm_compute).
  split_and!; [exact Hreason|exact Hraise|exact Hraise'| |].
  - intros [_ Hback]. specialize (Hback Hreason).
    pose proof (eq_trans (eq_sym Hraise) Hback) as Habsurd. discriminate Habsurd.
  - intros [_ Hback].
    assert (status_code {| status_code := 403; body := Some mixed_reasons_payload |} = 403 ∧
            ∃ j, body {| status_code := 403; body := Some mixed_reasons_payload |} = Some j ∧
                 has_quota_reason j) as Hshape
      by (split; [reflexivity|exists mixed_reasons_payload; split; [reflexivity|exact Hreason]]).
    pose proof (eq_trans (eq_sym Hraise') (Hback Hshape)) as Habsurd. discriminate Habsurd.
Qed.

(** ** Transport retries *)

Section retries.
Implicit Types (params : request) (script : list net_event).

(** A reply after transport errors that the budget allows: the failed
    attempts, each followed by its pause, then the answered request. *)
Lemma request_loop_reply params retries delay attempt (errs : list string) r rest :
  errs = [] ∨ attempt + Z.of_nat (length errs) < retries →
  request_loop params retries delay attempt ((NetError <$> errs) ++ Reply r :: rest)
  = (Returns r, failed_attempts params delay errs ++ [EvGet params (Some (Reply r))]).
Proof.
  revert attempt. induction errs as [|info errs IH]; intros attempt Herrs; [done|].
  destruct Herrs as [?|Hlt]; [done|]. simpl in Hlt. simpl.
  destruct (Z.geb_spec (attempt + 1) retries) as [|_]; [lia|].
  rewrite IH; [done|]. destruct errs; [by left|right; simpl in *; lia].
Qed.

(** The transport error that uses up the budget is raised, with no pause
    after it. *)
Lemma request_loop_raise params retries delay attempt (errs : list string) info rest :
  errs = [] ∨ attempt + Z.of_nat (length errs) < retries →
  retries ≤ attempt + Z.of_nat (length errs) + 1 →
  request_loop params retries delay attempt ((NetError <$> errs) ++ NetError info :: rest)
  = (Raises (RequestException info),
     failed_attempts params delay errs ++ [EvGet params (Some (NetError info))]).
Proof.
  revert attempt. induction errs as [|e errs IH]; intros attempt Herrs Hlast; simpl.
  - simpl in Hlast. destruct (Z.geb_spec (attempt + 1) retries); [done|lia].
  - destruct Herrs as [?|Hlt]; [done|]. simpl in Hlt, Hlast.
    destruct (Z.geb_spec (attempt + 1) retries) as [|_]; [lia|].
    rewrite IH; [done| |lia]. destruct errs; [by left|right; simpl in *; lia].
Qed.

(** A script that runs out within the budget leaves the request
    pending. *)
Lemma request_loop_wait params retries delay attempt (errs : list string) :
  errs = [] ∨ attempt + Z.of_nat (length errs) < retries →
  request_loop params retries delay attempt (NetError <$> errs)
  = (Waits, failed_attempts params delay errs ++ [EvGet params None]).
Proof.
  revert attempt. induction errs as [|e errs IH]; intros attempt Herrs; [done|].
  destruct Herrs as [?|Hlt]; [done|]. simpl in Hlt. simpl.
  destruct (Z.geb_spec (attempt + 1) retries) as [|_]; [lia|].
  rewrite IH; [done|]. destruct errs; [by left|right; simpl in *; lia].
Qed.

(** Every script starts with transport errors up to its first reply, if
    it has one. *)
Lemma script_shape script :
  (∃ errs r rest, script = (NetError <$> errs) ++ Reply r :: rest) ∨
  (∃ errs, script = NetError <$> errs).
Proof.
  induction script as [|[info|r] script IH].
  - right. by exists [].
  - destruct IH as [(errs & r & rest & ->)|(errs & ->)].
    + left. by exists (info :: errs), r, rest.
    + right. by exists (info :: errs).
  - left. by exists [], r, script.
Qed.

(** C4. On transport failures [request_with_retries] tries the same
    request again, at most 3 attempts in all, and sleeps 1.5 between two
    attempts: the effects of a call are, in this order, a failed request,
    the pause of 1.5, the next request, and so on. A response, whatever
    its status, is returned at once, without another attempt and without a
    pause after it; when the third attempt fails as well, that failure is
    raised to the caller, after three requests with a pause of 1.5 after
    the first and after the second and none after the third. *)
Theorem request_with_retries_policy params :
  (∀ (errs : list string) resp rest,
     (length errs < 3)%nat →
     request_with_retries params ((NetError <$> errs) ++ Reply resp :: rest)
     = (Returns resp,
        failed_attempts params (3 # 2) errs ++ [EvGet params (Some (Reply resp))])) ∧
  (∀ e1 e2 e3 rest,
     request_with_retries params (NetError e1 :: NetError e2 :: NetError e3 :: rest)
     = (Raises (RequestException e3),
        [EvGet params (Some (NetError e1)); EvSleep (3 # 2);
         EvGet params (Some (NetError e2)); EvSleep (3 # 2);
         EvGet params (Some (NetError e3))])) ∧
  (∀ script, (length (gets (request_with_retries params script).2) ≤ 3)%nat) ∧
  (∀ script, (3 ≤ length script)%nat → (request_with_retries params script).1 ≠ Waits).
Proof.
  split_and!.
  - intros errs resp rest Hlen. unfold request_with_retries.
    apply request_loop_reply. destruct errs; [by left|right]. unfold default_retries.
    simpl in *. lia.
  - done.
  - intros script. destruct script as [|[?|?] [|[?|?] [|[?|?] ?]]]; simpl; lia.
  - intros script. destruct script as [|[?|?] [|[?|?] [|[?|?] ?]]]; simpl; try done; lia.
Qed.

Lemma request_with_retries_policy_witness :
  request_with_retries
    {| part := "snippet"; type_ := "video"; q := "bitcoin"; maxResults := 50;
       key := "k0"; pageToken := None |}
    [NetError "timeout"; Reply {| status_code := 500; body := None |}]
  = (Returns {| status_code := 500; body := None |},
     [EvGet {| part := "snippet"; type_ := "video"; q := "bitcoin"; maxResults := 50;
               key := "k0"; pageToken := None |} (Some (NetError "timeout"));
      EvSleep (3 # 2);
      EvGet {| part := "snippet"; type_ := "video"; q := "bitcoin"; maxResults := 50;
               key := "k0"; pageToken := None |}
        (Some (Reply {| status_code := 500; body := None |}))]).
Proof.
  apply (proj1 (request_with_retries_policy
      {| part := "snippet"; type_ := "video"; q := "bitcoin"; maxResults := 50;
         key := "k0"; pageToken := None |})
    ["timeout"] {| status_code := 500; body := None |} []).
  simpl. lia.
Defined.
End retries.

(** ** Channel registry file *)

Section registry.
Implicit Types (s url line text : string) (c : ascii) (channels : gset string).

Lemma lstrip_length s : (String.length (lstrip s) ≤ String.length s)%nat.
Proof. induction s as [|c s IH]; simpl; [lia|]. destruct (is_space c); simpl; lia. Qed.

Lemma rstrip_length s : (String.length (rstrip s) ≤ String.length s)%nat.
Proof.
  induction s as [|c s IH]; simpl; [lia|].
  destruct (rstrip s); [destruct (is_space c)|]; simpl in *; lia.
Qed.

(** A string that [strip] leaves alone is left alone by both halves. *)
Lemma strip_fixed s : strip s = s → lstrip s = s ∧ rstrip s = s.
Proof.
  unfold strip. intros Hs.
  assert (lstrip s = s) as Hl.
  { destruct s as [|c s]; [done|]. simpl in *. destruct (is_space c); [|done].
    exfalso. pose proof (rstrip_length (lstrip s)). pose proof (lstrip_length s).
    rewrite Hs in *. simpl in *. lia. }
  split; [done|]. by rewrite Hl in Hs.
Qed.

Lemma lstrip_app s text : s ≠ "" → lstrip s = s → lstrip (s +:+ text) = s +:+ text.
Proof.
  destruct s as [|c s]; [done|]. intros _. simpl. destruct (is_space c); [|done].
  intros Hs. exfalso. pose proof (lstrip_length s). rewrite Hs in *. simpl in *. lia.
Qed.

Lemma rstrip_app_space s c : is_space c = true → rstrip (s +:+ String c "") = rstrip s.
Proof.
  intros Hc. induction s as [|a s IH]; simpl; [by rewrite Hc|]. by rewrite IH.
Qed.

Lemma strip_line url :
  url ≠ "" → strip url = url → strip (url +:+ String LF "") = url.
Proof.
  intros Hne [Hl Hr]%strip_fixed. unfold strip.
  rewrite lstrip_app by done. by rewrite rstrip_app_space.
Qed.

(** Reading back a line that holds no line end. *)
Lemma read_lines_line url text :
  LF ∉ chars url → CR ∉ chars url →
  read_lines ((url +:+ String LF "") +:+ text) = (url +:+ String LF "") :: read_lines text.
Proof.
  induction url as [|c url IH]; intros HLF HCR; [done|].
  unfold chars in *. simpl in HLF, HCR.
  apply not_elem_of_cons in HLF as [HLF1 HLF2].
  apply not_elem_of_cons in HCR as [HCR1 HCR2].
  change (read_lines (String c ((url +:+ String LF "") +:+ text))
          = String c (url +:+ String LF "") :: read_lines text).
  simpl.
  destruct (Ascii.eqb_spec c LF) as [->|_]; [done|].
  destruct (Ascii.eqb_spec c CR) as [->|_]; [done|].
  unfold chars in IH. by rewrite IH.
Qed.

Lemma read_lines_write_lines (urls : list string) :
  (∀ url, url ∈ urls → (LF ∉ chars url) ∧ (CR ∉ chars url)) →
  read_lines (write_lines urls) = (λ url, url +:+ String LF "") <$> urls.
Proof.
  induction urls as [|url urls IH]; intros Hclean; [done|].
  simpl write_lines. rewrite read_lines_line.
  - rewrite IH; [done|]. intros u Hu. apply Hclean. by right.
  - apply Hclean. left.
  - apply Hclean. left.
Qed.

Lemma add_lines_spec (urls : list string) channels :
  (∀ url, url ∈ urls → url ≠ "" ∧ strip url = url) →
  add_lines ((λ url, url +:+ String LF "") <$> urls) channels
  = list_to_set urls ∪ channels.
Proof.
  revert channels. induction urls as [|url urls IH]; intros channels Hclean; simpl.
  - by rewrite (left_id_L ∅ (∪)).
  - destruct (Hclean url) as [Hne Hstrip]; [left|].
    change (String.append url (String LF "")) with (url +:+ String LF "").
    rewrite strip_line by done.
    destruct (String.eqb_spec url ""); [done|]. simpl.
    rewrite IH by (intros u Hu; apply Hclean; by right).
    set_solver.
Qed.

#[local] Instance str_le_total : Total str_le.
Proof. intros a b. apply String.leb_total. Qed.

Lemma sorted_elem channels url : url ∈ sorted channels ↔ url ∈ channels.
Proof. unfold sorted. by rewrite merge_sort_Permutation, elem_of_elements. Qed.

Lemma sorted_NoDup channels : NoDup (sorted channels).
Proof. unfold sorted. rewrite merge_sort_Permutation. apply NoDup_elements. Qed.

Lemma sorted_Sorted channels : Sorted str_le (sorted channels).
Proof. apply Sorted_merge_sort, _. Qed.

Lemma list_to_set_sorted channels : list_to_set (sorted channels) = channels.
Proof. apply set_eq. intros url. by rewrite elem_of_list_to_set, sorted_elem. Qed.

(** Blank lines add nothing on load. *)
Lemma add_lines_blank (before after : list string) line channels :
  strip line = "" →
  add_lines (before ++ line :: after) channels = add_lines (before ++ after) channels.
Proof.
  intros Hblank. revert channels. induction before as [|l before IH]; intros channels; simpl.
  - by rewrite Hblank.
  - destruct (negb _); apply IH.
Qed.

(** C7 (amended). For every set of channel URLs, each of them non-empty,
    free of white space at both ends and free of line feeds and carriage
    returns, saving the registry and loading it again yields the same set,
    and the written file, read line by line, is the sorted, duplicate-free
    list of the URLs of the set, one per line, each line ended by a line
    feed; blank lines are ignored on load. *)
Theorem registry_round_trip channels :
  (∀ url, url ∈ channels → clean_url url) →
  load_known_channels (Some (save_known_channels channels)) = channels ∧
  (∃ urls,
     save_known_channels channels = write_lines urls ∧
     read_lines (save_known_channels channels) = (λ url, url +:+ String LF "") <$> urls ∧
     Sorted str_le urls ∧ NoDup urls ∧ ∀ url, url ∈ urls ↔ url ∈ channels) ∧
  (∀ before after line known, strip line = "" →
     add_lines (before ++ line :: after) known = add_lines (before ++ after) known).
Proof.
  intros Hclean. split_and!.
  - unfold load_known_channels, save_known_channels.
    rewrite read_lines_write_lines.
    + rewrite add_lines_spec.
      * rewrite list_to_set_sorted. by rewrite (right_id_L ∅ (∪)).
      * intros url Hurl%sorted_elem. destruct (Hclean url Hurl) as (? & ? & _). done.
    + intros url Hurl%sorted_elem. destruct (Hclean url Hurl) as (_ & _ & ? & ?). done.
  - exists (sorted channels). split_and!.
    + done.
    + apply read_lines_write_lines.
      intros url Hurl%sorted_elem. destruct (Hclean url Hurl) as (_ & _ & ? & ?). done.
    + apply sorted_Sorted.
    + apply sorted_NoDup.
    + apply sorted_elem.
  - intros. by apply add_lines_blank.
Qed.

(** C7 as stated fails: a URL that starts with a space is not blank and
    holds no newline, yet it comes back without the space. *)
Lemma registry_round_trip_counterexample :
  (∀ url, url ∈ ({[" a"]} : gset string) → non_blank url ∧ newline_free url) ∧
  load_known_channels (Some (save_known_channels {[" a"]})) ≠ {[" a"]}.
Proof.
  split.
  - intros url ->%elem_of_singleton. split.
    + unfold non_blank. by vm_compute.
    + unfold newline_free, chars. simpl. intros Hin.
      repeat (apply elem_of_cons in Hin as [Hin|Hin]; [by vm_compute in Hin|]).
      by apply elem_of_nil in Hin.
  - assert (load_known_channels (Some (save_known_channels {[" a"]})) = {["a"]}) as ->
      by (by vm_compute).
    intros Heq. assert (" a" ∈ ({["a"]} : gset string)) as Hin by (rewrite Heq; set_solver).
    by apply elem_of_singleton in Hin.
Qed.

Lemma registry_round_trip_witness :
  load_known_channels
    (Some (save_known_channels {["https://www.youtube.com/channel/UCabc"]}))
  = {["https://www.youtube.com/channel/UCabc"]}.
Proof.
  apply (registry_round_trip {["https://www.youtube.com/channel/UCabc"]}).
  intros url ->%elem_of_singleton. split_and!.
  - discriminate.
  - by vm_compute.
  - apply (bool_decide_unpack _). by vm_compute.
  - apply (bool_decide_unpack _). by vm_compute.
Defined.
End registry.

(** ** The search client *)

Section search.
Implicit Types (params : request) (script : list net_event) (r : response).

Lemma request_loop_returns params retries delay attempt script r evs :
  request_loop params retries delay attempt script = (Returns r, evs) →
  ∃ errs rest, script = (NetError <$> errs) ++ Reply r :: rest ∧
    (errs = [] ∨ attempt + Z.of_nat (length errs) < retries).
Proof.
  revert attempt evs. induction script as [|[info|r'] script IH]; intros attempt evs; simpl.
  - done.
  - destruct (Z.geb_spec (attempt + 1) retries) as [|Hlt]; [done|].
    destruct (request_loop _ _ _ _ script) as [res evs'] eqn:Hloop.
    intros [= -> <-]. apply IH in Hloop as (errs & rest & -> & Herrs).
    exists (info :: errs), rest. split; [done|]. right. simpl length.
    destruct Herrs as [->|?]; simpl; lia.
  - intros [= <- <-]. exists [], script. split; [done|by left].
Qed.

Lemma request_with_retries_returns params script r evs :
  request_with_retries params script = (Returns r, evs) → answers script r.
Proof.
  intros (errs & rest & -> & Herrs)%request_loop_returns.
  exists errs, rest. split; [done|]. unfold default_retries in Herrs.
  destruct Herrs as [->|?]; simpl; lia.
Qed.

Lemma request_with_retries_fetch params script r :
  answers script r →
  ∃ evs, request_with_retries params script = (Returns r, evs) ∧ fetch_events params r evs.
Proof.
  intros (errs & rest & -> & Hlen).
  destruct errs as [|e1 [|e2 [|e3 errs]]]; simpl in Hlen; try lia;
    (eexists; split; [reflexivity|]).
  - by exists [].
  - by exists [e1].
  - by exists [e1; e2].
Qed.

Lemma search_returns keyword api_key page_token script data r evs :
  search_videos_for_keyword keyword api_key page_token script = (Returns (data, r), evs) →
  answers script r ∧ data = response_data r ∧
  fetch_events (search_params keyword api_key page_token) r evs.
Proof.
  unfold search_videos_for_keyword. simpl.
  destruct (request_with_retries _ script) as [[r'| |] evs'] eqn:Hreq; try done.
  assert (answers script r') as Hans by by eapply request_with_retries_returns.
  destruct (request_with_retries_fetch (search_params keyword api_key page_token) script r' Hans)
    as (evs'' & Hreq' & Hevs). rewrite Hreq in Hreq'. injection Hreq' as <-.
  unfold response_data.
  destruct (status_code r' =? 200) eqn:Hstatus; simpl.
  - destruct (body r') eqn:Hbody; intros [= <- <- <-]; by rewrite Hstatus, Hbody.
  - intros [= <- <- <-]; by rewrite Hstatus.
Qed.

Lemma search_answers keyword api_key page_token script r :
  answers script r →
  ∃ evs, search_videos_for_keyword keyword api_key page_token script
         = (Returns (response_data r, r), evs) ∧
         fetch_events (search_params keyword api_key page_token) r evs.
Proof.
  intros Hans. unfold search_videos_for_keyword. simpl.
  destruct (request_with_retries_fetch (search_params keyword api_key page_token) script r Hans)
    as (evs & -> & Hevs).
  exists evs. split; [|done]. unfold response_data.
  destruct (status_code r =? 200); simpl; [|done]. by destruct (body r).
Qed.
End search.

(** ** The loop body and its transitions *)

Section transitions.
Context `{Formatter}.
Implicit Types (keyword : string) (keys : list string) (script : list net_event)
  (l : locals) (w : world) (r : response) (s : step).

Lemma handled_spec keyword max_results keys l w r :
  handled keyword max_results keys l w r
    (if is_none (response_data r) then
       match quota_exhausted r with
       | Raise e => Stop (Raised e w)
       | Ok true =>
           let exhausted := {[current_key_index l]} ∪ exhausted_keys l in
           match get_next_api_key keys exhausted (current_key_index l) with
           | Raise e => Stop (Raised e w)
           | Ok None => Stop (Exited 0 (save_channels (save_state w)))
           | Ok (Some (idx, k)) =>
               Continue {| current_key_index := idx; api_key := k;
                           exhausted_keys := exhausted |} w
           end
       | Ok false => stop_keyword w
       end
     else
       match read_page (response_data r) (known_channels w) with
       | Raise e => Stop (Raised e w)
       | Ok (known', fetched, token) =>
           let w1 := record_page keyword known' fetched token w in
           let kw1 := state w1 !!! keyword in
           if (fetched_count kw1 >=? max_results) || negb (truthy (last_page_token kw1))
           then Stop (Returned (mark_completed keyword w1))
           else Continue l (log [EvSleep (1 # 2)] w1)
       end).
Proof.
  destruct (is_none (response_data r)) eqn:Hnone.
  - destruct (quota_exhausted r) as [[|]|e] eqn:Hquota.
    + simpl. destruct (get_next_api_key _ _ _) as [[[idx k]|]|e] eqn:Hnext.
      * by apply H_rotate.
      * by apply H_halt.
      * by apply H_rotator_raises.
    + by apply H_failure.
    + by apply H_classifier_raises.
  - destruct (read_page _ _) as [[[known' fetched] token]|e] eqn:Hpage.
    + cbn zeta. unfold record_page at 1 2. simpl state.
      rewrite !lookup_total_insert_eq. simpl.
      destruct (Z.geb_spec (fetched_count (state w !!! keyword) + fetched) max_results) as [Hge|Hlt];
        simpl.
      * eapply H_last_page; eauto.
      * destruct (truthy token) eqn:Htoken; simpl.
        -- eapply H_next_page; eauto.
        -- eapply H_last_page; eauto.
    + by apply H_page_raises.
Qed.

Lemma loop_body_transition keyword max_results keys script l w :
  transition keyword max_results keys script l w
    (loop_body keyword max_results keys script l w).
Proof.
  unfold loop_body.
  destruct (search_videos_for_keyword _ _ _ script) as [[[data r]|e|] evs] eqn:Hsearch.
  - pose proof (search_returns _ _ _ _ _ _ _ Hsearch) as (_ & -> & _).
    eapply T_fetched; [done|]. apply handled_spec.
  - by apply T_transport.
  - by apply T_waits.
Qed.

Lemma handled_deterministic keyword max_results keys l w r s1 s2 :
  handled keyword max_results keys l w r s1 →
  handled keyword max_results keys l w r s2 → s1 = s2.
Proof.
  intros H1 H2. destruct H1; inversion H2; simplify_eq; try done;
    repeat match goal with
           | Ha : ?x = _, Hb : ?x = _ |- _ => rewrite Ha in Hb; simplify_eq
           end; try done;
    repeat match goal with Hor : _ ∨ _ |- _ => destruct Hor end; (lia || congruence).
Qed.

Lemma transition_deterministic keyword max_results keys script l w s1 s2 :
  transition keyword max_results keys script l w s1 →
  transition keyword max_results keys script l w s2 → s1 = s2.
Proof.
  intros H1 H2. destruct H1; inversion H2; simplify_eq; try done;
    repeat match goal with
           | Ha : ?x = _, Hb : ?x = _ |- _ => rewrite Ha in Hb; simplify_eq
           end; try done.
  eauto using handled_deterministic.
Qed.

Lemma setdefault_lookup_total keyword (st : gmap string kw_state) k :
  setdefault keyword st !!! k = st !!! k.
Proof.
  unfold setdefault. destruct (st !! keyword) as [kw|] eqn:Hkw; [done|].
  destruct (decide (keyword = k)) as [<-|Hne].
  - rewrite lookup_total_insert_eq. by rewrite lookup_total_alt, Hkw.
  - by rewrite lookup_total_insert_ne.
Qed.

Lemma transition_loop_body keyword max_results keys script l w s :
  transition keyword max_results keys script l w s ↔
  loop_body keyword max_results keys script l w = s.
Proof.
  split; [|intros <-; apply loop_body_transition].
  intros Hs. eapply transition_deterministic; [apply loop_body_transition|done].
Qed.
End transitions.

(** ** Completion of a keyword *)

Section completion.
Context `{Formatter}.
Implicit Types (keyword : string) (keys : list string) (script : list net_event)
  (scripts : list (list net_event)) (l : locals) (w : world) (r : response) (s : step).

Lemma response_data_page r :
  is_none (response_data r) = false →
  status_code r = 200 ∧ body r = Some (response_data r).
Proof.
  unfold response_data. destruct (Z.eqb_spec (status_code r) 200); [|done].
  destruct (body r); [done|done].
Qed.

Lemma response_data_200 r data :
  status_code r = 200 → body r = Some data → response_data r = data.
Proof. unfold response_data. intros -> ->. done. Qed.

(** A counted page is what the two page transitions handle. *)
Lemma page_fetched_search keyword l w script fetched token known' :
  page_fetched script w fetched token known' ↔
  ∃ r evs,
    search_videos_for_keyword keyword (api_key l)
      (last_page_token (state w !!! keyword)) script = (Returns (response_data r, r), evs) ∧
    is_none (response_data r) = false ∧
    read_page (response_data r) (known_channels (log evs w)) = Ok (known', fetched, token).
Proof.
  split.
  - intros (r & data & Hans & Hstatus & Hbody & Hnone & Hpage).
    destruct (search_answers keyword (api_key l) (last_page_token (state w !!! keyword))
                script r Hans) as (evs & Hsearch & _).
    exists r, evs. rewrite (response_data_200 r data) in Hsearch |- * by done. done.
  - intros (r & evs & Hsearch & Hnone & Hpage).
    apply search_returns in Hsearch as (Hans & _ & _).
    destruct (response_data_page r Hnone) as [Hstatus Hbody].
    by exists r, (response_data r).
Qed.






(** What [read_page] reads off the body: the items under ["items"], their
    number, and the token under ["nextPageToken"]. *)
Lemma read_page_body data known known' fetched token :
  read_page data known = Ok (known', fetched, token) ↔
  ∃ fields elems,
    data = JObj fields ∧
    py_iter (default (JArr []) (fields !! "items")) = Ok elems ∧
    merge_items elems known = Ok known' ∧
    py_len (default (JArr []) (fields !! "items")) = Ok fetched ∧
    token = default JNull (fields !! "nextPageToken").
Proof.
  unfold read_page. split.
  - destruct data as [| | | | | |fields]; try done. simpl.
    destruct (py_iter _) as [elems|] eqn:Helems; [|done]. simpl.
    destruct (merge_items elems known) as [known''|] eqn:Hmerge; [|done]. simpl.
    destruct (py_len _) as [n|] eqn:Hlen; [|done]. simpl.
    intros [= <- <- <-]. by exists fields, elems.
  - intros (fields & elems & -> & Helems & Hmerge & Hlen & ->). simpl.
    rewrite Helems. simpl. rewrite Hmerge. simpl. by rewrite Hlen.
Qed.


End completion.


(** ** The stored entries are the saved ones *)

Section durable.
Context `{Formatter}.
Implicit Types (keyword : string) (keys : list string) (script : list net_event)
  (scripts : list (list net_event)) (l : locals) (w : world) (r : response) (s : step).

Lemma main_start_durable state_path output_path known tr :
  durable {| state := load_state state_path; known_channels := known;
             state_file := state_path; output_file := output_path; trace := tr |}.
Proof. by intros k. Qed.

Lemma setdefault_durable keyword w :
  durable w → durable (set_state (setdefault keyword (state w)) w).
Proof. intros Hw k. simpl. rewrite setdefault_lookup_total. apply Hw. Qed.

Lemma transition_durable keyword max_results keys script l w s :
  durable w → transition keyword max_results keys script l w s → durable (after s).
Proof.
  intros Hw Hs.
  destruct Hs as [evs Hs|e evs Hs|r evs s Hs Hh]; [done|done|].
  destruct Hh; unfold stop_keyword; try done.
Qed.




End durable.

(** ** Fetch failures *)

Section failures.
Context `{Formatter}.
Implicit Types (keyword : string) (keys : list string) (script : list net_event)
  (scripts : list (list net_event)) (l : locals) (w : world) (r : response) (s : step).

Lemma response_data_failure r :
  status_code r ≠ 200 ∨ body r = None → is_none (response_data r) = true.
Proof.
  unfold response_data. intros [Hstatus| ->].
  - by destruct (Z.eqb_spec (status_code r) 200).
  - by destruct (status_code r =? 200).
Qed.

Lemma quota_exhausted_other_status r :
  status_code r ≠ 403 → quota_exhausted r = Ok false.
Proof. unfold quota_exhausted. by destruct (Z.eqb_spec (status_code r) 403). Qed.

Lemma quota_exhausted_unparseable r :
  body r = None → quota_exhausted r = Ok false.
Proof. unfold quota_exhausted. intros ->. by destruct (status_code r =? 403). Qed.

(** The first event of a fetch is its request. *)
Lemma request_loop_first params retries delay attempt script :
  ∃ a evs, (request_loop params retries delay attempt script).2 = EvGet params a :: evs.
Proof.
  destruct script as [|[info|r] script]; simpl; [by eexists _, _| |by eexists _, _].
  destruct (_ >=? _); [by eexists _, _|].
  destruct (request_loop _ _ _ _ script). by eexists _, _.
Qed.

Lemma search_first keyword key page_token script :
  ∃ a evs, (search_videos_for_keyword keyword key page_token script).2
           = EvGet (search_params keyword key page_token) a :: evs.
Proof.
  unfold search_videos_for_keyword, request_with_retries. simpl.
  destruct (request_loop_first (search_params keyword key page_token)
              default_retries default_delay 0 script) as (a & evs & Hevs).
  destruct (request_loop _ _ _ _ script) as [[r| |] evs']; simpl in *; subst.
  - exists a, evs. destruct (negb _); [done|]. by destruct (body r).
  - by exists a, evs.
  - by exists a, evs.
Qed.

(** A pass only adds to the trace, and what it adds starts with the
    request for the stored cursor under the current key. *)
Lemma loop_body_trace keyword max_results keys script l w :
  ∃ a evs, trace (after (loop_body keyword max_results keys script l w))
           = trace w ++ EvGet (search_params keyword (api_key l)
                                 (cursor_of (state w) keyword)) a :: evs.
Proof.
  destruct (search_first keyword (api_key l) (cursor_of (state w) keyword) script)
    as (a & evs & Hevs).
  pose proof (loop_body_transition keyword max_results keys script l w) as Hs.
  unfold cursor_of in *.
  destruct Hs as [evs' Hs|e evs' Hs|r evs' s Hs Hh]; rewrite Hs in Hevs; simpl in Hevs; subst.
  - by exists a, evs.
  - by exists a, evs.
  - destruct Hh; unfold stop_keyword; simpl; try by exists a, evs.
    exists a, (evs ++ [EvSleep (1 # 2)]). by rewrite <- app_assoc.
Qed.



End failures.

(** ** Monotone counts *)

Section counts.
Context `{Formatter}.
Implicit Types (keyword : string) (keys : list string) (script : list net_event)
  (scripts : list (list net_event)) (l : locals) (w : world) (r : response) (s : step)
  (b : gmap string kw_state).

Lemma py_len_nonneg v n : py_len v = Ok n → 0 ≤ n.
Proof. destruct v; simpl; try done; intros [= <-]; lia. Qed.

(** The number a page adds is the length of its ["items"]. *)
Lemma read_page_fetched data known known' fetched token :
  read_page data known = Ok (known', fetched, token) →
  0 ≤ fetched ∧
  ∃ items, py_get data "items" (JArr []) = Ok items ∧ py_len items = Ok fetched.
Proof.
  unfold read_page.
  destruct (py_get data "items" (JArr [])) as [items|] eqn:Hitems; [|done]. simpl.
  destruct (py_iter items) as [elems|]; [|done]. simpl.
  destruct (merge_items elems known) as [known''|]; [|done]. simpl.
  destruct (py_len items) as [n|] eqn:Hlen; [|done]. simpl.
  destruct (py_get data "nextPageToken" JNull) as [tok|]; [|done]. simpl.
  intros [= <- <- <-]. split; [by eapply py_len_nonneg|by exists items].
Qed.

Lemma count_of_record_page keyword known' fetched token w k :
  count_of (state (record_page keyword known' fetched token w)) k
  = if decide (k = keyword) then count_of (state w) k + fetched else count_of (state w) k.
Proof.
  unfold count_of, record_page. simpl. destruct (decide (k = keyword)) as [->|Hne].
  - by rewrite lookup_total_insert_eq.
  - by rewrite lookup_total_insert_ne.
Qed.

Lemma count_of_mark_completed keyword w k :
  count_of (state (mark_completed keyword w)) k = count_of (state w) k.
Proof.
  unfold count_of, mark_completed. simpl. destruct (decide (keyword = k)) as [->|Hne].
  - by rewrite lookup_total_insert_eq.
  - by rewrite lookup_total_insert_ne.
Qed.

(** One pass leaves every count alone or adds a page to the keyword's. *)
Lemma transition_count keyword max_results keys script l w s k :
  transition keyword max_results keys script l w s →
  count_of (state (after s)) k = count_of (state w) k ∨
  (k = keyword ∧ ∃ fetched token known',
     page_fetched script w fetched token known' ∧ 0 ≤ fetched ∧
     count_of (state (after s)) k = count_of (state w) k + fetched).
Proof.
  intros Hs.
  destruct Hs as [evs Hs|e evs Hs|r evs s Hs Hh]; [by left|by left|].
  assert (∀ fetched token known',
    is_none (response_data r) = false →
    read_page (response_data r) (known_channels (log evs w)) = Ok (known', fetched, token) →
    page_fetched script w fetched token known' ∧ 0 ≤ fetched) as Hpage.
  { intros fetched token known' Hnone Hread. split.
    - apply (page_fetched_search keyword l). by exists r, evs.
    - by apply read_page_fetched in Hread as [? _]. }
  destruct Hh; unfold stop_keyword; cbn [after final]; try by left.
  - rewrite count_of_mark_completed, count_of_record_page.
    destruct (decide (k = keyword)) as [->|Hne]; [right|by left].
    split; [done|]. exists fetched, token, known'.
    destruct (Hpage fetched token known') as [? ?]; done.
  - cbn [state log]. rewrite count_of_record_page.
    destruct (decide (k = keyword)) as [->|Hne]; [right|by left].
    split; [done|]. exists fetched, token, known'.
    destruct (Hpage fetched token known') as [? ?]; done.
Qed.

Lemma transition_above b keyword max_results keys script l w s :
  above b w → transition keyword max_results keys script l w s → above b (after s).
Proof.
  intros [Hmem Hfile] Hs.
  assert (∀ k, count_of b k ≤ count_of (state (after s)) k) as Hmem'.
  { intros k. destruct (transition_count _ _ _ _ _ _ _ k Hs) as [->|(_ & f & _ & _ & _ & Hf & ->)];
      [done|]. specialize (Hmem k). lia. }
  split; [done|].
  destruct Hs as [evs Hs|e evs Hs|r evs s Hs Hh]; [done|done|].
  destruct Hh; unfold stop_keyword in *; cbn [after final] in *; try done.
Qed.

Lemma process_loop_above b keyword max_results keys scripts l w :
  above b w → above b (final (process_loop keyword max_results keys scripts l w).1).
Proof.
  revert l w. induction scripts as [|script rest IH]; intros l w Hw; simpl.
  - by destruct (completed _).
  - destruct (completed _); [done|].
    pose proof (transition_above b _ _ _ _ _ _ _ Hw
                  (loop_body_transition keyword max_results keys script l w)) as Hs.
    destruct (loop_body _ _ _ script l w) as [l' w'|o]; [by apply IH|done].
Qed.

Lemma process_keyword_above b keyword cfg keys scripts w :
  above b w → above b (final (process_keyword keyword cfg keys scripts w).1).
Proof.
  intros [Hmem Hfile]. unfold process_keyword.
  assert (above b (set_state (setdefault keyword (state w)) w)) as Hw.
  { split; [|done]. intros k. unfold count_of. simpl.
    rewrite setdefault_lookup_total. apply Hmem. }
  destruct (completed _); [done|].
  destruct (py_index keys 0); [|done]. by apply process_loop_above.
Qed.

Lemma run_keywords_above b kws cfg scripts w :
  above b w → above b (final (run_keywords kws cfg scripts w)).
Proof.
  revert scripts w. induction kws as [|keyword rest IH]; intros scripts w Hw; simpl; [done|].
  pose proof (process_keyword_above b keyword cfg (api_keys cfg) scripts w Hw) as Hk.
  destruct (process_keyword _ _ _ scripts w) as [[w'|c w'|e w'|w'] scripts']; try done.
  by apply IH.
Qed.

Lemma main_counts cfg state_path output_path scripts k :
  count_of (load_state state_path) k
  ≤ count_of (load_state (state_file (final (main cfg state_path output_path scripts)))) k.
Proof.
  unfold main. destruct (negb (valid_config cfg)); [done|].
  apply run_keywords_above. by split.
Qed.
End counts.

(** ** The global halt *)

Section halt.
Context `{Formatter}.
Implicit Types (keyword : string) (keys : list string) (script : list net_event)
  (scripts : list (list net_event)) (l : locals) (w : world) (r : response) (s : step).

Lemma quota_exhausted_failure r :
  quota_exhausted r = Ok true → is_none (response_data r) = true.
Proof.
  intros Hq. apply response_data_failure. left. intros Hs.
  rewrite quota_exhausted_other_status in Hq by lia. done.
Qed.

(** A pass that goes round again either rotated the key on a quota
    answer, touching neither the memory nor the files, or counted a page
    and saved it. *)
Lemma continue_cases keyword max_results keys script l w l' w' :
  transition keyword max_results keys script l w (Continue l' w') →
  (quota_answer script ∧ state w' = state w ∧ known_channels w' = known_channels w ∧
   state_file w' = state_file w ∧ output_file w' = output_file w) ∨
  (l' = l ∧ synced w' ∧ ∃ fetched token known', page_fetched script w fetched token known').
Proof.
  inversion 1 as [| |r evs s Hsearch Hh]; subst.
  pose proof (search_returns _ _ _ _ _ _ _ Hsearch) as (Hans & _ & _).
  inversion Hh; subst.
  - left. split; [by exists r|done].
  - right. split; [done|]. split; [done|]. exists fetched, token, known'.
    apply (page_fetched_search keyword l'). by exists r, evs.
Qed.

(** The only exit is the halt on a quota answer with no key left: the
    status is 0 and both files are saved from the untouched memory. *)
Lemma exited_cases keyword max_results keys script l w c w' :
  transition keyword max_results keys script l w (Stop (Exited c w')) →
  c = 0 ∧ quota_answer script ∧
  get_next_api_key keys ({[current_key_index l]} ∪ exhausted_keys l)
    (current_key_index l) = Ok None ∧
  state w' = state w ∧ known_channels w' = known_channels w ∧ synced w'.
Proof.
  inversion 1 as [| |r evs s Hsearch Hh]; subst.
  pose proof (search_returns _ _ _ _ _ _ _ Hsearch) as (Hans & _ & _).
  inversion Hh; subst. split_and!; try done. by exists r.
Qed.

(** A run of the loop that ends in the exit splits into the passes up to
    the last counted page and the quota answers after it. *)
Lemma process_loop_exit keyword max_results keys scripts l w c w' rest :
  process_loop keyword max_results keys scripts l w = (Exited c w', rest) →
  c = 0 ∧
  ∃ before quota l1 w1,
    scripts = before ++ quota ++ rest ∧ quota ≠ [] ∧ Forall quota_answer quota ∧
    advance keyword max_results keys before l w = Some (l1, w1) ∧
    (before = [] ∨
     synced w1 ∧
     ∃ earlier script l0 w0 fetched token known',
       before = earlier ++ [script] ∧
       advance keyword max_results keys earlier l w = Some (l0, w0) ∧
       page_fetched script w0 fetched token known') ∧
    state w' = state w1 ∧ known_channels w' = known_channels w1 ∧
    state_file w' = Some (state w1) ∧
    output_file w' = Some (save_known_channels (known_channels w1)).
Proof.
  revert l w. induction scripts as [|script scripts IH]; intros l w; simpl.
  - by destruct (completed _).
  - destruct (completed (state w !!! keyword)) eqn:Hopen; [done|].
    pose proof (loop_body_transition keyword max_results keys script l w) as Hs.
    destruct (loop_body _ _ _ script l w) as [l' w'0|o] eqn:Hbody.
    + intros Hloop. destruct (IH l' w'0 Hloop)
        as (-> & before & quota & l1 & w1 & -> & Hne & Hquota & Hadv & Hlast
            & Hst' & Hkn' & Hsf' & Hof').
      split; [done|].
      apply continue_cases in Hs as
          [(Hq & Hst & Hkn & Hsf & Hof)|(-> & Hsync & fetched & token & known' & Hpage)].
      * (* a rotation *)
        destruct before as [|b before].
        -- simpl in Hadv. injection Hadv as <- <-.
           exists [], (script :: quota), l, w.
           split_and!; try done; try congruence; [by constructor|by left].
        -- exists (script :: b :: before), quota, l1, w1. split_and!; try done.
           ++ simpl. by rewrite Hopen, Hbody.
           ++ right. destruct Hlast as [?|(Hsync1 & earlier & s0 & l0 & w0 & f & t & k & Heq & Hadv0 & Hp)];
                [done|]. split; [done|].
              exists (script :: earlier), s0, l0, w0, f, t, k. split_and!; try done.
              ** by rewrite Heq.
              ** simpl. by rewrite Hopen, Hbody.
      * (* a page *)
        destruct before as [|b before].
        -- simpl in Hadv. injection Hadv as <- <-.
           exists [script], quota, l, w'0. split_and!; try done.
           ++ simpl. by rewrite Hopen, Hbody.
           ++ right. split; [done|].
              by exists [], script, l, w, fetched, token, known'.
        -- exists (script :: b :: before), quota, l1, w1. split_and!; try done.
           ++ simpl. by rewrite Hopen, Hbody.
           ++ right. destruct Hlast as [?|(Hsync1 & earlier & s0 & l0 & w0 & f & t & k & Heq & Hadv0 & Hp)];
                [done|]. split; [done|].
              exists (script :: earlier), s0, l0, w0, f, t, k. split_and!; try done.
              ** by rewrite Heq.
              ** simpl. by rewrite Hopen, Hbody.
    + intros [= -> ->].
      apply exited_cases in Hs as (-> & Hq & _ & Hst & Hkn & Hsf & Hof).
      split; [done|]. exists [], [script], l, w. split_and!; try done.
      * by constructor.
      * by left.
      * by rewrite Hsf, Hst.
      * by rewrite Hof, Hkn.
Qed.

Lemma process_keyword_exit keyword cfg keys scripts w c w' rest :
  process_keyword keyword cfg keys scripts w = (Exited c w', rest) →
  c = 0 ∧ synced w'.
Proof.
  unfold process_keyword. destruct (completed _); [done|].
  destruct (py_index keys 0); [|done].
  intros (-> & _ & _ & _ & w1 & _ & _ & _ & _ & _ & Hst & Hkn & Hsf & Hof)%process_loop_exit.
  split; [done|]. split; [by rewrite Hsf, Hst|by rewrite Hof, Hkn].
Qed.

Lemma run_keywords_exit kws cfg scripts w c w' :
  run_keywords kws cfg scripts w = Exited c w' → c = 0 ∧ synced w'.
Proof.
  revert scripts w. induction kws as [|keyword kws IH]; intros scripts w; simpl; [done|].
  destruct (process_keyword _ _ _ scripts w) as [[w1|c1 w1|e w1|w1] scripts'] eqn:Hk; try done.
  - apply IH.
  - intros [= -> ->]. by eapply process_keyword_exit.
Qed.
End halt.

(** ** Scope of the exhaustion marks *)

Section marks.
Context `{Formatter}.
Implicit Types (keyword : string) (keys : list string) (script : list net_event)
  (scripts : list (list net_event)) (l : locals) (w : world) (r : response) (s : step).

(** The rotator hands out an index that is not marked, with its key. *)
Lemma get_next_api_key_fresh keys exhausted current_index idx k :
  get_next_api_key keys exhausted current_index = Ok (Some (idx, k)) →
  (idx ∉ exhausted) ∧ keys !! Z.to_nat idx = Some k.
Proof.
  unfold get_next_api_key. destruct keys as [|k0 keys]; [done|].
  intros Hscan. apply scan_keys_Some in Hscan; [|simpl; lia|done].
  by destruct Hscan as (_ & _ & _ & _ & ? & _ & ?).
Qed.

(** A quota answer marks the current index and moves on to an unmarked
    one; a counted page keeps the key and the marks. *)
Lemma continue_marks keyword max_results keys script l w l' w' :
  transition keyword max_results keys script l w (Continue l' w') →
  (quota_answer script ∧
   exhausted_keys l' = {[current_key_index l]} ∪ exhausted_keys l ∧
   (current_key_index l' ∉ exhausted_keys l') ∧
   keys !! Z.to_nat (current_key_index l') = Some (api_key l')) ∨
  (l' = l ∧ ∃ fetched token known', page_fetched script w fetched token known').
Proof.
  inversion 1 as [| |r evs s Hsearch Hh]; subst.
  pose proof (search_returns _ _ _ _ _ _ _ Hsearch) as (Hans & _ & _).
  inversion Hh; subst.
  - left. split; [by exists r|]. simpl.
    match goal with Hnext : get_next_api_key _ _ _ = _ |- _ =>
      apply get_next_api_key_fresh in Hnext as [? ?] end. done.
  - right. split; [done|]. exists fetched, token, known'.
    apply (page_fetched_search keyword l'). by exists r, evs.
Qed.

Lemma advance_marks keyword max_results keys scripts l w l1 w1 :
  advance keyword max_results keys scripts l w = Some (l1, w1) →
  exhausted_keys l ⊆ exhausted_keys l1.
Proof.
  revert l w. induction scripts as [|script rest IH]; intros l w; simpl.
  - by intros [= <- <-].
  - destruct (completed _); [done|].
    pose proof (loop_body_transition keyword max_results keys script l w) as Hs.
    destruct (loop_body _ _ _ script l w) as [l' w'|o]; [|done].
    intros Hadv%IH.
    apply continue_marks in Hs as [(_ & Hex & _)|[-> _]]; [|done].
    rewrite Hex in Hadv. intros i Hi. apply Hadv, elem_of_union. by right.
Qed.

(** C9 (amended). The exhaustion marks are scoped to one keyword: every
    call of [process_keyword] on an open keyword starts its loop on the
    first key with no index marked, whatever happened before; inside the
    loop the marks only grow, a quota answer marks the current index and
    moves to an index that is not marked, and a counted page keeps the
    key and the marks. *)
Theorem exhaustion_marks_keyword_scoped :
  (∀ keyword cfg keys scripts w first_key,
     completed (state w !!! keyword) = false → py_index keys 0 = Ok first_key →
     process_keyword keyword cfg keys scripts w
     = process_loop keyword (max_results_per_keyword cfg) keys scripts
         {| current_key_index := 0; api_key := first_key; exhausted_keys := ∅ |}
         (set_state (setdefault keyword (state w)) w)) ∧
  (∀ keyword max_results keys scripts l w l1 w1,
     advance keyword max_results keys scripts l w = Some (l1, w1) →
     exhausted_keys l ⊆ exhausted_keys l1) ∧
  (∀ keyword max_results keys script l w l' w',
     loop_body keyword max_results keys script l w = Continue l' w' →
     (quota_answer script ∧
      exhausted_keys l' = {[current_key_index l]} ∪ exhausted_keys l ∧
      (current_key_index l' ∉ exhausted_keys l') ∧
      keys !! Z.to_nat (current_key_index l') = Some (api_key l')) ∨
     (l' = l ∧ ∃ fetched token known', page_fetched script w fetched token known')).
Proof.
  split_and!.
  - intros keyword cfg keys scripts w first_key Hopen Hkey. unfold process_keyword.
    cbn [state set_state]. by rewrite setdefault_lookup_total, Hopen, Hkey.
  - apply advance_marks.
  - intros keyword max_results keys script l w l' w' Hbody.
    eapply continue_marks. by apply transition_loop_body.
Qed.
End marks.

(** C9 as stated fails: in a run over two keywords with three keys, the
    second key meets a quota exhaustion during the first keyword and is
    asked again during the second one, where the rotation hands it out
    after the first key. *)
Lemma exhaustion_marks_counterexample :
  valid_config three_keys = true ∧
  (∃ answers,
     trace (final (@main no_formatter three_keys None None three_keys_scripts))
     = [EvGet (search_params "a" "k0" JNull) (Some quota_reply);
        EvGet (search_params "a" "k1" JNull) (Some quota_reply);
        EvGet (search_params "a" "k2" JNull) answers;
        EvGet (search_params "b" "k0" JNull) (Some quota_reply);
        EvGet (search_params "b" "k1" JNull)
          (Some (ok_reply (sample_page ["UCb"] None)))]) ∧
  ¬ marks_outlive_keywords "k0"
      (trace (final (@main no_formatter three_keys None None three_keys_scripts))).
Proof.
  split; [reflexivity|]. split; [eexists; by vm_compute|].
  intros Hmarks.
  apply (Hmarks 1%nat 4%nat
           (EvGet (search_params "a" "k1" JNull) (Some quota_reply))
           (search_params "b" "k1" JNull)
           (Some (ok_reply (sample_page ["UCb"] None))) "k1").
  - discriminate.
  - by vm_compute.
  - eexists _, _. split; [reflexivity|]. split; [reflexivity|by vm_compute].
  - lia.
  - by vm_compute.
  - reflexivity.
Qed.

Lemma exhaustion_marks_keyword_scoped_witness :
  ∃ w',
    @loop_body no_formatter "a" 50 ["k0"; "k1"; "k2"] [quota_reply]
      (first_locals "k0") (fresh_world "a")
    = Continue {| current_key_index := 1; api_key := "k1"; exhausted_keys := {[0]} |} w'
    ∧ (1 : Z) ∉ ({[0]} : gset Z).
Proof.
  eexists. split; [by vm_compute|].
  destruct (proj2 (proj2 (@exhaustion_marks_keyword_scoped no_formatter))
              "a" 50 ["k0"; "k1"; "k2"] [quota_reply]
              (first_locals "k0") (fresh_world "a") _ _ eq_refl)
    as [(_ & _ & Hfresh & _)|[Heq _]]; [exact Hfresh|discriminate Heq].
Defined.


(** ** The configuration file *)

Section configuration.
Implicit Types (fields : gmap string json) (config v : json).

Lemma missing_keys_dict (keys : list string) fields :
  missing_keys keys (JObj fields) = Ok (filter (λ k, fields !! k = None) keys).
Proof.
  induction keys as [|k keys IH]; [done|]. simpl. rewrite IH. simpl.
  rewrite filter_cons. destruct (fields !! k) as [v|] eqn:Hk.
  - rewrite bool_decide_eq_true_2 by by eexists. by rewrite decide_False.
  - rewrite bool_decide_eq_false_2 by by intros [? ?]. by rewrite decide_True.
Qed.

Lemma missing_keys_none (keys : list string) fields :
  filter (λ k, fields !! k = None) keys = [] ↔ ∀ k, k ∈ keys → is_Some (fields !! k).
Proof.
  split.
  - intros Hnil k Hk. destruct (fields !! k) eqn:Hlook; [by eexists|].
    assert (k ∈ filter (λ k, fields !! k = None) keys) as Hin
      by by apply list_elem_of_filter.
    rewrite Hnil in Hin. by apply elem_of_nil in Hin.
  - intros Hall. induction keys as [|k keys IH]; [done|].
    rewrite filter_cons. destruct (Hall k) as [v Hv]; [left|].
    rewrite decide_False by by rewrite Hv. apply IH. intros k' Hk'. apply Hall. by right.
Qed.

(** X1. [load_config] returns a configuration exactly when the file
    exists, parses, and holds an object with all five required keys in
    which ["api_keys"] and ["keywords"] are non-empty lists and
    ["max_results_per_keyword"] is a positive integer (or [True]); what it
    returns is the parsed object itself. The elements of the two lists and
    the values of ["state_file"] and ["output_file"] are not looked at. *)
Theorem load_config_accepts (file : option (option json)) config :
  load_config file = Loaded config ↔
  file = Some (Some config) ∧
  ∃ fields keys kws,
    config = JObj fields ∧
    fields !! "api_keys" = Some (JArr keys) ∧ keys ≠ [] ∧
    fields !! "keywords" = Some (JArr kws) ∧ kws ≠ [] ∧
    ((∃ n, fields !! "max_results_per_keyword" = Some (JInt n) ∧ 0 < n) ∨
     fields !! "max_results_per_keyword" = Some (JBool true)) ∧
    is_Some (fields !! "state_file") ∧ is_Some (fields !! "output_file").
Proof.
  split.
  - destruct file as [[c|]|]; [|done..]. unfold load_config.
    destruct c as [| | | |s|items|fields].
    1-4: done.
    + destruct (missing_keys required_keys (JStr s)) as [[|k ms]|]; done.
    + destruct (missing_keys required_keys (JArr items)) as [[|k ms]|]; done.
    + rewrite missing_keys_dict.
      destruct (filter _ required_keys) as [|k ms] eqn:Hmissing; [|done].
      pose proof (proj1 (missing_keys_none _ _) Hmissing) as Hall; clear Hmissing; rename Hall into Hmissing.
      cbn [py_get].
      destruct (fields !! "api_keys") as [[| | | | |keys|]|] eqn:Hkeys; try done.
      destruct keys as [|key keys]; [done|]. cbn.
      destruct (fields !! "keywords") as [[| | | | |kws|]|] eqn:Hkws; try done.
      destruct kws as [|kw kws]; [done|]. cbn.
      destruct (fields !! "max_results_per_keyword") as [[|b|n| | | |]|] eqn:Hmax; try done.
      * destruct b; [|done]. cbn. intros [= <-]. split; [done|].
        exists fields, (key :: keys), (kw :: kws). split_and!; try done.
        -- by right.
        -- apply Hmissing. set_solver.
        -- apply Hmissing. set_solver.
      * cbn. destruct (Z.leb_spec n 0); [done|]. intros [= <-]. split; [done|].
        exists fields, (key :: keys), (kw :: kws). split_and!; try done.
        -- left. by exists n.
        -- apply Hmissing. set_solver.
        -- apply Hmissing. set_solver.
  - intros (-> & fields & keys & kws & -> & Hkeys & Hne & Hkws & Hne' & Hmax & Hsf & Hof).
    unfold load_config. rewrite missing_keys_dict.
    assert (filter (λ k, fields !! k = None) required_keys = []) as ->.
    { assert (is_Some (fields !! "max_results_per_keyword")) as Hm
        by (destruct Hmax as [(n & -> & _)| ->]; by eexists).
      apply missing_keys_none. intros k Hk. unfold required_keys in Hk.
      repeat (apply elem_of_cons in Hk as [->|Hk]; [by eauto|]).
      by apply elem_of_nil in Hk. }
    cbn [py_get]. rewrite Hkeys, Hkws. cbn.
    destruct keys; [done|]. destruct kws; [done|]. cbn.
    destruct Hmax as [(n & -> & Hn)| ->]; cbn; [|done].
    destruct (Z.leb_spec n 0); [lia|done].
Qed.
Lemma nonempty_list_check v :
  negb (is_list v) || negb (truthy v) = false ↔ nonempty_list v.
Proof.
  split.
  - destruct v as [| | | | |[|x xs]|]; try done. intros _. by exists x, xs.
  - by intros (x & xs & ->).
Qed.

Lemma positive_int_check v :
  negb (is_int v) || int_le_zero v = false ↔ positive_int v.
Proof.
  split.
  - destruct v as [|[|]|n| | | |]; try done; simpl.
    + intros _. by right.
    + destruct (Z.leb_spec n 0); [done|]. intros _. left. by exists n.
  - intros [(n & -> & Hn)| ->]; [|done]. simpl. by destruct (Z.leb_spec n 0); [lia|].
Qed.

Lemma load_config_dict fields :
  load_config (Some (Some (JObj fields))) =
  match absent_keys fields with
  | k :: missing => Rejected (ConfigMissingKeys (k :: missing))
  | [] =>
      if negb (is_list (default JNull (fields !! "api_keys")))
         || negb (truthy (default JNull (fields !! "api_keys")))
      then Rejected ConfigBadApiKeys
      else if negb (is_list (default JNull (fields !! "keywords")))
              || negb (truthy (default JNull (fields !! "keywords")))
      then Rejected ConfigBadKeywords
      else if negb (is_int (default JNull (fields !! "max_results_per_keyword")))
              || int_le_zero (default JNull (fields !! "max_results_per_keyword"))
      then Rejected ConfigBadMaxResults
      else Loaded (JObj fields)
  end.
Proof.
  unfold load_config. rewrite missing_keys_dict. fold (absent_keys fields).
  destruct (absent_keys fields); [|done]. cbn [py_get].
  destruct (_ || _); [done|]. destruct (_ || _); [done|]. by destruct (_ || _).
Qed.

(** X2. For a configuration that is an object nothing but a [ConfigError]
    comes out, and the checks report in a fixed order: first the required
    keys that are absent, all of them and in the order of the list (a key
    whose value is null is present); then ["api_keys"], then ["keywords"],
    then ["max_results_per_keyword"], each only when the checks before it
    passed. *)
Theorem load_config_rejections fields :
  (∀ e, load_config (Some (Some (JObj fields))) ≠ Crashed e) ∧
  (∀ missing,
     load_config (Some (Some (JObj fields))) = Rejected (ConfigMissingKeys missing) ↔
     missing = absent_keys fields ∧ missing ≠ []) ∧
  (∀ k, k ∈ absent_keys fields ↔ k ∈ required_keys ∧ fields !! k = None) ∧
  (load_config (Some (Some (JObj fields))) = Rejected ConfigBadApiKeys ↔
     absent_keys fields = [] ∧ ¬ nonempty_list (default JNull (fields !! "api_keys"))) ∧
  (load_config (Some (Some (JObj fields))) = Rejected ConfigBadKeywords ↔
     absent_keys fields = [] ∧ nonempty_list (default JNull (fields !! "api_keys")) ∧
     ¬ nonempty_list (default JNull (fields !! "keywords"))) ∧
  (load_config (Some (Some (JObj fields))) = Rejected ConfigBadMaxResults ↔
     absent_keys fields = [] ∧ nonempty_list (default JNull (fields !! "api_keys")) ∧
     nonempty_list (default JNull (fields !! "keywords")) ∧
     ¬ positive_int (default JNull (fields !! "max_results_per_keyword"))).
Proof.
  rewrite load_config_dict.
  pose proof (nonempty_list_check (default JNull (fields !! "api_keys"))) as Hkeys.
  pose proof (nonempty_list_check (default JNull (fields !! "keywords"))) as Hkws.
  pose proof (positive_int_check (default JNull (fields !! "max_results_per_keyword"))) as Hmax.
  split_and!.
  - intros e. destruct (absent_keys fields); [|done].
    destruct (_ || _); [done|]. destruct (_ || _); [done|]. by destruct (_ || _).
  - intros missing. destruct (absent_keys fields) as [|k ms].
    + split; [|by intros [-> ?]].
      destruct (_ || _); [done|]. destruct (_ || _); [done|]. by destruct (_ || _).
    + split; [by intros [= <-]|by intros [-> _]].
  - intros k. unfold absent_keys. rewrite list_elem_of_filter. tauto.
  - destruct (absent_keys fields) as [|k ms]; [|split; [done|by intros [? _]]].
    destruct (_ || _).
    + split; [|done]. intros _. split; [done|]. intros Hne. by apply Hkeys in Hne.
    + split; [|intros [_ []]; by apply Hkeys].
      destruct (_ || _); [done|]. by destruct (_ || _).
  - destruct (absent_keys fields) as [|k ms]; [|split; [done|by intros [? _]]].
    destruct (_ || _).
    + split; [done|]. intros (_ & Hne & _). by apply Hkeys in Hne.
    + destruct (_ || _).
      * split; [|done]. intros _. split_and!; [done|by apply Hkeys|].
        intros Hne. by apply Hkws in Hne.
      * split; [by destruct (_ || _)|]. intros (_ & _ & []). by apply Hkws.
  - destruct (absent_keys fields) as [|k ms]; [|split; [done|by intros [? _]]].
    destruct (_ || _).
    + split; [done|]. intros (_ & Hne & _). by apply Hkeys in Hne.
    + destruct (_ || _).
      * split; [done|]. intros (_ & _ & Hne & _). by apply Hkws in Hne.
      * destruct (_ || _).
        -- split; [|done]. intros _. split_and!; [done|by apply Hkeys|by apply Hkws|].
           intros Hne. by apply Hmax in Hne.
        -- split; [done|]. intros (_ & _ & _ & []). by apply Hmax.
Qed.

Lemma missing_keys_container (keys : list string) v :
  (∀ k, ∃ b, py_in k v = Ok b) →
  ∃ missing, missing_keys keys v = Ok missing ∧
    ∀ k, k ∈ missing ↔ k ∈ keys ∧ py_in k v = Ok false.
Proof.
  intros Hin. induction keys as [|k keys (missing & Hmissing & Hspec)]; simpl.
  - exists []. split; [done|]. intros k. split; [by intros ?%elem_of_nil|].
    by intros [?%elem_of_nil _].
  - destruct (Hin k) as [b Hb]. rewrite Hb, Hmissing. simpl.
    eexists. split; [done|]. intros k'. destruct b.
    + rewrite Hspec, elem_of_cons. split; [by intros [? ?]; auto|].
      intros [[->|?] Hk']; [congruence|done].
    + rewrite !elem_of_cons, Hspec. split; [intros [->|[? ?]]; auto|].
      intros [[->|?] Hk']; auto.
Qed.

(** X3. A configuration that parses to something other than an object is
    never returned, and how it fails depends on its type: on null, a
    boolean or a number the membership test raises [TypeError]; on a list
    or a string the required keys it does not contain are reported as
    missing, and when it contains all five the [get] that follows raises
    [AttributeError]. Neither exception is a [ConfigError]. *)
Theorem load_config_not_object v :
  is_dict v = false →
  (∀ config, load_config (Some (Some v)) ≠ Loaded config) ∧
  (match v with
   | JArr _ | JStr _ =>
       ∃ missing,
         (∀ k, k ∈ missing ↔ k ∈ required_keys ∧ py_in k v = Ok false) ∧
         load_config (Some (Some v)) =
         match missing with
         | [] => Crashed AttributeError
         | _ => Rejected (ConfigMissingKeys missing)
         end
   | _ => load_config (Some (Some v)) = Crashed TypeError
   end).
Proof.
  intros Hv.
  assert (match v with
          | JArr _ | JStr _ =>
              ∃ missing,
                (∀ k, k ∈ missing ↔ k ∈ required_keys ∧ py_in k v = Ok false) ∧
                load_config (Some (Some v)) =
                match missing with
                | [] => Crashed AttributeError
                | _ => Rejected (ConfigMissingKeys missing)
                end
          | _ => load_config (Some (Some v)) = Crashed TypeError
          end) as Hload.
  { destruct v as [| | | |s|items|fields]; try done.
    - destruct (missing_keys_container required_keys (JStr s)) as (missing & Hmissing & Hspec);
        [by eexists|].
      exists missing. split; [done|]. unfold load_config. rewrite Hmissing.
      by destruct missing.
    - destruct (missing_keys_container required_keys (JArr items)) as (missing & Hmissing & Hspec);
        [by eexists|].
      exists missing. split; [done|]. unfold load_config. rewrite Hmissing.
      by destruct missing. }
  split; [|done]. intros config.
  destruct v as [| | | |s|items|fields]; try done; try (by rewrite Hload);
    destruct Hload as ([|k missing] & _ & ->); done.
Qed.
(** X4. The checks of [load_config] are those under which [main] is run:
    for an object that names the two files and holds the keys, the
    keywords and the limit of a configuration, [load_config] returns the
    object exactly when [valid_config] accepts that configuration. *)
Theorem load_config_valid_config fields cfg :
  config_json fields cfg →
  is_Some (fields !! "state_file") → is_Some (fields !! "output_file") →
  load_config (Some (Some (JObj fields))) = Loaded (JObj fields) ↔ valid_config cfg = true.
Proof.
  intros (Hkeys & Hkws & Hmax) Hsf Hof. rewrite load_config_dict.
  assert (absent_keys fields = []) as ->.
  { apply missing_keys_none. intros k Hk. unfold required_keys in Hk.
    repeat (apply elem_of_cons in Hk as [->|Hk]; [by eauto|]).
    by apply elem_of_nil in Hk. }
  rewrite Hkeys, Hkws, Hmax. unfold valid_config. simpl.
  destruct (api_keys cfg) as [|k ks]; [done|].
  destruct (keywords cfg) as [|kw kws]; [done|]. simpl.
  by destruct (max_results_per_keyword cfg <=? 0).
Qed.
End configuration.

Lemma load_config_not_object_witness :
  load_config (Some (Some (JInt 5))) = Crashed TypeError.
Proof. apply (load_config_not_object (JInt 5)). reflexivity. Defined.

Lemma load_config_valid_config_witness :
  load_config (Some (Some (JObj one_key_json))) = Loaded (JObj one_key_json).
Proof.
  apply (load_config_valid_config one_key_json
           {| api_keys := ["k0"]; keywords := ["a"]; max_results_per_keyword := 50 |}).
  - split_and!; by vm_compute.
  - by eexists.
  - by eexists.
  - reflexivity.
Defined.

(** ** Where the quota test raises *)

Section quota_errors.
Implicit Types (j v : json) (fields : gmap string json).

Lemma collect_reasons_hashable (errors : list json) :
  (∃ reasons, collect_reasons errors = Ok reasons) ↔
  ∀ entry, JObj entry ∈ errors → hashable (default JNull (entry !! "reason")) = true.
Proof.
  induction errors as [|item rest IH]; simpl.
  - split; [|by eexists]. by intros _ entry ?%elem_of_nil.
  - destruct (is_dict item) eqn:Hdict.
    + destruct item as [| | | | | |entry]; try done. simpl.
      destruct (hashable (default JNull (entry !! "reason"))) eqn:Hhash.
      * destruct (collect_reasons rest) as [rs|e]; simpl.
        -- split; [|by eexists]. intros _ entry' [[= ->]|Hin]%elem_of_cons; [done|].
           apply IH; [by eexists|done].
        -- split; [by intros [? ?]|]. intros Hall.
           destruct (proj2 IH) as [? ?]; [|done]. intros entry' Hin. apply Hall. by right.
      * split; [by intros [? ?]|]. intros Hall.
        assert (hashable (default JNull (entry !! "reason")) = true) by (apply Hall; left).
        congruence.
    + rewrite IH. split.
      * intros Hall entry [Heq|Hin]%elem_of_cons; [by subst item|by apply Hall].
      * intros Hall entry Hin. apply Hall. by right.
Qed.

Lemma collect_reasons_raises (errors : list json) e :
  collect_reasons errors = Raise e → e = TypeError.
Proof.
  induction errors as [|item rest IH]; simpl; [done|].
  destruct item as [| | | | | |entry]; simpl; try done.
  destruct (hashable (default JNull (entry !! "reason"))); [|by intros [= <-]].
  destruct (collect_reasons rest); simpl; [done|]. intros [= <-]. by apply IH.
Qed.

Lemma classifiable_dict fields error :
  truthy (JObj fields) = true → default (JObj ∅) (fields !! "error") = JObj error →
  classifiable (JObj fields) ↔
  match default (JArr []) (error !! "errors") with
  | JArr errors =>
      ∀ entry, JObj entry ∈ errors → hashable (default JNull (entry !! "reason")) = true
  | JStr _ | JObj _ => True
  | _ => False
  end.
Proof.
  intros Htruthy Herror. split.
  - intros [?|(f & e & [= <-] & He & Hm)]; [congruence|].
    rewrite Herror in He. by injection He as <-.
  - intros Hm. right. by exists fields, error.
Qed.

Lemma not_classifiable_error fields :
  truthy (JObj fields) = true → is_dict (default (JObj ∅) (fields !! "error")) = false →
  ¬ classifiable (JObj fields).
Proof.
  intros Htruthy Herror [?|(f & e & [= <-] & He & _)]; [congruence|].
  by rewrite He in Herror.
Qed.

(** X5. [handle_quota_error] returns exactly on the classifiable bodies:
    every falsy body (answered with false), and the dictionaries whose
    ["error"] is absent or a dictionary and whose ["errors"] is absent, a
    string, a dictionary, or a list whose dictionaries all have a hashable
    reason. On the other bodies it raises: [AttributeError] exactly when
    the truthy body or its ["error"] is not a dictionary, [TypeError]
    otherwise. *)
Theorem handle_quota_error_raises j :
  ((∃ b, handle_quota_error j = Ok b) ↔ classifiable j) ∧
  (handle_quota_error j = Raise AttributeError ↔
     truthy j = true ∧
     (is_dict j = false ∨
      ∃ fields, j = JObj fields ∧ is_dict (default (JObj ∅) (fields !! "error")) = false)) ∧
  (∀ e, handle_quota_error j = Raise e → e = AttributeError ∨ e = TypeError).
Proof.
  destruct (truthy j) eqn:Htruthy.
  2:{ unfold handle_quota_error. rewrite Htruthy. simpl. split_and!.
      - split; [by left|by eexists].
      - split; [done|by intros [? _]].
      - done. }
  destruct (is_dict j) eqn:Hdict.
  2:{ assert (handle_quota_error j = Raise AttributeError) as ->
        by (unfold handle_quota_error; rewrite Htruthy; by destruct j).
      split_and!.
      - split; [by intros [? ?]|]. intros [?|(? & ? & -> & _)]; [congruence|done].
      - split; [|done]. intros _. split; [done|by left].
      - intros e [= <-]. by left. }
  destruct j as [| | | | | |fields]; try done.
  destruct (is_dict (default (JObj ∅) (fields !! "error"))) eqn:Herror.
  2:{ assert (handle_quota_error (JObj fields) = Raise AttributeError) as ->.
      { unfold handle_quota_error. rewrite Htruthy. simpl.
        by destruct (default (JObj ∅) (fields !! "error")). }
      split_and!.
      - split; [by intros [? ?]|]. intros Hc. by apply not_classifiable_error in Hc.
      - split; [|done]. intros _. split; [done|]. right. by exists fields.
      - intros e [= <-]. by left. }
  destruct (default (JObj ∅) (fields !! "error")) as [| | | | | |error] eqn:Herr; try done.
  rewrite (classifiable_dict fields error Htruthy Herr).
  assert (∀ A (m : result A), m ≠ Raise AttributeError →
    (m = Raise AttributeError ↔
     true = true ∧ (is_dict (JObj fields) = false ∨ ∃ fields0, JObj fields = JObj fields0 ∧
       is_dict (default (JObj ∅) (fields0 !! "error")) = false))) as Hattr.
  { intros A m Hm. split; [done|]. intros [_ [?|(f & [= <-] & Hd)]]; [done|].
    by rewrite Herr in Hd. }
  unfold handle_quota_error. rewrite Htruthy. simpl. rewrite Herr. simpl.
  destruct (default (JArr []) (error !! "errors")) as [| | | |text|errors|keys] eqn:Herrors;
    simpl.
  1-4: (split_and!; [split; [by intros [? ?]|done] |by apply Hattr |intros e [= <-]; by right]).
  - replace ((λ c, JStr (String c "")) <$> list_ascii_of_string text)
      with (JStr <$> ((λ c, String c "") <$> list_ascii_of_string text))
      by (by rewrite <- list_fmap_compose).
    rewrite collect_reasons_strings. simpl. split_and!.
    + split; [done|by eexists].
    + by apply Hattr.
    + done.
  - pose proof (collect_reasons_hashable errors) as Hhash.
    destruct (collect_reasons errors) as [reasons|e] eqn:Hreasons; simpl.
    + split_and!.
      * split; [intros _; apply Hhash; by eexists|].
        intros _. destruct (_ || _); by eexists.
      * apply Hattr. by destruct (_ || _).
      * by destruct (_ || _).
    + apply collect_reasons_raises in Hreasons as ->. split_and!.
      * split; [by intros [? ?]|]. intros Hall. by apply Hhash in Hall as [? ?].
      * by apply Hattr.
      * intros e [= <-]. by right.
  - rewrite collect_reasons_strings. simpl. split_and!.
    + split; [done|by eexists].
    + by apply Hattr.
    + done.
Qed.
End quota_errors.

(** ** The retry budget *)

Section retry_budget.
Implicit Types (params : request) (script : list net_event).

(** X6. For every [retries] and [delay], [request_with_retries] makes its
    attempts one after the other with the same parameters, at most
    [max(1, retries)] of them, and sleeps [delay] after each failed attempt
    that another one follows, and nowhere else. A response that comes
    after fewer than [max(1, retries)] transport errors is returned: the
    effects are the failed attempts, each followed by its pause, and the
    answered request. The transport error of attempt [max(1, retries)] is
    raised, with no pause after it. A script that runs out before that
    leaves the request pending. Every script is of one of these three
    kinds. *)
Theorem request_loop_retry_budget params retries delay :
  (∀ (errs : list string) r rest,
     Z.of_nat (length errs) < Z.max 1 retries →
     request_loop params retries delay 0 ((NetError <$> errs) ++ Reply r :: rest)
     = (Returns r, failed_attempts params delay errs ++ [EvGet params (Some (Reply r))])) ∧
  (∀ (errs : list string) info rest,
     Z.of_nat (length errs) + 1 = Z.max 1 retries →
     request_loop params retries delay 0 ((NetError <$> errs) ++ NetError info :: rest)
     = (Raises (RequestException info),
        failed_attempts params delay errs ++ [EvGet params (Some (NetError info))])) ∧
  (∀ errs : list string,
     Z.of_nat (length errs) < Z.max 1 retries →
     request_loop params retries delay 0 (NetError <$> errs)
     = (Waits, failed_attempts params delay errs ++ [EvGet params None])) ∧
  (∀ script,
     (∃ (errs : list string) r rest,
        script = (NetError <$> errs) ++ Reply r :: rest ∧
        Z.of_nat (length errs) < Z.max 1 retries) ∨
     (∃ (errs : list string) info rest,
        script = (NetError <$> errs) ++ NetError info :: rest ∧
        Z.of_nat (length errs) + 1 = Z.max 1 retries) ∨
     (∃ errs : list string,
        script = NetError <$> errs ∧ Z.of_nat (length errs) < Z.max 1 retries)).
Proof.
  split_and!.
  - intros errs r rest Hlen. apply request_loop_reply.
    destruct errs; [by left|right; simpl in *; lia].
  - intros errs info rest Hlen. apply request_loop_raise; [|lia].
    destruct errs; [by left|right; simpl in *; lia].
  - intros errs Hlen. apply request_loop_wait.
    destruct errs; [by left|right; simpl in *; lia].
  - intros script.
    assert (0 < Z.max 1 retries) as Hpos by lia.
    generalize dependent (Z.max 1 retries). intros n Hn.
    destruct (script_shape script) as [(errs & r & rest & ->)|(errs & ->)].
    + destruct (decide (Z.of_nat (length errs) < n)) as [Hlt|Hge].
      * left. by exists errs, r, rest.
      * right. left.
        exists (take (Z.to_nat (n - 1)) errs).
        destruct (lookup_lt_is_Some_2 errs (Z.to_nat (n - 1))) as [info Hinfo]; [lia|].
        exists info, (drop (S (Z.to_nat (n - 1))) (NetError <$> errs) ++ Reply r :: rest).
        split; [|rewrite length_take; lia].
        rewrite <- (take_drop_middle errs _ _ Hinfo) at 1.
        rewrite fmap_app, fmap_cons, <- !app_assoc. simpl. do 2 f_equal.
        by rewrite fmap_drop.
    + destruct (decide (Z.of_nat (length errs) < n)) as [Hlt|Hge].
      * right. right. by exists errs.
      * right. left.
        exists (take (Z.to_nat (n - 1)) errs).
        destruct (lookup_lt_is_Some_2 errs (Z.to_nat (n - 1))) as [info Hinfo]; [lia|].
        exists info, (drop (S (Z.to_nat (n - 1))) (NetError <$> errs)).
        split; [|rewrite length_take; lia].
        rewrite <- (take_drop_middle errs _ _ Hinfo) at 1.
        rewrite fmap_app, fmap_cons. do 2 f_equal. by rewrite fmap_drop.
Qed.
End retry_budget.

(** ** The contract of the search client *)

Section client.
Implicit Types (params : request) (script : list net_event) (r : response).

Lemma request_with_retries_raises params script e evs :
  request_with_retries params script = (Raises e, evs) →
  ∃ e1 e2 e3 rest,
    script = NetError e1 :: NetError e2 :: NetError e3 :: rest ∧ e = RequestException e3.
Proof.
  destruct script as [|[e1|?] [|[e2|?] [|[e3|?] rest]]]; simpl; try done.
  intros [= <- <-]. by exists e1, e2, e3, rest.
Qed.

(** X7. The search client returns exactly when the network answers within
    the three attempts, and hands over the response untouched; the data
    beside it is [None] exactly when the status is not 200, the body does
    not parse, or the body is the JSON value null, and the parsed body
    otherwise. It raises only after three transport errors in a row, and
    then the third one. The page token goes into the request exactly when
    it is truthy. *)
Theorem search_client_contract keyword api_key page_token script :
  (∀ data r evs,
     search_videos_for_keyword keyword api_key page_token script = (Returns (data, r), evs) →
     answers script r ∧ data = response_data r ∧
     fetch_events (search_params keyword api_key page_token) r evs) ∧
  (∀ r, answers script r →
     ∃ evs, search_videos_for_keyword keyword api_key page_token script
            = (Returns (response_data r, r), evs)) ∧
  (∀ r, is_none (response_data r) = true ↔
     status_code r ≠ 200 ∨ body r = None ∨ body r = Some JNull) ∧
  (∀ e evs,
     search_videos_for_keyword keyword api_key page_token script = (Raises e, evs) →
     ∃ e1 e2 e3 rest,
       script = NetError e1 :: NetError e2 :: NetError e3 :: rest ∧
       e = RequestException e3) ∧
  (pageToken (search_params keyword api_key page_token)
   = if truthy page_token then Some page_token else None).
Proof.
  split_and!.
  - apply search_returns.
  - intros r Hans. destruct (search_answers keyword api_key page_token script r Hans)
      as (evs & Hsearch & _). by exists evs.
  - intros r. unfold response_data. destruct (Z.eqb_spec (status_code r) 200) as [Hs|Hs].
    + destruct (body r) as [[| | | | | |]|]; simpl; split; try done;
        try (by intros [?|[?|?]]); auto.
    + split; [by left|done].
  - intros e evs. unfold search_videos_for_keyword. cbn zeta.
    destruct (request_with_retries _ script) as [[r| |] evs'] eqn:Hreq; try done.
    + destruct (negb _); [done|]. by destruct (body r).
    + intros [= <- <-]. by eapply request_with_retries_raises.
  - done.
Qed.
End client.

(** ** The merge loop *)

Section merge.
Context `{Formatter}.
Implicit Types (items : list json) (known : gset string).

Lemma merge_items_readable items known :
  (∃ known', merge_items items known = Ok known') ↔ Forall readable_item items.
Proof.
  revert known. induction items as [|item items IH]; intros known; simpl.
  - split; [by constructor|by eexists].
  - rewrite Forall_cons.
    destruct item as [| | | | | |fields]; simpl;
      try (split; [by intros [? ?]|by intros [(? & ? & ? & _) _]]).
    destruct (default (JObj ∅) (fields !! "snippet")) as [| | | | | |snippet] eqn:Hsnippet;
      simpl;
      try (split; [by intros [? ?]
                  |intros [(f' & s' & [= <-] & Hs) _]; by rewrite Hsnippet in Hs]).
    assert (readable_item (JObj fields)) as Hitem by by exists fields, snippet.
    destruct (truthy _); rewrite IH; tauto.
Qed.

Lemma merge_items_raises items known e :
  merge_items items known = Raise e → e = AttributeError.
Proof.
  revert known. induction items as [|item items IH]; intros known; simpl; [done|].
  destruct item as [| | | | | |fields]; simpl; try by intros [= <-].
  destruct (default (JObj ∅) (fields !! "snippet")) as [| | | | | |snippet];
    simpl; try by intros [= <-].
  destruct (truthy _); apply IH.
Qed.

Lemma merge_items_elem items known known' url :
  merge_items items known = Ok known' →
  url ∈ known' ↔ url ∈ known ∨ ∃ item, item ∈ items ∧ item_url item url.
Proof.
  revert known. induction items as [|item items IH]; intros known; simpl.
  - intros [= <-]. split; [by left|]. by intros [?|(? & ?%elem_of_nil & _)].
  - destruct item as [| | | | | |fields]; simpl; try done.
    destruct (default (JObj ∅) (fields !! "snippet")) as [| | | | | |snippet] eqn:Hsnippet;
      simpl; try done.
    destruct (truthy (default JNull (snippet !! "channelId"))) eqn:Hid.
    + intros Hrest. rewrite (IH _ Hrest), elem_of_union, elem_of_singleton. split.
      * intros [[->|?]|(item & Hin & Hurl)]; [right|by left|right].
        -- exists (JObj fields). split; [left|].
           destruct (snippet !! "channelId") as [cid|] eqn:Hcid; [|done].
           by exists fields, snippet, cid.
        -- exists item. split; [by right|done].
      * intros [?|(item & [->|Hin]%elem_of_cons & Hurl)]; [by left; right| |].
        -- destruct Hurl as (f & s & cid & [= <-] & Hs & Hcid & _ & ->).
           rewrite Hsnippet in Hs. injection Hs as <-. rewrite Hcid. by left; left.
        -- right. by exists item.
    + intros Hrest. rewrite (IH _ Hrest). split.
      * intros [?|(item & Hin & Hurl)]; [by left|]. right. exists item. split; [by right|done].
      * intros [?|(item & [->|Hin]%elem_of_cons & Hurl)]; [by left| |].
        -- destruct Hurl as (f & s & cid & [= <-] & Hs & Hcid & Htruthy & ->).
           rewrite Hsnippet in Hs. injection Hs as <-. rewrite Hcid in Hid. simpl in Hid.
           congruence.
        -- right. by exists item.
Qed.

Lemma merge_items_subseteq items known known' :
  merge_items items known = Ok known' → known ⊆ known'.
Proof. intros Hm url Hurl. apply (merge_items_elem _ _ _ _ Hm). by left. Qed.

(** X8. The merge loop of [process_keyword] goes through exactly when
    every item is a dictionary whose ["snippet"] is absent or a
    dictionary, and raises [AttributeError] otherwise. When it goes
    through, the registry afterwards holds the URLs it held before and the
    channel URLs of the items with a truthy ["channelId"], and nothing
    else: items without a snippet or a channel id are skipped, and a URL
    that is already known is not added twice. *)
Theorem merge_items_spec items known :
  ((∃ known', merge_items items known = Ok known') ↔ Forall readable_item items) ∧
  (∀ e, merge_items items known = Raise e → e = AttributeError) ∧
  (∀ known', merge_items items known = Ok known' →
     ∀ url, url ∈ known' ↔ url ∈ known ∨ ∃ item, item ∈ items ∧ item_url item url).
Proof.
  split_and!.
  - apply merge_items_readable.
  - apply merge_items_raises.
  - intros known' Hm url. by apply merge_items_elem.
Qed.
End merge.

(** ** Reloading the registry *)

Section reload.
Implicit Types (s url line text : string) (c : ascii) (channels : gset string).

Lemma lstrip_idem s : lstrip (lstrip s) = lstrip s.
Proof.
  induction s as [|c s IH]; [done|]. simpl. destruct (is_space c) eqn:Hc; [done|].
  simpl. by rewrite Hc.
Qed.

Lemma rstrip_idem s : rstrip (rstrip s) = rstrip s.
Proof.
  induction s as [|c s IH]; [done|]. simpl.
  destruct (rstrip s) as [|k ks] eqn:Hs.
  - destruct (is_space c) eqn:Hc; [done|]. simpl. by rewrite Hc.
  - change (rstrip (String c (String k ks)) = String c (String k ks)).
    simpl rstrip at 1. simpl in IH. by rewrite IH.
Qed.

Lemma lstrip_rstrip s : lstrip s = s → lstrip (rstrip s) = rstrip s.
Proof.
  destruct s as [|c s]; [done|]. simpl. destruct (is_space c) eqn:Hc.
  - intros Hs. exfalso. pose proof (lstrip_length s). rewrite Hs in *. simpl in *. lia.
  - intros _. destruct (rstrip s); simpl; by rewrite Hc.
Qed.

Lemma strip_idem s : strip (strip s) = strip s.
Proof.
  unfold strip. rewrite lstrip_rstrip by apply lstrip_idem. apply rstrip_idem.
Qed.

Lemma strip_app_space s c : is_space c = true → strip (s +:+ String c "") = strip s.
Proof.
  intros Hc. unfold strip. induction s as [|a s IH]; simpl.
  - by rewrite Hc.
  - destruct (is_space a); [done|].
    change (rstrip (String a s +:+ String c "") = rstrip (String a s)).
    by apply rstrip_app_space.
Qed.

Lemma chars_lstrip s c : c ∈ chars (lstrip s) → c ∈ chars s.
Proof.
  unfold chars. induction s as [|a s IH]; [done|]. simpl.
  destruct (is_space a); [|done]. intros Hin. right. by apply IH.
Qed.

Lemma chars_rstrip s c : c ∈ chars (rstrip s) → c ∈ chars s.
Proof.
  unfold chars. induction s as [|a s IH]; [done|]. simpl.
  destruct (rstrip s) as [|k ks].
  - destruct (is_space a); simpl; [by intros ?%elem_of_nil|].
    intros [->|?%elem_of_nil]%elem_of_cons; [left|done].
  - simpl in *. intros [->|Hin]%elem_of_cons; [left|right; by apply IH].
Qed.

Lemma chars_strip s c : c ∈ chars (strip s) → c ∈ chars s.
Proof. unfold strip. intros Hin%chars_rstrip. by apply chars_lstrip. Qed.

Lemma line_of_LF : line_of (String LF "").
Proof.
  exists "". split; [by right|]. unfold chars. simpl. split; by intros ?%elem_of_nil.
Qed.

Lemma line_of_cons c line :
  c ≠ LF → c ≠ CR → line_of line → line_of (String c line).
Proof.
  intros HLF HCR (body & Hline & HbLF & HbCR). exists (String c body). split.
  - destruct Hline as [-> | ->]; [by left|by right].
  - unfold chars in *. simpl. split; by apply not_elem_of_cons.
Qed.

Lemma read_lines_lines_aux (n : nat) text :
  (String.length text ≤ n)%nat → Forall line_of (read_lines text).
Proof.
  revert text. induction n as [|n IH]; intros text Hn.
  - destruct text; [by constructor|simpl in Hn; lia].
  - destruct text as [|c rest]; [by constructor|]. simpl in Hn. simpl.
    destruct (Ascii.eqb_spec c LF) as [->|HLF].
    + constructor; [apply line_of_LF|apply IH; lia].
    + destruct (Ascii.eqb_spec c CR) as [->|HCR].
      * destruct rest as [|c' rest'].
        -- constructor; [apply line_of_LF|constructor].
        -- destruct (Ascii.eqb c' LF).
           ++ constructor; [apply line_of_LF|]. apply IH. simpl in Hn. lia.
           ++ constructor; [apply line_of_LF|]. apply IH. lia.
      * pose proof (IH rest ltac:(lia)) as Hrest.
        destruct (read_lines rest) as [|line lines].
        -- constructor; [|constructor]. exists (String c ""). split; [by left|].
           unfold chars. simpl. split; intros [Heq|?%elem_of_nil]%elem_of_cons; congruence.
        -- apply Forall_cons in Hrest as [Hline Hlines].
           constructor; [by apply line_of_cons|done].
Qed.

Lemma read_lines_lines text : Forall line_of (read_lines text).
Proof. by apply (read_lines_lines_aux (String.length text)). Qed.

Lemma chars_app s t c : c ∈ chars (s +:+ t) ↔ c ∈ chars s ∨ c ∈ chars t.
Proof.
  unfold chars. induction s as [|a s IH]; simpl.
  - split; [by right|]. by intros [?%elem_of_nil|?].
  - rewrite !elem_of_cons, IH. tauto.
Qed.

Lemma strip_line_clean line : line_of line → strip line ≠ "" → clean_url (strip line).
Proof.
  intros (body & Hline & HLF & HCR) Hne.
  assert (strip line = strip body) as Hstrip.
  { destruct Hline as [-> | ->]; [done|]. by apply strip_app_space. }
  rewrite Hstrip in *. split_and!; [done|apply strip_idem|..].
  - intros Hin. by apply HLF, chars_strip.
  - intros Hin. by apply HCR, chars_strip.
Qed.

Lemma add_lines_elem (lines : list string) channels url :
  url ∈ add_lines lines channels ↔
  url ∈ channels ∨ ∃ line, line ∈ lines ∧ strip line = url ∧ url ≠ "".
Proof.
  revert channels. induction lines as [|line lines IH]; intros channels; simpl.
  - split; [by left|]. by intros [?|(? & ?%elem_of_nil & _)].
  - destruct (String.eqb_spec (strip line) "") as [Hblank|Hne]; simpl; rewrite IH.
    + split.
      * intros [?|(l & Hl & Hs)]; [by left|]. right. exists l. split; [by right|done].
      * intros [?|(l & [->|Hl]%elem_of_cons & Hs & Hu)]; [by left|congruence|].
        right. by exists l.
    + rewrite elem_of_union, elem_of_singleton. split.
      * intros [[->|?]|(l & Hl & Hs)]; [right|by left|right].
        -- exists line. split; [left|done].
        -- exists l. split; [by right|done].
      * intros [?|(l & [->|Hl]%elem_of_cons & Hs & Hu)]; [by left; right|by left; left|].
        right. by exists l.
Qed.

Lemma loaded_clean (file : option string) url :
  url ∈ load_known_channels file → clean_url url.
Proof.
  destruct file as [text|]; simpl; [|by intros ?%elem_of_empty].
  intros [?%elem_of_empty|(line & Hline & <- & Hne)]%add_lines_elem; [done|].
  apply strip_line_clean; [|done].
  pose proof (read_lines_lines text) as Hlines. rewrite Forall_forall in Hlines.
  by apply Hlines.
Qed.

Lemma load_save_clean channels :
  (∀ url, url ∈ channels → clean_url url) →
  load_known_channels (Some (save_known_channels channels)) = channels.
Proof.
  intros Hclean. unfold load_known_channels, save_known_channels.
  rewrite read_lines_write_lines.
  - rewrite add_lines_spec.
    + rewrite list_to_set_sorted. by rewrite (right_id_L ∅ (∪)).
    + intros url Hurl%sorted_elem. destruct (Hclean url Hurl) as (? & ? & _). done.
  - intros url Hurl%sorted_elem. destruct (Hclean url Hurl) as (_ & _ & ? & ?). done.
Qed.

(** X9. Every URL that [load_known_channels] hands over is clean: not
    empty, without white space at either end, without a line end inside.
    So the set a load yields survives a save and a reload unchanged, and a
    second save writes the same file. *)
Theorem load_known_channels_normal (file : option string) :
  (∀ url, url ∈ load_known_channels file → clean_url url) ∧
  load_known_channels (Some (save_known_channels (load_known_channels file)))
  = load_known_channels file ∧
  save_known_channels
    (load_known_channels (Some (save_known_channels (load_known_channels file))))
  = save_known_channels (load_known_channels file).
Proof.
  assert (load_known_channels (Some (save_known_channels (load_known_channels file)))
          = load_known_channels file) as Hload
    by (apply load_save_clean; apply loaded_clean).
  split_and!; [apply loaded_clean|done|by rewrite Hload].
Qed.

Lemma read_lines_nonempty text : text ≠ "" → read_lines text ≠ [].
Proof.
  destruct text as [|c rest]; [done|]. intros _. simpl.
  destruct (Ascii.eqb c LF); [done|]. destruct (Ascii.eqb c CR).
  - destruct rest as [|c' rest']; [done|]. by destruct (Ascii.eqb c' LF).
  - by destruct (read_lines rest).
Qed.

Lemma read_lines_app_aux (n : nat) s text :
  (String.length s ≤ n)%nat →
  read_lines ((s +:+ String LF "") +:+ text)
  = read_lines (s +:+ String LF "") ++ read_lines text.
Proof.
  revert s. induction n as [|n IH]; intros s Hn.
  - destruct s; [done|simpl in Hn; lia].
  - destruct s as [|c s]; [done|]. simpl in Hn.
    change (read_lines (String c ((s +:+ String LF "") +:+ text))
            = read_lines (String c (s +:+ String LF "")) ++ read_lines text).
    simpl read_lines.
    destruct (Ascii.eqb c LF).
    { rewrite IH by lia. done. }
    destruct (Ascii.eqb c CR).
    + destruct s as [|c' s']; [done|].
      change (match String c' ((s' +:+ String LF "") +:+ text) with
              | "" => [String LF ""]
              | String c'0 rest' =>
                  if Ascii.eqb c'0 LF then String LF "" :: read_lines rest'
                  else String LF "" :: read_lines (String c' ((s' +:+ String LF "") +:+ text))
              end
              = match String c' (s' +:+ String LF "") with
                | "" => [String LF ""]
                | String c'0 rest' =>
                    if Ascii.eqb c'0 LF then String LF "" :: read_lines rest'
                    else String LF "" :: read_lines (String c' (s' +:+ String LF ""))
                end ++ read_lines text).
      cbv iota beta. destruct (Ascii.eqb c' LF).
      * simpl in Hn. rewrite IH by lia. done.
      * change (String c' ((s' +:+ String LF "") +:+ text))
          with ((String c' s' +:+ String LF "") +:+ text).
        rewrite IH by lia. done.
    + rewrite IH by lia.
      pose proof (read_lines_nonempty (s +:+ String LF "")) as Hne.
      destruct (read_lines (s +:+ String LF "")) as [|line lines]; [|done].
      exfalso. apply Hne; [|done]. by destruct s.
Qed.

Lemma read_lines_app s text :
  read_lines ((s +:+ String LF "") +:+ text)
  = read_lines (s +:+ String LF "") ++ read_lines text.
Proof. by apply (read_lines_app_aux (String.length s)). Qed.

Lemma append_empty_r s : s +:+ "" = s.
Proof.
  induction s as [|c s IH]; [done|].
  change (String c (s +:+ "") = String c s). by rewrite IH.
Qed.

(** A clean URL of the set is a line of the file. *)
Lemma write_lines_line (urls : list string) url :
  url ∈ urls → (LF ∉ chars url) → (CR ∉ chars url) →
  url +:+ String LF "" ∈ read_lines (write_lines urls).
Proof.
  intros Hin HLF HCR. induction urls as [|u urls IH]; [by apply elem_of_nil in Hin|].
  simpl write_lines. rewrite read_lines_app. apply elem_of_app.
  apply elem_of_cons in Hin as [<-|Hin]; [left|right; by apply IH].
  pose proof (read_lines_line url "" HLF HCR) as Hline.
  rewrite append_empty_r in Hline. rewrite Hline. left.
Qed.

Lemma clean_url_survives channels url :
  url ∈ channels → clean_url url →
  url ∈ load_known_channels (Some (save_known_channels channels)).
Proof.
  intros Hin (Hne & Hstrip & HLF & HCR). unfold load_known_channels, save_known_channels.
  apply add_lines_elem. right. exists (url +:+ String LF ""). split_and!; [|by apply strip_line|done].
  apply write_lines_line; [by apply sorted_elem|done..].
Qed.
End reload.

(** ** What a run writes *)

Section passes.
Context `{Formatter}.
Implicit Types (keyword : string) (keys : list string) (script : list net_event)
  (scripts : list (list net_event)) (l : locals) (w : world) (r : response) (s : step).

Lemma read_page_subseteq data known known' fetched token :
  read_page data known = Ok (known', fetched, token) → known ⊆ known'.
Proof.
  unfold read_page.
  destruct (py_get data "items" (JArr [])) as [items|]; [|done]. simpl.
  destruct (py_iter items) as [elems|]; [|done]. simpl.
  destruct (merge_items elems known) as [known''|] eqn:Hmerge; [|done]. simpl.
  destruct (py_len items) as [n|]; [|done]. simpl.
  destruct (py_get data "nextPageToken" JNull) as [tok|]; [|done]. simpl.
  intros [= <- <- <-]. by eapply merge_items_subseteq.
Qed.

(** A pass writes both files or none: it leaves the memory and the files
    alone, or it leaves both files saved from a memory whose registry has
    only grown. *)
Lemma transition_files keyword max_results keys script l w s :
  transition keyword max_results keys script l w s →
  (state (after s) = state w ∧ known_channels (after s) = known_channels w ∧
   state_file (after s) = state_file w ∧ output_file (after s) = output_file w) ∨
  (synced (after s) ∧ known_channels w ⊆ known_channels (after s)).
Proof.
  intros Hs. destruct Hs as [evs Hs|e evs Hs|r evs s Hs Hh]; [by left|by left|].
  destruct Hh; unfold stop_keyword; cbn [after final]; try by left.
  - right. by split.
  - right. by split.
  - right. split; [done|]. simpl. by eapply read_page_subseteq.
  - right. split; [done|]. simpl. by eapply read_page_subseteq.
Qed.

(** A pass that ends in an exception or waits for the network has written
    nothing. *)
Lemma transition_crash keyword max_results keys script l w s :
  transition keyword max_results keys script l w s →
  match s with
  | Stop (Raised _ w') | Stop (Blocked w') =>
      state w' = state w ∧ state_file w' = state_file w ∧ output_file w' = output_file w
  | _ => True
  end.
Proof.
  intros Hs. destruct Hs as [evs Hs|e evs Hs|r evs s Hs Hh]; [done|done|].
  by destruct Hh.
Qed.

Section invariant.
Variable P : world → Prop.
Hypothesis P_transition : ∀ keyword max_results keys script l w s,
  P w → transition keyword max_results keys script l w s → P (after s).
Hypothesis P_setdefault : ∀ keyword w, P w → P (set_state (setdefault keyword (state w)) w).

Lemma process_loop_invariant keyword max_results keys scripts l w :
  P w → P (final (process_loop keyword max_results keys scripts l w).1).
Proof.
  revert l w. induction scripts as [|script rest IH]; intros l w Hw; simpl.
  - by destruct (completed _).
  - destruct (completed _); [done|].
    pose proof (P_transition _ _ _ _ _ _ _ Hw
                  (loop_body_transition keyword max_results keys script l w)) as Hs.
    destruct (loop_body _ _ _ script l w) as [l' w'|o]; [by apply IH|done].
Qed.

Lemma process_keyword_invariant keyword cfg keys scripts w :
  P w → P (final (process_keyword keyword cfg keys scripts w).1).
Proof.
  intros Hw%(P_setdefault keyword). unfold process_keyword.
  destruct (completed _); [done|].
  destruct (py_index keys 0); [|done]. by apply process_loop_invariant.
Qed.

Lemma run_keywords_invariant kws cfg scripts w :
  P w → P (final (run_keywords kws cfg scripts w)).
Proof.
  revert scripts w. induction kws as [|keyword rest IH]; intros scripts w Hw; simpl; [done|].
  pose proof (process_keyword_invariant keyword cfg (api_keys cfg) scripts w Hw) as Hk.
  destruct (process_keyword _ _ _ scripts w) as [[w'|c w'|e w'|w'] scripts']; try done.
  by apply IH.
Qed.
End invariant.

Lemma written_together_transition sp op keyword max_results keys script l w s :
  written_together sp op w → transition keyword max_results keys script l w s →
  written_together sp op (after s).
Proof.
  intros Hw [(Hst & Hkn & Hsf & Hof)|([Hsf Hof] & Hkn)]%transition_files.
  - destruct Hw as [(? & ? & ?)|(? & ? & ?)]; [left|right]; rewrite ?Hkn, ?Hsf, ?Hof; done.
  - right. split_and!; [by rewrite Hsf|done|].
    destruct Hw as [(_ & _ & <-)|(_ & _ & ?)]; [done|]. by etrans.
Qed.

Lemma main_written_together cfg sp op scripts :
  (state_file (final (main cfg sp op scripts)) = sp ∧
   output_file (final (main cfg sp op scripts)) = op) ∨
  (is_Some (state_file (final (main cfg sp op scripts))) ∧
   output_file (final (main cfg sp op scripts))
   = Some (save_known_channels (known_channels (final (main cfg sp op scripts)))) ∧
   load_known_channels op ⊆ known_channels (final (main cfg sp op scripts))).
Proof.
  unfold main. destruct (negb (valid_config cfg)); [by left|].
  set (w := {| state := load_state sp; known_channels := load_known_channels op;
               state_file := sp; output_file := op; trace := [] |}).
  assert (written_together sp op (final (run_keywords (keywords cfg) cfg scripts w)))
    as [(? & ? & _)|?]; [|by left|by right].
  apply run_keywords_invariant.
  - intros. by eapply written_together_transition.
  - by intros keyword w0 Hw0.
  - by left.
Qed.

Lemma run_keywords_durable kws cfg scripts w :
  durable w → durable (final (run_keywords kws cfg scripts w)).
Proof.
  apply run_keywords_invariant.
  - intros. by eapply transition_durable.
  - apply setdefault_durable.
Qed.

Lemma main_durable cfg sp op scripts :
  valid_config cfg = true → durable (final (main cfg sp op scripts)).
Proof.
  intros Hvalid. unfold main. rewrite Hvalid. simpl.
  apply run_keywords_durable, main_start_durable.
Qed.

Lemma main_keeps_urls cfg sp op scripts url :
  url ∈ load_known_channels op →
  url ∈ load_known_channels (output_file (final (main cfg sp op scripts))).
Proof.
  intros Hurl.
  destruct (main_written_together cfg sp op scripts) as [[_ ->]|(_ & -> & Hkn)]; [done|].
  apply clean_url_survives; [by apply Hkn|by eapply loaded_clean].
Qed.
End passes.

(** ** Completed keywords *)

Section idle.
Context `{Formatter}.
Implicit Types (keyword : string) (keys : list string) (script : list net_event)
  (scripts : list (list net_event)) (l : locals) (w : world) (r : response) (s : step).

Lemma set_state_same w : set_state (state w) w = w.
Proof. by destruct w. Qed.

Lemma setdefault_completed keyword (st : gmap string kw_state) :
  completed (st !!! keyword) = true → setdefault keyword st = st.
Proof.
  unfold setdefault. rewrite lookup_total_alt.
  by destruct (st !! keyword).
Qed.

Lemma process_keyword_completed keyword cfg keys scripts w :
  completed (state w !!! keyword) = true →
  process_keyword keyword cfg keys scripts w = (Returned w, scripts).
Proof.
  intros Hdone. unfold process_keyword.
  rewrite (setdefault_completed _ _ Hdone), set_state_same. by rewrite Hdone.
Qed.

Lemma run_keywords_completed kws cfg scripts w :
  (∀ k, k ∈ kws → completed (state w !!! k) = true) →
  run_keywords kws cfg scripts w = Returned w.
Proof.
  induction kws as [|keyword kws IH]; intros Hdone; simpl; [done|].
  rewrite process_keyword_completed by (apply Hdone; left).
  apply IH. intros k Hk. apply Hdone. by right.
Qed.

(** X12. A finished harvest does nothing: when the state file marks every
    configured keyword as completed, [main] returns without a request,
    without a pause and without writing either file. *)
Theorem finished_harvest_is_idle cfg sp op scripts :
  valid_config cfg = true →
  (∀ k, k ∈ keywords cfg → completed (load_state sp !!! k) = true) →
  main cfg sp op scripts
  = Returned {| state := load_state sp; known_channels := load_known_channels op;
                state_file := sp; output_file := op; trace := [] |}.
Proof.
  intros Hvalid Hdone. unfold main. rewrite Hvalid. simpl.
  by apply run_keywords_completed.
Qed.
End idle.

Section frozen.
Context `{Formatter}.
Implicit Types (keyword : string) (keys : list string) (script : list net_event)
  (scripts : list (list net_event)) (l : locals) (w : world) (r : response) (s : step).

(** A pass touches the entry of its keyword only. *)
Lemma transition_other_entry keyword max_results keys script l w s k :
  k ≠ keyword → transition keyword max_results keys script l w s →
  state (after s) !!! k = state w !!! k.
Proof.
  intros Hne Hs. destruct Hs as [evs Hs|e evs Hs|r evs s Hs Hh]; [done|done|].
  destruct Hh; unfold stop_keyword, mark_completed, record_page; simpl; try done.
  - by rewrite !lookup_total_insert_ne.
  - by rewrite lookup_total_insert_ne.
Qed.

Lemma process_loop_other_entry keyword max_results keys scripts l w k :
  k ≠ keyword →
  state (final (process_loop keyword max_results keys scripts l w).1) !!! k = state w !!! k.
Proof.
  intros Hne. revert l w. induction scripts as [|script rest IH]; intros l w; simpl.
  - by destruct (completed _).
  - destruct (completed _); [done|].
    pose proof (transition_other_entry _ _ _ _ _ _ _ k Hne
                  (loop_body_transition keyword max_results keys script l w)) as Hs.
    destruct (loop_body _ _ _ script l w) as [l' w'|o]; simpl in *; [|done].
    by rewrite IH.
Qed.

Lemma process_keyword_frozen keyword cfg keys scripts w k :
  completed (state w !!! k) = true →
  state (final (process_keyword keyword cfg keys scripts w).1) !!! k = state w !!! k.
Proof.
  intros Hdone. destruct (decide (k = keyword)) as [->|Hne].
  - by rewrite process_keyword_completed.
  - unfold process_keyword. cbn [state set_state].
    destruct (completed (setdefault keyword (state w) !!! keyword)).
    + simpl. apply setdefault_lookup_total.
    + destruct (py_index keys 0); simpl; [|apply setdefault_lookup_total].
      rewrite process_loop_other_entry by done. simpl. apply setdefault_lookup_total.
Qed.

Lemma run_keywords_frozen kws cfg scripts w k :
  completed (state w !!! k) = true →
  state (final (run_keywords kws cfg scripts w)) !!! k = state w !!! k.
Proof.
  revert scripts w. induction kws as [|keyword kws IH]; intros scripts w Hdone; simpl; [done|].
  pose proof (process_keyword_frozen keyword cfg (api_keys cfg) scripts w k Hdone) as Hk.
  destruct (process_keyword _ _ _ scripts w) as [[w'|c w'|e w'|w'] scripts']; simpl in *;
    try done.
  rewrite IH; [done|]. by rewrite Hk.
Qed.

Lemma main_frozen cfg sp op scripts k :
  completed (load_state sp !!! k) = true →
  load_state (state_file (final (main cfg sp op scripts))) !!! k = load_state sp !!! k.
Proof.
  intros Hdone. destruct (valid_config cfg) eqn:Hvalid.
  - rewrite (main_durable cfg sp op scripts Hvalid k).
    unfold main. rewrite Hvalid. simpl. by rewrite run_keywords_frozen.
  - unfold main. by rewrite Hvalid.
Qed.
End frozen.

Lemma finished_harvest_is_idle_witness :
  @main no_formatter one_key (Some done_state) None [[quota_reply]]
  = Returned {| state := load_state (Some done_state);
                known_channels := load_known_channels None;
                state_file := Some done_state; output_file := None; trace := [] |}.
Proof.
  apply (@finished_harvest_is_idle no_formatter one_key (Some done_state) None [[quota_reply]]).
  - reflexivity.
  - intros k ->%list_elem_of_singleton. reflexivity.
Defined.

(** ** The order of the keys *)

Section rotation.
Context `{Formatter}.
Implicit Types (keyword : string) (keys : list string) (script : list net_event)
  (scripts : list (list net_event)) (l : locals) (w : world) (r : response) (s : step).

Lemma answered_app evs1 evs2 : answered (evs1 ++ evs2) = answered evs1 ++ answered evs2.
Proof. unfold answered. by rewrite omap_app. Qed.

Lemma answered_fetch params r evs : fetch_events params r evs → answered evs = [params].
Proof.
  intros [errs ->]. rewrite answered_app.
  assert (answered (concat ((λ info, [EvGet params (Some (NetError info)); EvSleep default_delay])
                              <$> errs)) = []) as ->; [|done].
  induction errs as [|e errs IH]; [done|]. simpl. exact IH.
Qed.

(** With the indices up to the current one marked, the rotator hands out
    the next index, or nothing after the last one. *)
Lemma get_next_api_key_in_order keys (exhausted : gset Z) (i : Z) :
  0 ≤ i < Z.of_nat (length keys) → (∀ j, j ∈ exhausted ↔ 0 ≤ j ≤ i) →
  get_next_api_key keys exhausted i
  = Ok (if decide (i + 1 < Z.of_nat (length keys))
        then (λ k, (i + 1, k)) <$> keys !! Z.to_nat (i + 1)
        else None).
Proof.
  intros Hi Hex. unfold get_next_api_key. set (N := Z.of_nat (length keys)) in *.
  destruct (decide (i + 1 < N)) as [Hlt|Hge].
  - destruct (lookup_lt_is_Some_2 keys (Z.to_nat (i + 1))) as [k Hk]; [lia|].
    rewrite Hk. simpl. apply scan_keys_Some; [lia|done|].
    exists 0%nat, 1. split_and!.
    + rewrite py_range_lookup by lia. done.
    + rewrite Z.mod_small by lia. done.
    + rewrite Hex. lia.
    + intros m o Hm. lia.
    + done.
  - apply scan_keys_None; [lia|done|]. intros o _. apply Hex.
    pose proof (Z.mod_pos_bound (i + o) N). lia.
Qed.

Lemma rotation_run keyword max_results keys scripts rest l w :
  completed (state w !!! keyword) = false →
  0 ≤ current_key_index l < Z.of_nat (length keys) →
  (∀ j, j ∈ exhausted_keys l ↔ 0 ≤ j < current_key_index l) →
  keys !! Z.to_nat (current_key_index l) = Some (api_key l) →
  Z.of_nat (length scripts) = Z.of_nat (length keys) - current_key_index l →
  Forall quota_answer scripts →
  ∃ w', process_loop keyword max_results keys (scripts ++ rest) l w = (Exited 0 w', rest) ∧
    state w' = state w ∧ known_channels w' = known_channels w ∧ synced w' ∧
    answered (trace w')
    = answered (trace w)
      ++ ((λ k, search_params keyword k (cursor_of (state w) keyword))
            <$> drop (Z.to_nat (current_key_index l)) keys).
Proof.
  revert l w. induction scripts as [|script scripts IH];
    intros l w Hopen Hi Hex Hkey Hlen Hquota.
  { simpl in Hlen. lia. }
  apply Forall_cons in Hquota as [(r & Hans & Hq) Hquota].
  destruct (search_answers keyword (api_key l) (cursor_of (state w) keyword) script r Hans)
    as (evs & Hsearch & Hevs).
  pose proof (get_next_api_key_in_order keys ({[current_key_index l]} ∪ exhausted_keys l)
                (current_key_index l) Hi) as Hnext.
  specialize (Hnext ltac:(intros j; rewrite elem_of_union, elem_of_singleton, Hex; lia)).
  rewrite (drop_S _ _ _ Hkey). simpl. rewrite Hopen.
  destruct (decide (current_key_index l + 1 < Z.of_nat (length keys))) as [Hlt|Hge].
  - destruct (lookup_lt_is_Some_2 keys (Z.to_nat (current_key_index l + 1))) as [k Hk]; [lia|].
    rewrite Hk in Hnext. simpl in Hnext.
    assert (loop_body keyword max_results keys script l w
            = Continue {| current_key_index := current_key_index l + 1; api_key := k;
                          exhausted_keys := {[current_key_index l]} ∪ exhausted_keys l |}
                (log evs w)) as ->.
    { apply transition_loop_body. eapply T_fetched; [done|].
      apply H_rotate; [by apply quota_exhausted_failure|done..]. }
    destruct (IH {| current_key_index := current_key_index l + 1; api_key := k;
                    exhausted_keys := {[current_key_index l]} ∪ exhausted_keys l |}
                (log evs w)) as (w' & Hloop & Hst & Hkn & Hsync & Htrace); simpl; try done.
    + lia.
    + intros j. rewrite elem_of_union, elem_of_singleton, Hex. lia.
    + simpl in Hlen. lia.
    + exists w'. split_and!; try done.
      rewrite Htrace. simpl. rewrite answered_app, (answered_fetch _ _ _ Hevs).
      rewrite <- app_assoc. simpl.
      replace (S (Z.to_nat (current_key_index l))) with (Z.to_nat (current_key_index l + 1))
        by lia.
      done.
  - assert (loop_body keyword max_results keys script l w
            = Stop (Exited 0 (save_channels (save_state (log evs w))))) as ->.
    { apply transition_loop_body. eapply T_fetched; [done|].
      apply H_halt; [by apply quota_exhausted_failure|done..]. }
    assert (scripts = []) as -> by (destruct scripts; [done|simpl in Hlen; lia]).
    eexists. split; [done|]. split_and!; try done. simpl.
    rewrite answered_app, (answered_fetch _ _ _ Hevs).
    rewrite drop_ge by lia. done.
Qed.

(** X14. A keyword tries every key once, in the order of the list: when
    the network answers as many requests as there are keys with a quota
    exhaustion, [process_keyword] asks for the same page with the first key,
    then the second, and so on to the last, and then exits with status 0,
    the registry and the keyword's entry in memory as they were. *)
Theorem keys_tried_in_order keyword cfg keys scripts rest w :
  completed (state w !!! keyword) = false →
  keys ≠ [] → length scripts = length keys → Forall quota_answer scripts →
  ∃ w', process_keyword keyword cfg keys (scripts ++ rest) w = (Exited 0 w', rest) ∧
    answered (trace w')
    = answered (trace w)
      ++ ((λ k, search_params keyword k (cursor_of (state w) keyword)) <$> keys) ∧
    state w' = setdefault keyword (state w) ∧
    known_channels w' = known_channels w.
Proof.
  intros Hopen Hne Hlen Hquota. unfold process_keyword.
  cbn [state set_state]. rewrite setdefault_lookup_total, Hopen.
  destruct keys as [|k0 keys]; [done|].
  change (py_index (k0 :: keys) 0) with (Ok (A:=string) k0). cbn iota.
  destruct (rotation_run keyword (max_results_per_keyword cfg) (k0 :: keys) scripts rest
              {| current_key_index := 0; api_key := k0; exhausted_keys := ∅ |}
              (set_state (setdefault keyword (state w)) w))
    as (w' & Hloop & Hst & Hkn & Hsync & Htrace); simpl; try done.
  - by rewrite setdefault_lookup_total.
  - intros j. rewrite elem_of_empty. lia.
  - rewrite Hlen. simpl. lia.
  - exists w'. split_and!; try done.
    rewrite Htrace. unfold cursor_of. simpl. by rewrite setdefault_lookup_total.
Qed.
End rotation.

Lemma keys_tried_in_order_witness :
  ∃ w',
    @process_keyword no_formatter "a" three_keys ["k0"; "k1"]
      ([[quota_reply]; [quota_reply]] ++ [[quota_reply]]) (fresh_world "a")
    = (Exited 0 w', [[quota_reply]])
    ∧ answered (trace w')
      = [search_params "a" "k0" JNull; search_params "a" "k1" JNull].
Proof.
  destruct (@keys_tried_in_order no_formatter "a" three_keys ["k0"; "k1"]
              [[quota_reply]; [quota_reply]] [[quota_reply]] (fresh_world "a"))
    as (w' & Hrun & Htrace & _).
  - reflexivity.
  - discriminate.
  - reflexivity.
  - repeat constructor;
      (exists {| status_code := 403; body := Some (quota_payload "quotaExceeded") |};
       split; [exists [], []; split; [reflexivity|simpl; lia]|reflexivity]).
  - exists w'. split; [exact Hrun|exact Htrace].
Defined.

(** ** Pagination and failed passes *)

Section pagination.
Context `{Formatter}.
Implicit Types (keyword : string) (keys : list string) (script : list net_event)
  (scripts : list (list net_event)) (l : locals) (w : world) (r : response) (s : step).

(** X15. Pagination follows the cursor: when a 200 response arrives whose
    body holds a list of items under ["items"] and a token that is not
    empty under ["nextPageToken"], and the count stays below the limit
    with these items, the loop goes round with the same key; the token of
    the body is the cursor in memory, the count has grown by the number of
    the items, the registry is the merge of the items, the pause of 0.5
    follows the fetch, and the next pass first asks for the page of that
    token with the same key. *)
Theorem pagination_follows_cursor keyword max_results keys script l w r fields items
    token known' :
  answers script r → status_code r = 200 → body r = Some (JObj fields) →
  fields !! "items" = Some (JArr items) →
  merge_items items (known_channels w) = Ok known' →
  fields !! "nextPageToken" = Some token → truthy token = true →
  count_of (state w) keyword + Z.of_nat (length items) < max_results →
  ∃ w1 evs,
    loop_body keyword max_results keys script l w = Continue l w1 ∧
    fetch_events (search_params keyword (api_key l) (cursor_of (state w) keyword)) r evs ∧
    trace w1 = trace w ++ evs ++ [EvSleep (1 # 2)] ∧
    cursor_of (state w1) keyword = token ∧
    count_of (state w1) keyword = count_of (state w) keyword + Z.of_nat (length items) ∧
    completed (state w1 !!! keyword) = completed (state w !!! keyword) ∧
    known_channels w1 = known' ∧
    pageToken (search_params keyword (api_key l) token) = Some token ∧
    (∀ next, ∃ a evs',
       trace (after (loop_body keyword max_results keys next l w1))
       = trace w1 ++ EvGet (search_params keyword (api_key l) token) a :: evs').
Proof.
  intros Hans Hstatus Hbody Hitems Hmerge Hnext Htoken Hcount.
  destruct (search_answers keyword (api_key l) (cursor_of (state w) keyword) script r Hans)
    as (evs & Hsearch & Hevs).
  assert (response_data r = JObj fields) as Hdata by by apply response_data_200.
  assert (read_page (response_data r) (known_channels (log evs w))
          = Ok (known', Z.of_nat (length items), token)) as Hpage.
  { rewrite Hdata. apply read_page_body. exists fields, items.
    rewrite Hitems, Hnext. by split_and!. }
  set (w1 := log [EvSleep (1 # 2)]
               (record_page keyword known' (Z.of_nat (length items)) token (log evs w))).
  assert (loop_body keyword max_results keys script l w = Continue l w1) as Hloop.
  { apply transition_loop_body. eapply T_fetched; [done|].
    eapply H_next_page; [by rewrite Hdata|done..]. }
  assert (cursor_of (state w1) keyword = token) as Hcursor.
  { unfold cursor_of, w1, record_page. simpl. by rewrite lookup_total_insert_eq. }
  exists w1, evs. split_and!; try done.
  - simpl. by rewrite <- app_assoc.
  - unfold count_of, w1, record_page. simpl. by rewrite lookup_total_insert_eq.
  - unfold w1, record_page. simpl. by rewrite lookup_total_insert_eq.
  - unfold search_params. simpl. by rewrite Htoken.
  - intros next. rewrite <- Hcursor. apply loop_body_trace.
Qed.

(** X16. A pass that raises has written nothing: whatever exception
    leaves the loop body, the state in memory and both files are as the
    pass found them. In particular three transport errors in a row end the
    loop with the third one after three requests and two pauses of 1.5,
    and an exception that leaves [process_keyword] ends the run: the
    keywords that remain are not processed. *)
Theorem failed_pass_writes_nothing :
  (∀ keyword max_results keys script l w e w',
     loop_body keyword max_results keys script l w = Stop (Raised e w') →
     state w' = state w ∧ state_file w' = state_file w ∧ output_file w' = output_file w) ∧
  (∀ keyword max_results keys e1 e2 e3 tail rest l w,
     completed (state w !!! keyword) = false →
     process_loop keyword max_results keys
       ((NetError e1 :: NetError e2 :: NetError e3 :: tail) :: rest) l w
     = (Raised (RequestException e3)
          (log (let params := search_params keyword (api_key l) (cursor_of (state w) keyword) in
                [EvGet params (Some (NetError e1)); EvSleep default_delay;
                 EvGet params (Some (NetError e2)); EvSleep default_delay;
                 EvGet params (Some (NetError e3))]) w), rest)) ∧
  (∀ keyword kws cfg scripts w e w' rest,
     process_keyword keyword cfg (api_keys cfg) scripts w = (Raised e w', rest) →
     run_keywords (keyword :: kws) cfg scripts w = Raised e w').
Proof.
  split_and!.
  - intros keyword max_results keys script l w e w' Hbody.
    pose proof (transition_crash keyword max_results keys script l w _
                  (loop_body_transition _ _ _ _ _ _)) as Hcrash.
    by rewrite Hbody in Hcrash.
  - intros keyword max_results keys e1 e2 e3 tail rest l w Hopen.
    simpl. by rewrite Hopen.
  - intros keyword kws cfg scripts w e w' rest Hk. simpl. by rewrite Hk.
Qed.
End pagination.

Lemma pagination_follows_cursor_witness :
  ∃ w1,
    @loop_body no_formatter "a" 50 ["k0"] [ok_reply (sample_page ["UCa"] (Some "T"))]
      (first_locals "k0") (fresh_world "a")
    = Continue (first_locals "k0") w1
    ∧ cursor_of (state w1) "a" = JStr "T".
Proof.
  edestruct (@pagination_follows_cursor no_formatter "a" 50 ["k0"]
              [ok_reply (sample_page ["UCa"] (Some "T"))]
              (first_locals "k0") (fresh_world "a")
              {| status_code := 200; body := Some (sample_page ["UCa"] (Some "T")) |}
              (<["items" := JArr (sample_item <$> ["UCa"])]> {[ "nextPageToken" := JStr "T" ]})
              (sample_item <$> ["UCa"]) (JStr "T"))
    as (w1 & evs & Hbody & _ & _ & Hcursor & _).
  - exists [], []. split; [reflexivity|simpl; lia].
  - reflexivity.
  - by vm_compute.
  - by vm_compute.
  - vm_compute. reflexivity.
  - by vm_compute.
  - reflexivity.
  - by vm_compute.
  - exists w1. split; [exact Hbody|exact Hcursor].
Defined.

(** ** The effects of a run *)

Section effects.
Context `{Formatter}.
Implicit Types (keyword : string) (keys : list string) (script : list net_event)
  (scripts : list (list net_event)) (l : locals) (w : world) (r : response) (s : step).

Lemma request_loop_events params retries delay attempt script :
  Forall (λ ev, (∃ a, ev = EvGet params a) ∨ ev = EvSleep delay)
    (request_loop params retries delay attempt script).2.
Proof.
  revert attempt. induction script as [|[info|r] script IH]; intros attempt; simpl.
  - repeat constructor. by eexists.
  - destruct (_ >=? _); simpl; [repeat constructor; by eexists|].
    specialize (IH (attempt + 1)).
    destruct (request_loop params retries delay (attempt + 1) script) as [res evs].
    simpl in *. constructor; [left; by eexists|]. constructor; [by right|done].
  - repeat constructor. by eexists.
Qed.

Lemma search_events keyword k token script :
  Forall (λ ev, (∃ a, ev = EvGet (search_params keyword k token) a) ∨ ev = EvSleep default_delay)
    (search_videos_for_keyword keyword k token script).2.
Proof.
  pose proof (request_loop_events (search_params keyword k token) default_retries
                default_delay 0 script) as Hevs.
  unfold search_videos_for_keyword, request_with_retries. simpl.
  destruct (request_loop _ _ _ _ script) as [[r| |] evs]; simpl in *; try done.
  destruct (negb _); [done|]. by destruct (body r).
Qed.

Lemma search_keyword_events keyword keys k token script :
  k ∈ keys →
  Forall (keyword_event keyword keys) (search_videos_for_keyword keyword k token script).2.
Proof.
  intros Hk. eapply Forall_impl; [apply search_events|].
  intros ev [[a ->]| ->]; simpl; [by exists k, token|by left].
Qed.

Lemma loop_body_events keyword max_results keys script l w :
  api_key l ∈ keys →
  ∃ evs, trace (after (loop_body keyword max_results keys script l w)) = trace w ++ evs ∧
    Forall (keyword_event keyword keys) evs.
Proof.
  intros Hk.
  pose proof (search_keyword_events keyword keys (api_key l)
                (last_page_token (state w !!! keyword)) script Hk) as Hevs.
  pose proof (loop_body_transition keyword max_results keys script l w) as Hs.
  destruct Hs as [evs Hs|e evs Hs|r evs s Hs Hh]; rewrite Hs in Hevs; simpl in Hevs.
  - by exists evs.
  - by exists evs.
  - destruct Hh; unfold stop_keyword; simpl; try by exists evs.
    exists (evs ++ [EvSleep (1 # 2)]). rewrite <- app_assoc. split; [done|].
    apply Forall_app. split; [done|]. constructor; [by right|done].
Qed.

Lemma process_loop_events keyword max_results keys scripts l w :
  api_key l ∈ keys →
  ∃ evs, trace (final (process_loop keyword max_results keys scripts l w).1) = trace w ++ evs ∧
    Forall (keyword_event keyword keys) evs.
Proof.
  revert l w. induction scripts as [|script rest IH]; intros l w Hk; simpl.
  - destruct (completed _); exists []; by rewrite app_nil_r.
  - destruct (completed _); [exists []; by rewrite app_nil_r|].
    destruct (loop_body_events keyword max_results keys script l w Hk) as (evs & Htrace & Hevs).
    pose proof (loop_body_transition keyword max_results keys script l w) as Hs.
    destruct (loop_body _ _ _ script l w) as [l' w'|o]; simpl in *.
    + destruct (IH l' w') as (evs' & Htrace' & Hevs').
      { apply continue_marks in Hs as [(_ & _ & _ & Hkey)|[-> _]]; [|done].
        by eapply list_elem_of_lookup_2. }
      exists (evs ++ evs'). rewrite Htrace', Htrace, <- app_assoc. split; [done|].
      by apply Forall_app.
    + by exists evs.
Qed.

Lemma py_index_elem {A} (xs : list A) (i : Z) (x : A) : py_index xs i = Ok x → x ∈ xs.
Proof.
  unfold py_index. destruct (_ && _); [|done].
  destruct (xs !! _) eqn:Hx; [|done]. intros [= <-]. by eapply list_elem_of_lookup_2.
Qed.

Lemma process_keyword_events keyword cfg keys scripts w :
  ∃ evs, trace (final (process_keyword keyword cfg keys scripts w).1) = trace w ++ evs ∧
    Forall (keyword_event keyword keys) evs.
Proof.
  unfold process_keyword.
  destruct (completed _); [exists []; by rewrite app_nil_r|].
  destruct (py_index keys 0) as [k|e] eqn:Hk; [|exists []; by rewrite app_nil_r].
  apply py_index_elem in Hk.
  by destruct (process_loop_events keyword (max_results_per_keyword cfg) keys scripts
              {| current_key_index := 0; api_key := k; exhausted_keys := ∅ |}
              (set_state (setdefault keyword (state w)) w)) as (evs & ? & ?); [|exists evs].
Qed.

Lemma run_keywords_events kws cfg scripts w :
  kws ⊆ keywords cfg → Forall (configured_event cfg) (trace w) →
  Forall (configured_event cfg) (trace (final (run_keywords kws cfg scripts w))).
Proof.
  revert scripts w. induction kws as [|keyword kws IH]; intros scripts w Hkws Hw; simpl; [done|].
  destruct (process_keyword_events keyword cfg (api_keys cfg) scripts w) as (evs & Htrace & Hevs).
  assert (Forall (configured_event cfg)
            (trace (final (process_keyword keyword cfg (api_keys cfg) scripts w).1))) as Hk.
  { rewrite Htrace. apply Forall_app. split; [done|].
    eapply Forall_impl; [done|]. intros [params a|d]; simpl; [|done].
    intros (k & token & -> & Hin). split_and!; try done. apply Hkws. left. }
  destruct (process_keyword _ _ _ scripts w) as [[w'|c w'|e w'|w'] scripts']; try done.
  apply IH; [|done]. intros k Hin. apply Hkws. by right.
Qed.

(** X17. A run asks only for what the configuration names: every request
    [main] makes is a video search with [maxResults] 50 for one of the
    configured keywords under one of the configured keys, and every pause
    lasts 1.5 or 0.5. *)
Theorem main_requests_configured cfg sp op scripts :
  Forall (configured_event cfg) (trace (final (main cfg sp op scripts))).
Proof.
  unfold main. destruct (negb (valid_config cfg)); [by constructor|].
  apply run_keywords_events; [done|by constructor].
Qed.
End effects.

(** ** The run on disk *)

(** The temporary file of a path. *)
Example with_suffix_tmp_samples :
  with_suffix_tmp "h.json" = "h.tmp" ∧ with_suffix_tmp "out/channels.txt" = "out/channels.tmp" ∧
  with_suffix_tmp "state" = "state.tmp" ∧ with_suffix_tmp ".state" = ".state.tmp" ∧
  with_suffix_tmp "a.b.c" = "a.b.tmp" ∧ with_suffix_tmp "h.tmp" = "h.tmp" ∧
  with_suffix_tmp "a.d/b" = "a.d/b.tmp".
Proof. repeat split; reflexivity. Qed.

Section simulation.
Context `{Formatter} `{Codec}.
Implicit Types (ps : paths) (w : Disk.world).

Lemma write_lookup path f (d : gmap string file) :
  Disk.write path f d !! path = Some f.
Proof.
  unfold Disk.write, Disk.replace. rewrite lookup_insert_eq. by rewrite lookup_insert_eq.
Qed.

Lemma write_lookup_other path other f (d : gmap string file) :
  other ≠ path → other ≠ with_suffix_tmp path →
  Disk.write path f d !! other = d !! other.
Proof.
  intros Hp Ht. unfold Disk.write, Disk.replace. rewrite lookup_insert_eq.
  rewrite lookup_insert_ne by done. rewrite lookup_delete_ne by done.
  by rewrite lookup_insert_ne.
Qed.

Lemma view_save_state ps w :
  independent ps → view ps (Disk.save_state (state_path ps) w) = save_state (view ps w).
Proof.
  intros (Hne & Htmp & _). unfold view, Disk.save_state, save_state. simpl.
  rewrite write_lookup, write_lookup_other by done. done.
Qed.

Lemma view_save_channels ps w :
  independent ps → view ps (Disk.save_channels (output_path ps) w) = save_channels (view ps w).
Proof.
  intros (Hne & _ & Htmp). unfold view, Disk.save_channels, save_channels. simpl.
  rewrite write_lookup, write_lookup_other by done. done.
Qed.

Lemma view_stop_keyword ps w :
  independent ps → view_step ps (Disk.stop_keyword ps w) = stop_keyword (view ps w).
Proof.
  intros Hps. unfold Disk.stop_keyword, stop_keyword. cbn [view_step view_outcome].
  by rewrite view_save_channels, view_save_state.
Qed.

Lemma view_record_page ps keyword known' fetched token w :
  independent ps →
  view ps (Disk.record_page ps keyword known' fetched token w)
  = record_page keyword known' fetched token (view ps w).
Proof.
  intros Hps. unfold Disk.record_page, record_page. cbv zeta.
  by rewrite view_save_channels, view_save_state.
Qed.

Lemma view_mark_completed ps keyword w :
  independent ps →
  view ps (Disk.mark_completed ps keyword w) = mark_completed keyword (view ps w).
Proof.
  intros Hps. unfold Disk.mark_completed, mark_completed. cbv zeta.
  by rewrite view_save_state.
Qed.

Lemma view_loop_body ps keyword max_results keys script l w :
  independent ps →
  view_step ps (Disk.loop_body ps keyword max_results keys script l w)
  = loop_body keyword max_results keys script l (view ps w).
Proof.
  intros Hps. unfold Disk.loop_body, loop_body. cbv zeta.
  change (state (view ps w)) with (Disk.state w).
  destruct (search_videos_for_keyword _ _ _ script) as [[[data r]|e|] evs]; try done.
  change (log evs (view ps w)) with (view ps (Disk.log evs w)).
  generalize (Disk.log evs w). clear w. intros w.
  destruct (is_none data).
  - destruct (quota_exhausted r) as [[|]|e]; try done.
    + destruct (get_next_api_key _ _ _) as [[[idx k]|]|e]; try done.
      cbn [view_step view_outcome]. by rewrite view_save_channels, view_save_state.
    + by apply view_stop_keyword.
  - change (known_channels (view ps w)) with (Disk.known_channels w).
    destruct (read_page data _) as [[[known' fetched] token]|e]; try done.
    rewrite <- (view_record_page ps) by done.
    change (state (view ps ?x)) with (Disk.state x).
    destruct (_ || _); cbn [view_step view_outcome].
    + by rewrite view_mark_completed.
    + done.
Qed.

Lemma view_process_loop ps keyword max_results keys scripts l w :
  independent ps →
  (view_outcome ps (Disk.process_loop ps keyword max_results keys scripts l w).1,
   (Disk.process_loop ps keyword max_results keys scripts l w).2)
  = process_loop keyword max_results keys scripts l (view ps w).
Proof.
  intros Hps. revert l w. induction scripts as [|script rest IH]; intros l w; simpl.
  - by destruct (completed _).
  - destruct (completed _); [done|].
    rewrite <- (view_loop_body ps) by done.
    destruct (Disk.loop_body ps keyword max_results keys script l w) as [l' w'|o]; simpl;
      [apply IH|done].
Qed.

Lemma view_advance ps keyword max_results keys scripts l w :
  independent ps →
  prod_map id (view ps) <$> Disk.advance ps keyword max_results keys scripts l w
  = advance keyword max_results keys scripts l (view ps w).
Proof.
  intros Hps. revert l w. induction scripts as [|script rest IH]; intros l w; simpl; [done|].
  destruct (completed _); [done|].
  rewrite <- (view_loop_body ps) by done.
  destruct (Disk.loop_body ps keyword max_results keys script l w) as [l' w'|o]; simpl;
    [apply IH|done].
Qed.

Lemma view_process_keyword ps keyword cfg keys scripts w :
  independent ps →
  (view_outcome ps (Disk.process_keyword ps keyword cfg keys scripts w).1,
   (Disk.process_keyword ps keyword cfg keys scripts w).2)
  = process_keyword keyword cfg keys scripts (view ps w).
Proof.
  intros Hps. unfold Disk.process_keyword, process_keyword. cbv zeta.
  change (set_state (setdefault keyword (state (view ps w))) (view ps w))
    with (view ps (Disk.set_state (setdefault keyword (Disk.state w)) w)).
  generalize (Disk.set_state (setdefault keyword (Disk.state w)) w). clear w. intros w.
  change (state (view ps w)) with (Disk.state w).
  destruct (completed _); [done|].
  destruct (py_index keys 0); [|done]. by apply view_process_loop.
Qed.

Lemma view_run_keywords ps kws cfg scripts w :
  independent ps →
  view_outcome ps (Disk.run_keywords ps kws cfg scripts w)
  = run_keywords kws cfg scripts (view ps w).
Proof.
  intros Hps. revert scripts w. induction kws as [|keyword kws IH]; intros scripts w; simpl;
    [done|].
  rewrite <- (view_process_keyword ps) by done.
  destruct (Disk.process_keyword ps keyword cfg (api_keys cfg) scripts w)
    as [[w'|c w'|e w'|w'] scripts']; simpl; done.
Qed.

Lemma view_main cfg ps d scripts :
  independent ps →
  view_outcome ps (Disk.main cfg ps d scripts)
  = main cfg (read_state <$> d !! state_path ps) (read_text <$> d !! output_path ps) scripts.
Proof.
  intros Hps. unfold Disk.main, main. destruct (negb (valid_config cfg)); [done|].
  rewrite view_run_keywords by done. f_equal.
  unfold view, Disk.load_state, load_state. simpl. f_equal.
  by destruct (d !! state_path ps).
Qed.

Lemma view_final ps o : final (view_outcome ps o) = view ps (Disk.final o).
Proof. by destruct o. Qed.

Lemma view_invocations ps runs d :
  independent ps →
  (read_state <$> Disk.invocations ps runs d !! state_path ps,
   read_text <$> Disk.invocations ps runs d !! output_path ps)
  = invocations runs (read_state <$> d !! state_path ps) (read_text <$> d !! output_path ps).
Proof.
  intros Hps. revert d. induction runs as [|[cfg scripts] runs IH]; intros d; simpl; [done|].
  rewrite IH. rewrite <- (view_main cfg ps d scripts) by done. by rewrite view_final.
Qed.
End simulation.

(** ** Saves and loads on disk *)

Section disk.
Context `{Formatter} `{Codec}.
Implicit Types (ps : paths) (w : Disk.world) (keyword : string) (keys : list string)
  (script : list net_event) (scripts : list (list net_event)) (l : locals) (r : response).

Lemma load_state_view ps w :
  load_state (state_file (view ps w)) = Disk.load_state (state_path ps) (Disk.files w).
Proof. unfold Disk.load_state. simpl. by destruct (Disk.files w !! state_path ps). Qed.

(** After the two saves both files hold what the memory holds. *)
Lemma saved_both ps w :
  independent ps →
  persisted ps (Disk.state w) (Disk.known_channels w)
    (Disk.files (Disk.save_channels (output_path ps) (Disk.save_state (state_path ps) w))).
Proof.
  intros (Hne & Htmp & Htmp'). split; simpl.
  - rewrite write_lookup_other by done. apply write_lookup.
  - apply write_lookup.
Qed.

(** What is persisted reads back: the state as it is, and every clean URL
    of the registry. *)
Lemma persisted_reads_back ps st registry (d : gmap string file) :
  persisted ps st registry d →
  Disk.load_state (state_path ps) d = st ∧
  (∀ url, url ∈ registry → clean_url url →
     url ∈ Disk.load_known_channels (output_path ps) d) ∧
  ((∀ url, url ∈ registry → clean_url url) →
     Disk.load_known_channels (output_path ps) d = registry).
Proof.
  intros [Hst Hout]. unfold Disk.load_state, Disk.load_known_channels.
  rewrite Hst, Hout. simpl. split_and!; [done| |].
  - intros url Hurl Hclean. by apply clean_url_survives.
  - apply load_save_clean.
Qed.

(** The failure exit on disk. *)
Lemma disk_failure_step ps keyword max_results keys script rest l w r :
  completed (Disk.state w !!! keyword) = false → answers script r →
  is_none (response_data r) = true → quota_exhausted r = Ok false →
  ∃ evs,
    fetch_events (search_params keyword (api_key l) (cursor_of (Disk.state w) keyword)) r evs ∧
    Disk.loop_body ps keyword max_results keys script l w
    = Disk.stop_keyword ps (Disk.log evs w) ∧
    Disk.process_loop ps keyword max_results keys (script :: rest) l w
    = (Disk.Returned (Disk.save_channels (output_path ps)
                        (Disk.save_state (state_path ps) (Disk.log evs w))), rest).
Proof.
  intros Hopen Hans Hnone Hquota.
  destruct (search_answers keyword (api_key l) (cursor_of (Disk.state w) keyword) script r Hans)
    as (evs & Hsearch & Hevs).
  assert (Disk.loop_body ps keyword max_results keys script l w
          = Disk.stop_keyword ps (Disk.log evs w)) as Hbody.
  { unfold Disk.loop_body. cbv zeta. unfold cursor_of in Hsearch.
    by rewrite Hsearch, Hnone, Hquota. }
  exists evs. split_and!; [done..|]. simpl. by rewrite Hopen, Hbody.
Qed.

(** The halt on disk. *)
Lemma disk_halt_step ps keyword max_results keys script rest l w r :
  completed (Disk.state w !!! keyword) = false → answers script r →
  quota_exhausted r = Ok true →
  get_next_api_key keys ({[current_key_index l]} ∪ exhausted_keys l)
    (current_key_index l) = Ok None →
  ∃ evs,
    fetch_events (search_params keyword (api_key l) (cursor_of (Disk.state w) keyword)) r evs ∧
    Disk.process_loop ps keyword max_results keys (script :: rest) l w
    = (Disk.Exited 0 (Disk.save_channels (output_path ps)
                        (Disk.save_state (state_path ps) (Disk.log evs w))), rest).
Proof.
  intros Hopen Hans Hquota Hnone.
  destruct (search_answers keyword (api_key l) (cursor_of (Disk.state w) keyword) script r Hans)
    as (evs & Hsearch & Hevs).
  exists evs. split; [done|]. simpl. rewrite Hopen.
  unfold Disk.loop_body. cbv zeta. unfold cursor_of in Hsearch.
  by rewrite Hsearch, (quota_exhausted_failure r Hquota), Hquota, Hnone.
Qed.

(** A pass leaves the memory and the disk alone, or leaves both files
    saved from a memory whose registry has only grown. *)
Lemma disk_loop_body_files ps keyword max_results keys script l w :
  independent ps →
  (Disk.state (Disk.after (Disk.loop_body ps keyword max_results keys script l w))
   = Disk.state w ∧
   Disk.known_channels (Disk.after (Disk.loop_body ps keyword max_results keys script l w))
   = Disk.known_channels w ∧
   Disk.files (Disk.after (Disk.loop_body ps keyword max_results keys script l w))
   = Disk.files w) ∨
  (persisted ps
     (Disk.state (Disk.after (Disk.loop_body ps keyword max_results keys script l w)))
     (Disk.known_channels (Disk.after (Disk.loop_body ps keyword max_results keys script l w)))
     (Disk.files (Disk.after (Disk.loop_body ps keyword max_results keys script l w))) ∧
   Disk.known_channels w
   ⊆ Disk.known_channels (Disk.after (Disk.loop_body ps keyword max_results keys script l w))).
Proof.
  intros Hps. unfold Disk.loop_body. cbv zeta.
  destruct (search_videos_for_keyword _ _ _ script) as [[[data r]|e|] evs]; [|by left..].
  change (Disk.known_channels w) with (Disk.known_channels (Disk.log evs w)).
  change (Disk.state w) with (Disk.state (Disk.log evs w)).
  change (Disk.files w) with (Disk.files (Disk.log evs w)).
  generalize (Disk.log evs w). clear w. intros w.
  destruct (is_none data).
  - destruct (quota_exhausted r) as [[|]|e];
      [|right; split; [exact (saved_both ps w Hps)|done]|by left].
    destruct (get_next_api_key _ _ _) as [[[idx k]|]|e]; [by left| |by left].
    right. split; [exact (saved_both ps w Hps)|done].
  - destruct (read_page data _) as [[[known' fetched] token]|e] eqn:Hpage; [|by left].
    apply read_page_subseteq in Hpage. right.
    destruct (_ || _); cbn [Disk.after Disk.final].
    + split; [|done]. destruct Hps as (Hne & Htmp & Htmp').
      unfold Disk.mark_completed, Disk.record_page. split; simpl.
      * apply write_lookup.
      * rewrite write_lookup_other by done. apply write_lookup.
    + split; [|done]. unfold Disk.record_page. cbv zeta.
      exact (saved_both ps _ Hps).
Qed.

Section disk_invariant.
Variable ps : paths.
Variable P : Disk.world → Prop.
Hypothesis P_pass : ∀ keyword max_results keys script l w,
  P w → P (Disk.after (Disk.loop_body ps keyword max_results keys script l w)).
Hypothesis P_setdefault : ∀ keyword w,
  P w → P (Disk.set_state (setdefault keyword (Disk.state w)) w).

Lemma disk_process_loop_invariant keyword max_results keys scripts l w :
  P w → P (Disk.final (Disk.process_loop ps keyword max_results keys scripts l w).1).
Proof.
  revert l w. induction scripts as [|script rest IH]; intros l w Hw; simpl.
  - by destruct (completed _).
  - destruct (completed _); [done|].
    pose proof (P_pass keyword max_results keys script l w Hw) as Hs.
    destruct (Disk.loop_body ps keyword max_results keys script l w) as [l' w'|o];
      [by apply IH|done].
Qed.

Lemma disk_process_keyword_invariant keyword cfg keys scripts w :
  P w → P (Disk.final (Disk.process_keyword ps keyword cfg keys scripts w).1).
Proof.
  intros Hw%(P_setdefault keyword). unfold Disk.process_keyword. cbv zeta.
  destruct (completed _); [done|].
  destruct (py_index keys 0); [|done]. by apply disk_process_loop_invariant.
Qed.

Lemma disk_run_keywords_invariant kws cfg scripts w :
  P w → P (Disk.final (Disk.run_keywords ps kws cfg scripts w)).
Proof.
  revert scripts w. induction kws as [|keyword rest IH]; intros scripts w Hw; simpl; [done|].
  pose proof (disk_process_keyword_invariant keyword cfg (api_keys cfg) scripts w Hw) as Hk.
  destruct (Disk.process_keyword _ _ _ _ scripts w) as [[w'|c w'|e w'|w'] scripts']; try done.
  by apply IH.
Qed.
End disk_invariant.

(** The loop leaves through the exit only with both files saved. *)
Lemma disk_process_loop_exit_saved ps keyword max_results keys scripts l w c w' rest :
  independent ps →
  Disk.process_loop ps keyword max_results keys scripts l w = (Disk.Exited c w', rest) →
  persisted ps (Disk.state w') (Disk.known_channels w') (Disk.files w').
Proof.
  intros Hps. revert l w. induction scripts as [|script scripts IH]; intros l w; simpl.
  - by destruct (completed _).
  - destruct (completed _); [done|].
    destruct (Disk.loop_body ps keyword max_results keys script l w) as [l' w1|o] eqn:Hbody;
      [apply IH|].
    intros [= -> ->]. revert Hbody. unfold Disk.loop_body. cbv zeta.
    destruct (search_videos_for_keyword _ _ _ script) as [[[data r]|e|] evs]; try done.
    destruct (is_none data).
    + destruct (quota_exhausted r) as [[|]|e]; try done.
      destruct (get_next_api_key _ _ _) as [[[idx k]|]|e]; try done.
      intros [= <- <-]. exact (saved_both ps w Hps).
    + destruct (read_page data _) as [[[known' fetched] token]|e]; try done.
      by destruct (_ || _).
Qed.
End disk.

Lemma sample_paths_independent : independent sample_paths.
Proof. repeat split; vm_compute; discriminate. Qed.

(** ** The failure exits on disk *)

Section disk_claims.
Context `{Formatter} `{Codec}.
Implicit Types (ps : paths) (w : Disk.world) (keyword : string) (keys : list string)
  (script : list net_event) (scripts : list (list net_event)) (l : locals) (r : response).

Lemma disk_process_keyword_exit_saved ps keyword cfg keys scripts w c w' rest :
  independent ps →
  Disk.process_keyword ps keyword cfg keys scripts w = (Disk.Exited c w', rest) →
  persisted ps (Disk.state w') (Disk.known_channels w') (Disk.files w').
Proof.
  intros Hps. unfold Disk.process_keyword. cbv zeta. destruct (completed _); [done|].
  destruct (py_index keys 0); [|done]. by apply disk_process_loop_exit_saved.
Qed.

Lemma disk_run_keywords_exit_saved ps kws cfg scripts w c w' :
  independent ps →
  Disk.run_keywords ps kws cfg scripts w = Disk.Exited c w' →
  persisted ps (Disk.state w') (Disk.known_channels w') (Disk.files w').
Proof.
  intros Hps. revert scripts w. induction kws as [|keyword kws IH]; intros scripts w; simpl;
    [done|].
  destruct (Disk.process_keyword _ _ _ _ scripts w) as [[w1|c1 w1|e w1|w1] scripts'] eqn:Hk;
    try done.
  - apply IH.
  - intros [= -> ->]. by eapply disk_process_keyword_exit_saved.
Qed.

Lemma disk_process_loop_exit ps keyword max_results keys scripts l w c w' rest :
  independent ps →
  Disk.process_loop ps keyword max_results keys scripts l w = (Disk.Exited c w', rest) →
  c = 0 ∧
  ∃ before quota l1 w1,
    scripts = before ++ quota ++ rest ∧ quota ≠ [] ∧ Forall quota_answer quota ∧
    Disk.advance ps keyword max_results keys before l w = Some (l1, w1) ∧
    (before = [] ∨
     synced (view ps w1) ∧
     ∃ earlier script l0 w0 fetched token known',
       before = earlier ++ [script] ∧
       Disk.advance ps keyword max_results keys earlier l w = Some (l0, w0) ∧
       page_fetched script (view ps w0) fetched token known') ∧
    Disk.state w' = Disk.state w1 ∧ Disk.known_channels w' = Disk.known_channels w1 ∧
    persisted ps (Disk.state w1) (Disk.known_channels w1) (Disk.files w').
Proof.
  intros Hps Hloop.
  pose proof (disk_process_loop_exit_saved _ _ _ _ _ _ _ _ _ _ Hps Hloop) as Hsaved.
  pose proof (view_process_loop ps keyword max_results keys scripts l w Hps) as Hview.
  rewrite Hloop in Hview. simpl in Hview. symmetry in Hview.
  apply process_loop_exit in Hview
    as (-> & before & quota & l1 & w1 & -> & Hne & Hquota & Hadv & Hlast & Hst & Hkn & _ & _).
  split; [done|].
  pose proof (view_advance ps keyword max_results keys before l w Hps) as Hadv'.
  rewrite Hadv in Hadv'.
  destruct (Disk.advance ps keyword max_results keys before l w) as [[l1' w1']|] eqn:Hdisk;
    [|done].
  simpl in Hadv'. injection Hadv' as <- <-.
  exists before, quota, l1', w1'. split_and!; try done.
  - destruct Hlast as [?|(Hsync & earlier & script & l0 & w0 & fetched & token & known' & -> & Hadv0 & Hpage)];
      [by left|right]. split; [done|].
    pose proof (view_advance ps keyword max_results keys earlier l w Hps) as Hadv0'.
    rewrite Hadv0 in Hadv0'.
    destruct (Disk.advance ps keyword max_results keys earlier l w) as [[l0' w0']|] eqn:Hdisk0;
      [|done].
    simpl in Hadv0'. injection Hadv0' as <- <-.
    by exists earlier, script, l0', w0', fetched, token, known'.
  - simpl in Hst, Hkn. by rewrite <- Hst, <- Hkn.
Qed.

(** C5 (amended). Provided the saves of the two files do not touch each
    other (the two paths differ and the temporary file of neither is the
    other), when a quota-exhausted response arrives and the rotator finds no
    key left, the loop writes the state and the registry to their files,
    so that a load of the state file yields the state in memory and a
    load of the output file yields every clean URL of the registry, all
    of it when all its URLs are clean. State and registry are those of
    the last counted page (nothing has touched them since, and the files
    held them already), and the whole process exits with status 0: the
    keywords that remain are not processed. *)
Theorem quota_exhaustion_halts :
  (∀ ps keyword max_results keys script rest l w r,
     independent ps →
     completed (Disk.state w !!! keyword) = false → answers script r →
     quota_exhausted r = Ok true →
     get_next_api_key keys ({[current_key_index l]} ∪ exhausted_keys l)
       (current_key_index l) = Ok None →
     ∃ w' evs,
       Disk.process_loop ps keyword max_results keys (script :: rest) l w
       = (Disk.Exited 0 w', rest) ∧
       Disk.state w' = Disk.state w ∧ Disk.known_channels w' = Disk.known_channels w ∧
       Disk.trace w' = Disk.trace w ++ evs ∧
       fetch_events (search_params keyword (api_key l) (cursor_of (Disk.state w) keyword)) r evs ∧
       persisted ps (Disk.state w) (Disk.known_channels w) (Disk.files w') ∧
       Disk.load_state (state_path ps) (Disk.files w') = Disk.state w ∧
       (∀ url, url ∈ Disk.known_channels w → clean_url url →
          url ∈ Disk.load_known_channels (output_path ps) (Disk.files w')) ∧
       ((∀ url, url ∈ Disk.known_channels w → clean_url url) →
          Disk.load_known_channels (output_path ps) (Disk.files w') = Disk.known_channels w)) ∧
  (∀ ps keyword max_results keys scripts l w c w' rest,
     independent ps →
     Disk.process_loop ps keyword max_results keys scripts l w = (Disk.Exited c w', rest) →
     c = 0 ∧
     ∃ before quota l1 w1,
       scripts = before ++ quota ++ rest ∧ quota ≠ [] ∧ Forall quota_answer quota ∧
       Disk.advance ps keyword max_results keys before l w = Some (l1, w1) ∧
       (before = [] ∨
        synced (view ps w1) ∧
        ∃ earlier script l0 w0 fetched token known',
          before = earlier ++ [script] ∧
          Disk.advance ps keyword max_results keys earlier l w = Some (l0, w0) ∧
          page_fetched script (view ps w0) fetched token known') ∧
       Disk.state w' = Disk.state w1 ∧ Disk.known_channels w' = Disk.known_channels w1 ∧
       persisted ps (Disk.state w1) (Disk.known_channels w1) (Disk.files w')) ∧
  (∀ ps keyword kws cfg scripts w c w' rest,
     Disk.process_keyword ps keyword cfg (api_keys cfg) scripts w = (Disk.Exited c w', rest) →
     Disk.run_keywords ps (keyword :: kws) cfg scripts w = Disk.Exited c w') ∧
  (∀ cfg ps d scripts c w',
     independent ps → valid_config cfg = true →
     Disk.main cfg ps d scripts = Disk.Exited c w' →
     Disk.exit_code (Disk.main cfg ps d scripts) = Some 0 ∧
     persisted ps (Disk.state w') (Disk.known_channels w') (Disk.files w')).
Proof.
  split_and!.
  - intros ps keyword max_results keys script rest l w r Hps Hopen Hans Hquota Hnone.
    destruct (disk_halt_step ps keyword max_results keys script rest l w r)
      as (evs & Hevs & Hloop); [done..|].
    eexists _, evs. split; [exact Hloop|].
    pose proof (saved_both ps (Disk.log evs w) Hps) as Hsaved.
    destruct (persisted_reads_back _ _ _ _ Hsaved) as (? & ? & ?).
    split_and!; done.
  - intros. by eapply disk_process_loop_exit.
  - intros ps keyword kws cfg scripts w c w' rest Hk. simpl. by rewrite Hk.
  - intros cfg ps d scripts c w' Hps Hvalid Hmain.
    pose proof (view_main cfg ps d scripts Hps) as Hview. rewrite Hmain in Hview.
    simpl in Hview. symmetry in Hview.
    unfold main in Hview. rewrite Hvalid in Hview. simpl in Hview.
    apply run_keywords_exit in Hview as [-> _]. rewrite Hmain. split; [done|].
    unfold Disk.main in Hmain. rewrite Hvalid in Hmain. simpl in Hmain.
    by eapply disk_run_keywords_exit_saved.
Qed.

(** C10 (amended). Provided the saves of the two files do not touch each
    other, a 403 response whose body is not parseable JSON is an ordinary
    failure: the empty dictionary that stands for the body holds no quota
    reason, so the pass neither marks a key nor goes round with another
    one; the loop writes the state and the registry to their files, from
    which loads read them back, and returns with the keyword's
    [completed] flag false, in memory and on file. *)
Theorem unparseable_403_blocks_keyword ps keyword max_results keys script rest l w r :
  independent ps →
  completed (Disk.state w !!! keyword) = false →
  answers script r → status_code r = 403 → body r = None →
  handle_quota_error (JObj ∅) = Ok false ∧
  quota_exhausted r = Ok false ∧
  ∃ w' evs,
    Disk.loop_body ps keyword max_results keys script l w = Disk.Stop (Disk.Returned w') ∧
    Disk.process_loop ps keyword max_results keys (script :: rest) l w
    = (Disk.Returned w', rest) ∧
    Disk.state w' = Disk.state w ∧ Disk.known_channels w' = Disk.known_channels w ∧
    Disk.trace w' = Disk.trace w ++ evs ∧
    fetch_events (search_params keyword (api_key l) (cursor_of (Disk.state w) keyword)) r evs ∧
    persisted ps (Disk.state w) (Disk.known_channels w) (Disk.files w') ∧
    Disk.load_state (state_path ps) (Disk.files w') = Disk.state w ∧
    (∀ url, url ∈ Disk.known_channels w → clean_url url →
       url ∈ Disk.load_known_channels (output_path ps) (Disk.files w')) ∧
    completed (Disk.load_state (state_path ps) (Disk.files w') !!! keyword) = false.
Proof.
  intros Hps Hopen Hans Hstatus Hbody. split; [done|].
  assert (quota_exhausted r = Ok false) as Hquota by by apply quota_exhausted_unparseable.
  split; [done|].
  destruct (disk_failure_step ps keyword max_results keys script rest l w r Hopen Hans) as
    (evs & Hevs & Hstep & Hloop); [apply response_data_failure; by right|done|].
  eexists _, evs. split; [exact Hstep|]. split; [exact Hloop|].
  pose proof (saved_both ps (Disk.log evs w) Hps) as Hsaved.
  destruct (persisted_reads_back _ _ _ _ Hsaved) as (Hst & ? & ?).
  split_and!; try done. by rewrite Hst.
Qed.







Lemma disk_main_counts cfg ps (d : gmap string file) scripts k :
  independent ps →
  count_of (Disk.load_state (state_path ps) d) k
  ≤ count_of (Disk.load_state (state_path ps)
                (Disk.files (Disk.final (Disk.main cfg ps d scripts)))) k.
Proof.
  intros Hps.
  pose proof (main_counts cfg (read_state <$> d !! state_path ps)
                (read_text <$> d !! output_path ps) scripts k) as Hcount.
  rewrite <- (view_main cfg ps d scripts Hps), view_final, load_state_view in Hcount.
  unfold Disk.load_state at 1. unfold load_state in Hcount.
  by destruct (d !! state_path ps).
Qed.

(** The memory and the trace of a pass do not depend on where the files
    are. *)
Lemma disk_loop_body_memory ps keyword max_results keys script l w :
  Disk.state (Disk.after (Disk.loop_body ps keyword max_results keys script l w))
  = state (after (loop_body keyword max_results keys script l (view ps w))) ∧
  Disk.known_channels (Disk.after (Disk.loop_body ps keyword max_results keys script l w))
  = known_channels (after (loop_body keyword max_results keys script l (view ps w))) ∧
  Disk.trace (Disk.after (Disk.loop_body ps keyword max_results keys script l w))
  = trace (after (loop_body keyword max_results keys script l (view ps w))).
Proof.
  unfold Disk.loop_body, loop_body. cbv zeta.
  change (state (view ps w)) with (Disk.state w).
  destruct (search_videos_for_keyword _ _ _ script) as [[[data r]|e|] evs]; try done.
  destruct (is_none data).
  - destruct (quota_exhausted r) as [[|]|e]; try done.
    by destruct (get_next_api_key _ _ _) as [[[idx k]|]|e].
  - change (known_channels (log evs (view ps w))) with (Disk.known_channels (Disk.log evs w)).
    destruct (read_page data _) as [[[known' fetched] token]|e]; try done.
    unfold Disk.record_page, record_page. simpl.
    rewrite !lookup_total_insert_eq. simpl. by destruct (_ || _).
Qed.

(** C8 (amended). The [fetched_count] of a keyword never decreases in
    memory: a pass of the loop leaves it as it is or adds the number of
    items of the page it fetched, which is not negative, wherever the two
    files are. Provided the saves of the two files do not touch each
    other, over any sequence of invocations, each started on the disk the
    one before left behind, the count that a load of the state file yields
    for a keyword stays at or above where it started. *)
Theorem fetched_count_monotone :
  (∀ keyword max_results keys script l (w : world) k,
     count_of (state (after (loop_body keyword max_results keys script l w))) k
     = count_of (state w) k ∨
     (k = keyword ∧ ∃ fetched token known',
        page_fetched script w fetched token known' ∧ 0 ≤ fetched ∧
        count_of (state (after (loop_body keyword max_results keys script l w))) k
        = count_of (state w) k + fetched)) ∧
  (∀ ps keyword max_results keys script l w,
     Disk.state (Disk.after (Disk.loop_body ps keyword max_results keys script l w))
     = state (after (loop_body keyword max_results keys script l (view ps w)))) ∧
  (∀ data known known' fetched token,
     read_page data known = Ok (known', fetched, token) →
     ∃ items, py_get data "items" (JArr []) = Ok items ∧ py_len items = Ok fetched) ∧
  (∀ ps runs (d : gmap string file) k,
     independent ps →
     count_of (Disk.load_state (state_path ps) d) k
     ≤ count_of (Disk.load_state (state_path ps) (Disk.invocations ps runs d)) k).
Proof.
  split_and!.
  - intros keyword max_results keys script l w k.
    eapply transition_count, loop_body_transition.
  - intros. apply disk_loop_body_memory.
  - intros data known known' fetched token Hread.
    by apply read_page_fetched in Hread as [_ ?].
  - intros ps runs d k Hps. revert d.
    induction runs as [|[cfg scripts] runs IH]; intros d; simpl; [done|].
    etrans; [apply (disk_main_counts cfg ps d scripts k Hps)|apply IH].
Qed.
End disk_claims.

(** ** Runs on disk *)

Section disk_runs.
Context `{Formatter} `{Codec}.
Implicit Types (ps : paths) (w : Disk.world) (keyword : string) (keys : list string)
  (script : list net_event) (scripts : list (list net_event)) (l : locals) (r : response).

Lemma disk_main_written cfg ps (d : gmap string file) scripts :
  independent ps →
  Disk.files (Disk.final (Disk.main cfg ps d scripts)) = d ∨
  (Disk.load_known_channels (output_path ps) d
   ⊆ Disk.known_channels (Disk.final (Disk.main cfg ps d scripts)) ∧
   ∃ st, persisted ps st (Disk.known_channels (Disk.final (Disk.main cfg ps d scripts)))
           (Disk.files (Disk.final (Disk.main cfg ps d scripts)))).
Proof.
  intros Hps. unfold Disk.main. destruct (negb (valid_config cfg)); [by left|].
  set (w := {| Disk.state := Disk.load_state (state_path ps) d;
               Disk.known_channels := Disk.load_known_channels (output_path ps) d;
               Disk.files := d; Disk.trace := [] |}).
  set (P := λ w : Disk.world,
    Disk.load_known_channels (output_path ps) d ⊆ Disk.known_channels w ∧
    (Disk.files w = d ∨ ∃ st, persisted ps st (Disk.known_channels w) (Disk.files w))).
  assert (P (Disk.final (Disk.run_keywords ps (keywords cfg) cfg scripts w))) as [Hkn [?|?]];
    [|by left|by right].
  apply (disk_run_keywords_invariant ps P).
  - intros keyword max_results keys script l w0 [Hkn Hfiles].
    destruct (disk_loop_body_files ps keyword max_results keys script l w0 Hps)
      as [(Hst' & Hkn' & Hfiles')|[Hsaved Hkn']].
    + split; [by rewrite Hkn'|]. rewrite Hkn', Hfiles'. done.
    + split; [by etrans|]. right. by eexists.
  - by intros keyword w0 Hw0.
  - split; [done|by left].
Qed.

Lemma disk_main_durable cfg ps (d : gmap string file) scripts :
  independent ps → valid_config cfg = true →
  durable (view ps (Disk.final (Disk.main cfg ps d scripts))).
Proof.
  intros Hps Hvalid. rewrite <- view_final, (view_main cfg ps d scripts Hps).
  by apply main_durable.
Qed.

(** X10. Provided the saves of the two files do not touch each other,
    however [main] ends, either the disk is as it was, or both files have
    been written: the state file holds a state with the entries of the
    state in memory, and the output file is the saved form of a registry
    that contains every URL the output file yielded at the start and
    whose clean URLs a load yields again; unless an exception escaped,
    that registry is the one in memory. *)
Theorem files_written_together cfg ps (d : gmap string file) scripts :
  independent ps →
  let o := Disk.main cfg ps d scripts in
  Disk.files (Disk.final o) = d ∨
  (∃ st registry,
     persisted ps st registry (Disk.files (Disk.final o)) ∧
     (∀ k, st !!! k = Disk.state (Disk.final o) !!! k) ∧
     Disk.load_known_channels (output_path ps) d ⊆ registry ∧
     (∀ url, url ∈ registry → clean_url url →
        url ∈ Disk.load_known_channels (output_path ps) (Disk.files (Disk.final o))) ∧
     ((∀ e w, o ≠ Disk.Raised e w) → registry = Disk.known_channels (Disk.final o))).
Proof.
  intros Hps. cbv zeta.
  destruct (disk_main_written cfg ps d scripts Hps) as [?|(Hkn & st & Hsaved)]; [by left|].
  destruct (valid_config cfg) eqn:Hvalid.
  - right. exists st, (Disk.known_channels (Disk.final (Disk.main cfg ps d scripts))).
    destruct (persisted_reads_back _ _ _ _ Hsaved) as (Hst & Hurls & _).
    split_and!; try done.
    intros k. pose proof (disk_main_durable cfg ps d scripts Hps Hvalid k) as Hd.
    by rewrite load_state_view, Hst in Hd.
  - left. unfold Disk.main. by rewrite Hvalid.
Qed.

Lemma disk_main_keeps_urls cfg ps (d : gmap string file) scripts url :
  independent ps →
  url ∈ Disk.load_known_channels (output_path ps) d →
  url ∈ Disk.load_known_channels (output_path ps)
          (Disk.files (Disk.final (Disk.main cfg ps d scripts))).
Proof.
  intros Hps Hurl.
  pose proof (main_keeps_urls cfg (read_state <$> d !! state_path ps)
                (read_text <$> d !! output_path ps) scripts url Hurl) as Hkept.
  by rewrite <- (view_main cfg ps d scripts Hps), view_final in Hkept.
Qed.

(** X11. Provided the saves of the two files do not touch each other, no
    run loses a URL: over any sequence of invocations, each started on the
    disk the one before left behind, a URL that a load of the output file
    yields at the start is yielded by a load of the output file at the
    end. *)
Theorem registry_never_forgets ps runs (d : gmap string file) url :
  independent ps →
  url ∈ Disk.load_known_channels (output_path ps) d →
  url ∈ Disk.load_known_channels (output_path ps) (Disk.invocations ps runs d).
Proof.
  intros Hps. revert d. induction runs as [|[cfg scripts] runs IH]; intros d Hurl; simpl;
    [done|].
  by apply IH, disk_main_keeps_urls.
Qed.

Lemma disk_main_frozen cfg ps (d : gmap string file) scripts k :
  independent ps →
  completed (Disk.load_state (state_path ps) d !!! k) = true →
  Disk.load_state (state_path ps) (Disk.files (Disk.final (Disk.main cfg ps d scripts))) !!! k
  = Disk.load_state (state_path ps) d !!! k.
Proof.
  intros Hps Hdone.
  assert (Disk.load_state (state_path ps) d
          = load_state (read_state <$> d !! state_path ps)) as Hload
    by (unfold Disk.load_state; by destruct (d !! state_path ps)).
  rewrite Hload in Hdone |- *.
  pose proof (main_frozen cfg _ (read_text <$> d !! output_path ps) scripts k Hdone) as Hk.
  by rewrite <- (view_main cfg ps d scripts Hps), view_final, load_state_view in Hk.
Qed.

(** X13. Provided the saves of the two files do not touch each other,
    the record of a completed keyword is never touched again: over any
    sequence of invocations, whatever their configurations and whatever
    the network does, a load of the state file keeps yielding the entry of
    a keyword that it marks as completed. *)
Theorem completed_entries_frozen ps runs (d : gmap string file) k :
  independent ps →
  completed (Disk.load_state (state_path ps) d !!! k) = true →
  Disk.load_state (state_path ps) (Disk.invocations ps runs d) !!! k
  = Disk.load_state (state_path ps) d !!! k.
Proof.
  intros Hps. revert d. induction runs as [|[cfg scripts] runs IH]; intros d Hdone; simpl;
    [done|].
  pose proof (disk_main_frozen cfg ps d scripts k Hps Hdone) as Hmain.
  rewrite IH; [done|]. by rewrite Hmain.
Qed.
End disk_runs.

Lemma quota_exhaustion_halts_witness :
  ∃ w',
    @Disk.process_loop no_formatter sample_paths "a" 50 ["k0"] [[quota_reply]]
      (first_locals "k0") (disk_world seven_state ∅) = (Disk.Exited 0 w', [])
    ∧ @Disk.load_state no_codec "state.json" (Disk.files w') = seven_state.
Proof.
  destruct (proj1 (@quota_exhaustion_halts no_formatter no_codec) sample_paths "a" 50 ["k0"]
              [quota_reply] [] (first_locals "k0") (disk_world seven_state ∅)
              {| status_code := 403; body := Some (quota_payload "quotaExceeded") |})
    as (w' & evs & Hloop & _ & _ & _ & _ & _ & Hstate & _).
  - exact sample_paths_independent.
  - reflexivity.
  - exists [], []. split; [reflexivity|simpl; lia].
  - reflexivity.
  - by vm_compute.
  - exists w'. split; [exact Hloop|exact Hstate].
Defined.

(** C5 as stated fails when the temporary file of the output file is the
    state file: the registry is saved through ["h.tmp"], which the final
    move takes away, so the process exits with status 0 and no state
    file. *)
Lemma quota_exhaustion_halts_counterexample :
  quota_exhausted {| status_code := 403; body := Some (quota_payload "quotaExceeded") |}
  = Ok true ∧
  get_next_api_key ["k0"] {[0]} 0 = Ok None ∧
  ∃ w',
    @Disk.process_loop no_formatter colliding_paths "a" 50 ["k0"] [[quota_reply]]
      (first_locals "k0") (disk_world seven_state {[ "h.tmp" := StateFile seven_state ]})
    = (Disk.Exited 0 w', []) ∧
    count_of (Disk.state w') "a" = 7 ∧
    Disk.files w' !! "h.tmp" = None ∧
    count_of (@Disk.load_state no_codec "h.tmp" (Disk.files w')) "a" = 0.
Proof.
  split; [reflexivity|]. split; [by vm_compute|].
  eexists. split; [by vm_compute|]. split_and!; by vm_compute.
Qed.

Lemma unparseable_403_blocks_keyword_witness :
  handle_quota_error (JObj ∅) = Ok false ∧
  quota_exhausted {| status_code := 403; body := None |} = Ok false.
Proof.
  destruct (@unparseable_403_blocks_keyword no_formatter no_codec sample_paths "a" 50
              ["k0"; "k1"] [Reply {| status_code := 403; body := None |}] []
              (first_locals "k0") (disk_world seven_state ∅)
              {| status_code := 403; body := None |})
    as (Hempty & Hquota & _).
  - exact sample_paths_independent.
  - reflexivity.
  - exists [], []. split; [reflexivity|simpl; lia].
  - reflexivity.
  - reflexivity.
  - split; [exact Hempty|exact Hquota].
Defined.

(** C10 as stated fails when the temporary file of the output file is
    the state file: after the failure exit there is no state file. *)
Lemma unparseable_403_counterexample :
  ∃ w',
    @Disk.process_loop no_formatter colliding_paths "a" 50 ["k0"]
      [[Reply {| status_code := 403; body := None |}]]
      (first_locals "k0") (disk_world seven_state {[ "h.tmp" := StateFile seven_state ]})
    = (Disk.Returned w', []) ∧
    count_of (Disk.state w') "a" = 7 ∧
    Disk.files w' !! "h.tmp" = None ∧
    count_of (@Disk.load_state no_codec "h.tmp" (Disk.files w')) "a" = 0.
Proof. eexists. split; [by vm_compute|]. split_and!; by vm_compute. Qed.



Lemma fetched_count_monotone_witness :
  count_of (@Disk.load_state no_codec "state.json" {[ "state.json" := StateFile seven_state ]}) "a"
  ≤ count_of (@Disk.load_state no_codec "state.json"
                (@Disk.invocations no_formatter no_codec sample_paths
                   [(one_key, [[ok_reply (sample_page ["UCa"; "UCb"] None)]])]
                   {[ "state.json" := StateFile seven_state ]})) "a".
Proof.
  apply (proj2 (proj2 (proj2 (@fetched_count_monotone no_formatter no_codec)))
           sample_paths [(one_key, [[ok_reply (sample_page ["UCa"; "UCb"] None)]])]
           {[ "state.json" := StateFile seven_state ]} "a").
  exact sample_paths_independent.
Defined.

(** C8 as stated fails when the temporary file of the output file is
    the state file: a run that stops on a failed fetch saves the registry
    through ["h.tmp"] and moves it away, and the count of seven on file
    is gone. *)
Lemma fetched_count_monotone_counterexample :
  valid_config one_key = true ∧
  count_of (@Disk.load_state no_codec "h.tmp" {[ "h.tmp" := StateFile seven_state ]}) "a" = 7 ∧
  count_of (@Disk.load_state no_codec "h.tmp"
              (@Disk.invocations no_formatter no_codec colliding_paths
                 [(one_key, [[Reply {| status_code := 500; body := None |}]])]
                 {[ "h.tmp" := StateFile seven_state ]})) "a" = 0.
Proof. split_and!; by vm_compute. Qed.

Lemma files_written_together_witness :
  Disk.files (Disk.final (@Disk.main no_formatter no_codec one_key sample_paths ∅ [])) = ∅.
Proof.
  destruct (@files_written_together no_formatter no_codec one_key sample_paths ∅ []
              sample_paths_independent) as [Hsame|(st & registry & [Hst _] & _)].
  - exact Hsame.
  - by vm_compute in Hst.
Defined.

Lemma registry_never_forgets_witness :
  "https://www.youtube.com/channel/UCold"
  ∈ @Disk.load_known_channels no_codec "channels.txt"
      (@Disk.invocations no_formatter no_codec sample_paths
         [(one_key, [[ok_reply (sample_page ["UCa"] None)]])]
         {[ "channels.txt" := TextFile "https://www.youtube.com/channel/UCold" ]}).
Proof.
  apply (@registry_never_forgets no_formatter no_codec sample_paths
           [(one_key, [[ok_reply (sample_page ["UCa"] None)]])]
           {[ "channels.txt" := TextFile "https://www.youtube.com/channel/UCold" ]}).
  - exact sample_paths_independent.
  - apply (bool_decide_unpack _). by vm_compute.
Defined.

Lemma completed_entries_frozen_witness :
  @Disk.load_state no_codec "state.json"
    (@Disk.invocations no_formatter no_codec sample_paths
       [(one_key, [[ok_reply (sample_page ["UCa"] None)]])]
       {[ "state.json" := StateFile done_state ]}) !!! "a"
  = @Disk.load_state no_codec "state.json" {[ "state.json" := StateFile done_state ]} !!! "a".
Proof.
  apply (@completed_entries_frozen no_formatter no_codec sample_paths
           [(one_key, [[ok_reply (sample_page ["UCa"] None)]])]
           {[ "state.json" := StateFile done_state ]} "a").
  - exact sample_paths_independent.
  - reflexivity.
Defined.
